(** * Notation: dot-notation paths and glob patterns over nested data

    A shallow embedding of [src/core/notation.js] and
    [src/core/notation.glob.js], and the properties of their
    specification.

    Conventions of the embedding.
    - A note (one level of a notation) is kept as the string the code
      handles: [car], [[0]], [*], [[*]].
    - A notation string is represented by the list of its notes, which is
      what [Notation.split] returns for it; [joinNotes] gives the string
      back where the code compares or orders the text.  A glob string is
      the list of its notes together with the leading bang.  Blanks
      around a glob, which the code trims, are left out.
    - Exceptions are values of type [error] in a result type.
    - [Notation] works on trees as values: a write answers the tree that
      the object written in place would then be.  [Store] keeps the
      objects at locations, for filter, where it matters which object a
      write reaches.
    - The helpers of [utils] are not part of the sources at hand; each
      is modelled from the specification and says so. *)

From Stdlib Require Import String Ascii List Bool Arith ZArith Lia.
From Stdlib Require Import DecimalString DecimalNat.
From Stdlib Require Import Permutation.
From Stdlib Require OrderedTypeEx.
Import ListNotations.
Open Scope string_scope.
Open Scope list_scope.

Set Warnings "-register-all".

(** ** Errors and results *)

Inductive error : Type :=
| InvalidSyntax        (* NotationError: invalid notation / glob / note *)
| MissingIndex         (* ERR.NO_INDEX *)
| MissingProperty      (* ERR.NO_PROP *)
| TypeMismatch         (* Cannot set string key on array *)
| InsertOnNonList      (* Cannot set value by inserting at index, on an object *)
| IntegrityError       (* Integrity failed for glob *)
| InvalidNotationsObject
| TypeError            (* the host's own error: property access on a non-object *)
| StackOverflow.       (* the host's own error: recursion without end *)

Inductive result (A : Type) : Type :=
| Ok (a : A)
| Err (e : error).
Arguments Ok {A} a.
Arguments Err {A} e.

Definition bind {A B : Type} (r : result A) (f : A -> result B) : result B :=
  match r with
  | Ok a => f a
  | Err e => Err e
  end.

Notation "x <- r ;; k" := (bind r (fun x => k))
  (at level 61, r at next level, right associativity).

(** ** utils.re and the note helpers of utils *)

Module Utils.

Definition isLetter (c : ascii) : bool :=
  let n := nat_of_ascii c in
  (Nat.leb 65 n && Nat.leb n 90) || (Nat.leb 97 n && Nat.leb n 122).

Definition isDigit (c : ascii) : bool :=
  let n := nat_of_ascii c in Nat.leb 48 n && Nat.leb n 57.

(* the class a-z, dollar, underscore, with the i flag *)
Definition isVarStart (c : ascii) : bool :=
  isLetter c || Ascii.eqb c "$" || Ascii.eqb c "_".

(* the same class with the digits *)
Definition isVarChar (c : ascii) : bool := isVarStart c || isDigit c.

Fixpoint allChars (p : ascii -> bool) (s : string) : bool :=
  match s with
  | EmptyString => true
  | String c r => p c && allChars p r
  end.

(** re.VAR: a JS variable name, letters case-insensitive. *)
Definition VAR (s : string) : bool :=
  match s with
  | EmptyString => false
  | String c r => isVarStart c && allChars isVarChar r
  end.

Fixpoint dropLast (s : string) : option (string * ascii) :=
  match s with
  | EmptyString => None
  | String c r =>
      match dropLast r with
      | None => Some (EmptyString, c)
      | Some (r', l) => Some (String c r', l)
      end
  end.

(** The text between the brackets of a note [[...]]. *)
Definition bracketed (s : string) : option string :=
  match s with
  | String "[" r =>
      match dropLast r with
      | Some (inner, "]"%char) => Some inner
      | _ => None
      end
  | _ => None
  end.

Definition digits (s : string) : option nat :=
  match s with
  | EmptyString => None
  | _ => match NilEmpty.uint_of_string s with
         | Some d => Some (Nat.of_uint d)
         | None => None
         end
  end.

(** re.ARRAY_NOTE: a bracket holding digits only. *)
Definition ARRAY_NOTE (s : string) : option nat :=
  match bracketed s with
  | Some inner => digits inner
  | None => None
  end.

(** re.ARRAY_GLOB_NOTE: a bracket holding digits or the star. *)
Definition ARRAY_GLOB_NOTE (s : string) : bool :=
  match bracketed s with
  | Some inner =>
      String.eqb inner "*" || match digits inner with Some _ => true | None => false end
  | None => false
  end.

Definition dquote : ascii := ascii_of_nat 34.
Definition squote : ascii := ascii_of_nat 39.

(** The dot of the validators: any character but a line terminator
    (line feed, carriage return, and the line and paragraph separators,
    which the text of a note holds as the bytes E2 80 A8 and E2 80 A9);
    the validators are built without the s flag. *)
Fixpoint oneLine (s : string) : bool :=
  match s with
  | EmptyString => true
  | String c r =>
      negb (Nat.eqb (nat_of_ascii c) 10)
      && negb (Nat.eqb (nat_of_ascii c) 13)
      && negb (match r with
               | String c1 (String c2 _) =>
                   Nat.eqb (nat_of_ascii c) 226
                   && Nat.eqb (nat_of_ascii c1) 128
                   && (Nat.eqb (nat_of_ascii c2) 168
                       || Nat.eqb (nat_of_ascii c2) 169)
               | _ => false
               end)
      && oneLine r
  end.

(** re.OBJECT_BRACKETS: a bracket note holding a quoted key; the quotes
    the validator of notation.js admits are the single and the double
    quote, with any text on one line between them. *)
Definition OBJECT_BRACKETS (s : string) : option string :=
  match bracketed s with
  | Some (String q r) =>
      match dropLast r with
      | Some (key, q') =>
          if Ascii.eqb q q' && (Ascii.eqb q dquote || Ascii.eqb q squote)
             && oneLine key
          then Some key else None
      | None => None
      end
  | _ => None
  end.

(** re.WILDCARD: the whole text is the star or the bracketed star. *)
Definition WILDCARD (s : string) : bool :=
  String.eqb s "*" || String.eqb s "[*]".

(** A normalized note: a property key, a list index, or the undefined
    that the empty quoted key normalizes to. *)
Inductive nnote : Type :=
| NKey (k : string)
| NIdx (i : nat)
| NNone.

(** Modelled from the spec: utils.normalizeNote is not under src/.  Spec
    4.2: each note is normalized, bracketed digits to an integer index,
    quoted or plain to a string key; anything else is not a note.  The
    quoted key is the group of the match that is not empty, so the empty
    quoted key comes out as undefined and not as the empty text: the
    library, asked to set the notation of the one note [['']] on an
    empty map, leaves the map with the key undefined. *)
Definition normalizeNote (note : string) : result nnote :=
  if VAR note then Ok (NKey note)
  else match ARRAY_NOTE note with
       | Some i => Ok (NIdx i)
       | None =>
           match OBJECT_BRACKETS note with
           | Some EmptyString => Ok NNone
           | Some k => Ok (NKey k)
           | None => Err InvalidSyntax
           end
       end.

(** Modelled from the spec: utils.joinNotes is not under src/.  Spec 6:
    a path is a note followed by [.ident] or bracket notes, so a dot goes
    before every later note that does not open with a bracket. *)
Fixpoint joinNotes (notes : list string) : string :=
  match notes with
  | [] => ""
  | n :: rest =>
      match rest with
      | [] => n
      | String "[" _ :: _ => (n ++ joinNotes rest)%string
      | _ => (n ++ "." ++ joinNotes rest)%string
      end
  end.

(** The note printed for a list index: the template [`[${keyOrIndex}]`]. *)
Definition indexNote (i : nat) : string :=
  ("[" ++ NilEmpty.string_of_uint (Nat.to_uint i) ++ "]")%string.

End Utils.

(** ** notation.glob.js *)

Module NotationGlob.

Import Utils.

(** A glob string: the bang and the notes the matcher finds after it. *)
Record globstr : Type := mkGlob { bang : bool; gnotes : list string }.

Definition globstr_eqb (a b : globstr) : bool :=
  Bool.eqb (bang a) (bang b)
  && (if list_eq_dec string_dec (gnotes a) (gnotes b) then true else false).

(** A note the glob validator admits at any position: the star, a JS
    variable name, or a bracket with digits, a star or a quoted key. *)
Definition validGlobNote (n : string) : bool :=
  String.eqb n "*" || VAR n || ARRAY_GLOB_NOTE n
  || match OBJECT_BRACKETS n with Some _ => true | None => false end.

(** isValid: reVALIDATOR.test *)
Definition isValid (g : globstr) : bool :=
  match gnotes g with
  | [] => false
  | ns => forallb validGlobNote ns
  end.

(** The notes left when the trailing wildcard notes are taken off; the
    first note always stays. *)
Fixpoint stripTrail (ns : list string) : list string :=
  match ns with
  | [] => []
  | n :: rest =>
      match stripTrail rest with
      | [] => if WILDCARD n then [] else [n]
      | rest' => n :: rest'
      end
  end.

(** Modelled from the spec: utils.normalizeGlobStr is not under src/.
    Spec 4.3 and 6: a trailing [.*] or [[*]] means everything beneath and
    is taken off; filter in notation.js relies on the negated globs
    keeping theirs (for non-negated, trailing wildcards are already
    removed by normalization). *)
Definition normalizeGlobStr (g : globstr) : globstr :=
  if bang g then g
  else match gnotes g with
       | [] => g
       | n :: rest => mkGlob false (n :: stripTrail rest)
       end.

(** The object _inspect returns. *)
Record inspected : Type := mkIns {
  glob : globstr;
  isNegated : bool;
  absGlob : globstr
}.

Definition _inspect (g0 : globstr) : result inspected :=
  let g := normalizeGlobStr g0 in
  if negb (isValid g) then Err InvalidSyntax
  else Ok (mkIns g (bang g) (if bang g then mkGlob false (gnotes g) else g)).

(** split(glob, normalize): the bang is dropped, the notes are matched. *)
Definition split (g0 : globstr) (normalize : bool) : result (list string) :=
  if negb (isValid g0) then Err InvalidSyntax
  else
    let g := if normalize then normalizeGlobStr g0 else g0 in
    Ok (gnotes g).

(** What covers accepts for a glob: a string, or an object that has
    isNegated and either notes (a NotationGlob instance) or absGlob (an
    inspection result). *)
Inductive globArg : Type :=
| GString (g : globstr)
| GInstance (ins : inspected) (notes : list string)
| GInspected (ins : inspected).

(** new NotationGlob(glob), as far as covers reads it. *)
Definition create (g : globstr) : result globArg :=
  ins <- _inspect g ;;
  notes <- split (absGlob ins) true ;;
  Ok (GInstance ins notes).

Definition _coversNote (a : string) (b : option string) : bool :=
  match b with
  | Some b' =>
      if String.eqb a b' then true
      else
        let bIsArr := ARRAY_GLOB_NOTE b' in
        if String.eqb a "*" && negb bIsArr then true
        else if String.eqb a "[*]" && bIsArr then true
        else false
  | None => String.eqb a "*" || String.eqb a "[*]"
  end.

(** The loop of covers: i runs over notesA, notesB[i] may be undefined. *)
Fixpoint coversLoop (notesA notesB : list string) : bool :=
  match notesA with
  | [] => true
  | a :: restA =>
      if _coversNote a (hd_error notesB) then coversLoop restA (tl notesB)
      else false
  end.

Definition resolve (x : globArg) : result (bool * list string) :=
  match x with
  | GString g =>
      y <- create g ;;
      match y with
      | GInstance ins notes => Ok (isNegated ins, notes)
      | _ => Err InvalidSyntax
      end
  | GInstance ins notes => Ok (isNegated ins, notes)
  | GInspected ins =>
      notes <- split (absGlob ins) false ;;
      Ok (isNegated ins, notes)
  end.

Definition covers (globA globB : globArg) : result bool :=
  a <- resolve globA ;;
  b <- resolve globB ;;
  let '(negA, notesA) := a in
  let '(_, notesB) := b in
  if negA && Nat.ltb (List.length notesB) (List.length notesA) then Ok false
  else Ok (coversLoop notesA notesB).

(** this should only be used with negated globs when union'ing. *)
Definition intersectNote (a b : option string) : option string :=
  match a, b with
  | Some a', Some b' =>
      if String.eqb a' b' then Some a'
      else if WILDCARD a' then Some b'
      else if WILDCARD b' then Some a'
      else None
  | Some a', None => Some a'
  | None, Some b' => Some b'
  | None, None => None
  end.

(* [len] counts the rounds left of the loop up to the longer length;
   None is the break that empties notesI *)
Fixpoint intersectLoop (len : nat) (notesA notesB : list string)
  : option (list string) :=
  match len with
  | 0 => Some []
  | S len' =>
      match intersectNote (hd_error notesA) (hd_error notesB) with
      | Some n =>
          match intersectLoop len' (tl notesA) (tl notesB) with
          | Some r => Some (n :: r)
          | None => None
          end
      | None => None
      end
  end.

Definition _intersect (globA globB : globstr) : result (option globstr) :=
  let bang' := bang globA || bang globB in
  notesA <- split globA false ;;
  notesB <- split globB false ;;
  let len := Nat.max (List.length notesA) (List.length notesB) in
  match intersectLoop len notesA notesB with
  | Some (n :: r) => Ok (Some (mkGlob bang' (n :: r)))
  | _ => Ok None
  end.

(** (absGlob.match(re.WILDCARDS) || []).length, the number compare
    calls the wildcard count.  Modelled from the spec: utils.re.WILDCARDS
    is not under src/.  Spec 4.4 speaks of the wildcards of the glob: the
    wildcard notes (a star inside a quoted key is a plain character).
    The match is not a global one: what compare measures is the match of
    the first wildcard with its one group, two entries for a glob that
    has a wildcard, however many, and none for a glob without; so the
    library answers 1 for compare('!a.*.*', 'a.*.c'), the negation
    deciding between two globs of equal count. *)
Definition wildCount (notes : list string) : nat :=
  if existsb WILDCARD notes then 2 else 0.

(** re.WILDCARD.test on a whole glob string. *)
Definition isWildcardGlob (g : globstr) : bool :=
  negb (bang g)
  && match gnotes g with [n] => WILDCARD n | _ => false end.

(** re.NEGATE_ALL.test: the bang followed by a lone wildcard. *)
Definition isNegateAll (g : globstr) : bool :=
  bang g
  && match gnotes g with [n] => WILDCARD n | _ => false end.

Definition absText (i : inspected) : string := joinNotes (gnotes (absGlob i)).

Definition compare (globA globB : globstr) : result Z :=
  if globstr_eqb globA globB || (isWildcardGlob globA && isWildcardGlob globB)
  then Ok 0%Z
  else
    a <- _inspect globA ;;
    b <- _inspect globB ;;
    notesA <- split (absGlob a) false ;;
    notesB <- split (absGlob b) false ;;
    if Nat.eqb (List.length notesA) (List.length notesB) then
      let wildCountA := wildCount (gnotes (absGlob a)) in
      let wildCountB := wildCount (gnotes (absGlob b)) in
      if Nat.eqb wildCountA wildCountB then
        if negb (isNegated a) && isNegated b then Ok (-1)%Z
        else if isNegated a && negb (isNegated b) then Ok 1%Z
        else Ok (if String.ltb (absText a) (absText b) then (-1)%Z
                 else if String.ltb (absText b) (absText a) then 1%Z
                 else 0%Z)
      else Ok (if Nat.ltb wildCountB wildCountA then (-1)%Z else 1%Z)
    else Ok (if Nat.ltb (List.length notesA) (List.length notesB)
             then (-1)%Z else 1%Z).

(** Array.prototype.sort with a comparator, as a stable insertion sort:
    each item moves left past the items it compares below.  For a
    consistent comparator this is the one stable sorted order; for
    _negFirstSort with several negated globs, which answers -1 both
    ways, the host decides and this is the order of an insertion sort. *)
Section Sort.
Variable A : Type.
Variable cmp : A -> A -> result Z.

(* [rp] is the sorted prefix, last item first *)
Fixpoint insertRev (x : A) (rp : list A) : result (list A) :=
  match rp with
  | [] => Ok [x]
  | y :: rest =>
      c <- cmp x y ;;
      if (c <? 0)%Z then (r <- insertRev x rest ;; Ok (y :: r))
      else Ok (x :: rp)
  end.

Fixpoint sortRev (l : list A) (rp : list A) : result (list A) :=
  match l with
  | [] => Ok rp
  | x :: rest => rp' <- insertRev x rp ;; sortRev rest rp'
  end.

Definition arraySort (l : list A) : result (list A) :=
  rp <- sortRev l [] ;; Ok (rev rp).
End Sort.
Arguments arraySort {A} cmp l.

Definition sort (globsArray : list globstr) : result (list globstr) :=
  arraySort compare globsArray.

Definition _negFirstSort (a b : globstr) : result Z :=
  Ok (if bang a then (-1)%Z else if bang b then 1%Z else 0%Z).

Definition _isReverseOf (a b : inspected) : bool :=
  negb (Bool.eqb (isNegated a) (isNegated b))
  && globstr_eqb (absGlob a) (absGlob b).

Fixpoint mapM {A B : Type} (f : A -> result B) (l : list A) : result (list B) :=
  match l with
  | [] => Ok []
  | x :: rest => y <- f x ;; ys <- mapM f rest ;; Ok (y :: ys)
  end.

(** The flags of one round of the outer loop of normalize. *)
Record nflags : Type := mkFlags {
  duplicate : bool;
  hasExactNeg : bool;
  negCoversPos : bool;
  negCoveredByPos : bool;
  negCoveredByNeg : bool;
  posCoversPos : bool;
  posCoveredByNeg : bool;
  posCoveredByPos : bool
}.

Definition noFlags : nflags :=
  mkFlags false false false false false false false false.

(** intersections[_int] = _int: the keys of an object, first insertion
    first, each once. *)
Definition addKey (keys : list globstr) (k : globstr) : list globstr :=
  if existsb (globstr_eqb k) keys then keys else keys ++ [k].

(** The inner callback of normalize on one other glob b.  The boolean of
    the answer is the break: every break of the callback comes right
    after list.splice(indexA, 1). *)
Definition normalizeStep (a b : inspected) (f : nflags) (ints : list globstr)
  : result (nflags * list globstr * bool) :=
  if globstr_eqb (glob a) (glob b) then
    Ok (mkFlags true (hasExactNeg f) (negCoversPos f) (negCoveredByPos f)
          (negCoveredByNeg f) (posCoversPos f) (posCoveredByNeg f)
          (posCoveredByPos f), ints, true)
  else if negb (isNegated a) && _isReverseOf a b then
    Ok (mkFlags (duplicate f) true (negCoversPos f) (negCoveredByPos f)
          (negCoveredByNeg f) (posCoversPos f) (posCoveredByNeg f)
          (posCoveredByPos f), ints, true)
  else
    coversB <- covers (GInspected a) (GInspected b) ;;
    coveredByB <- (if coversB : bool then Ok false
                   else covers (GInspected b) (GInspected a)) ;;
    let tryIntersect (f' : nflags) :=
      if negb coversB && negb coveredByB then
        i <- _intersect (glob a) (glob b) ;;
        Ok (f', match i with Some g => addKey ints g | None => ints end, false)
      else Ok (f', ints, false) in
    if isNegated a then
      if isNegated b then
        if coveredByB : bool then
          Ok (mkFlags (duplicate f) (hasExactNeg f) (negCoversPos f)
                (negCoveredByPos f) true (posCoversPos f) (posCoveredByNeg f)
                (posCoveredByPos f), ints, true)
        else Ok (f, ints, false)
      else
        tryIntersect
          (mkFlags (duplicate f) (hasExactNeg f)
             (coversB || negCoversPos f) (coveredByB || negCoveredByPos f)
             (negCoveredByNeg f) (posCoversPos f) (posCoveredByNeg f)
             (posCoveredByPos f))
    else
      if isNegated b then
        if coveredByB : bool then
          Ok (mkFlags (duplicate f) (hasExactNeg f) (negCoversPos f)
                (negCoveredByPos f) (negCoveredByNeg f) (posCoversPos f) true
                (posCoveredByPos f), ints, true)
        else tryIntersect f
      else
        let f1 :=
          mkFlags (duplicate f) (hasExactNeg f) (negCoversPos f)
            (negCoveredByPos f) (negCoveredByNeg f)
            (coversB || posCoversPos f) (posCoveredByNeg f)
            (posCoveredByPos f) in
        if coveredByB : bool then
          Ok (mkFlags (duplicate f1) (hasExactNeg f1) (negCoversPos f1)
                (negCoveredByPos f1) (negCoveredByNeg f1) (posCoversPos f1)
                (posCoveredByNeg f1) true, ints, true)
        else Ok (f1, ints, false).

(** The inner eachRight: [bs] holds the other globs of the list in the
    order they are visited, the highest index first. *)
Fixpoint normalizeInner (a : inspected) (bs : list inspected)
  (f : nflags) (ints : list globstr) : result (nflags * list globstr * bool) :=
  match bs with
  | [] => Ok (f, ints, false)
  | b :: rest =>
      r <- normalizeStep a b f ints ;;
      let '(f', ints', brk) := r in
      if brk : bool then Ok (f', ints', true)
      else normalizeInner a rest f' ints'
  end.

Definition keepOf (a : inspected) (f : nflags) : bool :=
  negb (hasExactNeg f)
  && (if isNegated a
      then (negCoversPos f || negCoveredByPos f) && negb (negCoveredByNeg f)
      else (posCoversPos f || negb (posCoveredByPos f))
           && negb (posCoveredByNeg f)).

(** The outer eachRight of normalize.  [revLeft] holds the globs at
    indexA and below, indexA first; [right] the globs above indexA that
    are still in the list.  None is the negate-all exit. *)
Fixpoint normalizeOuter (revLeft right : list inspected)
  (normalized ints : list globstr)
  : result (option (list globstr * list globstr)) :=
  match revLeft with
  | [] => Ok (Some (normalized, ints))
  | a :: below =>
      if isNegateAll (glob a) then Ok None
      else
        r <- normalizeInner a (rev right ++ below) noFlags ints ;;
        let '(f, ints', spliced) := r in
        let normalized' :=
          if keepOf a f && negb (duplicate f)
          then normalized ++ [glob a] else normalized in
        normalizeOuter below (if spliced : bool then right else a :: right)
          normalized' ints'
  end.

Definition normalize (globsArray : list globstr) : result (list globstr) :=
  sorted <- arraySort _negFirstSort globsArray ;;
  list <- mapM _inspect sorted ;;
  match list with
  | [g] => if isNegated g then Ok [] else Ok [glob g]
  | _ =>
      r <- normalizeOuter (rev list) [] [] [] ;;
      match r with
      | None => Ok []
      | Some (normalized, ints) => sort (normalized ++ ints)
      end
  end.

(** The flags of one round of _compareUnion. *)
Record uflags : Type := mkUFlags {
  notCovered : bool;
  hasExact : bool;
  uNegCoversNeg : bool;
  uPosCoversNeg : bool;
  uPosCoversPos : bool;
  uNegCoversPos : bool;
  negIntersections : list globstr
}.

Definition unionStep (globA : globstr) (a : inspected) (globB : globstr)
  (f : uflags) : result uflags :=
  let hasExact' := globstr_eqb globA globB || hasExact f in
  b <- _inspect globB ;;
  c <- covers (GInspected b) (GInspected a) ;;
  if negb c then
    if isNegated a && isNegated b then
      i <- _intersect (glob a) (glob b) ;;
      Ok (mkUFlags true hasExact' (uNegCoversNeg f) (uPosCoversNeg f)
            (uPosCoversPos f) (uNegCoversPos f)
            (match i with
             | Some g => negIntersections f ++ [g]
             | None => negIntersections f
             end))
    else
      Ok (mkUFlags true hasExact' (uNegCoversNeg f) (uPosCoversNeg f)
            (uPosCoversPos f) (uNegCoversPos f) (negIntersections f))
  else if isNegated a then
    if isNegated b then
      Ok (mkUFlags false hasExact' (negb hasExact') (uPosCoversNeg f)
            (uPosCoversPos f) (uNegCoversPos f) (negIntersections f))
    else
      Ok (mkUFlags false hasExact' (uNegCoversNeg f) true
            (uPosCoversPos f) (uNegCoversPos f) (negIntersections f))
  else
    if negb (isNegated b) then
      Ok (mkUFlags false hasExact' (uNegCoversNeg f) (uPosCoversNeg f)
            (negb hasExact') (uNegCoversPos f) (negIntersections f))
    else
      Ok (mkUFlags false hasExact' (uNegCoversNeg f) (uPosCoversNeg f)
            (uPosCoversPos f) true (negIntersections f)).

Fixpoint unionInner (globA : globstr) (a : inspected) (revB : list globstr)
  (f : uflags) : result uflags :=
  match revB with
  | [] => Ok f
  | globB :: rest => f' <- unionStep globA a globB f ;; unionInner globA a rest f'
  end.

(* [revA]: globsListA from its last item to its first *)
Fixpoint unionOuter (revA : list globstr) (globsListB : list globstr)
  (union : list globstr) : result (list globstr) :=
  match revA with
  | [] => Ok union
  | globA :: rest =>
      if existsb (globstr_eqb globA) union then unionOuter rest globsListB union
      else
        a <- _inspect globA ;;
        if isWildcardGlob (absGlob a) then
          unionOuter rest globsListB (union ++ [glob a])
        else
          f <- unionInner globA a (rev globsListB)
                 (mkUFlags false false false false false false []) ;;
          let keep :=
            if isNegated a
            then negb (uPosCoversNeg f) || uNegCoversNeg f
            else negb (uPosCoversPos f) || uNegCoversPos f in
          if hasExact f || keep || (notCovered f && negb (isNegated a)) then
            unionOuter rest globsListB (union ++ [glob a])
          else if isNegated a && uPosCoversNeg f && negb (uNegCoversNeg f)
                  && negb (Nat.eqb (List.length (negIntersections f)) 0) then
            unionOuter rest globsListB (union ++ negIntersections f)
          else unionOuter rest globsListB union
  end.

Definition _compareUnion (globsListA globsListB union : list globstr)
  : result (list globstr) :=
  unionOuter (rev globsListA) globsListB union.

Definition union (globsA globsB : list globstr) : result (list globstr) :=
  match globsA, globsB with
  | [], _ => Ok globsB
  | _, [] => Ok globsA
  | _, _ =>
      listA <- normalize globsA ;;
      listB <- normalize globsB ;;
      u <- _compareUnion listA listB [] ;;
      u' <- _compareUnion listB listA u ;;
      normalize u'
  end.

(** *** What a glob list selects

    filter goes through the normalized globs in priority order; a glob
    that covers the notation includes it when positive and excludes it
    when negated, so the last covering glob decides. *)
Fixpoint selectsLoop (globs : list globstr) (p : globstr) (sel : bool)
  : result bool :=
  match globs with
  | [] => Ok sel
  | g :: rest =>
      c <- covers (GString g) (GString p) ;;
      selectsLoop rest p (if c : bool then negb (bang g) else sel)
  end.

Definition selects (globs : list globstr) (p : globstr) : result bool :=
  l <- normalize globs ;;
  selectsLoop l p false.

(** *** The order key of the specification

    Note count ascending, wildcard count descending, negation false
    before true, then the text.  [keyOf] takes for the wildcard count
    what compare takes, the length of the match; [countedKeyOf] counts
    the wildcard notes one by one, as the specification words it. *)
Record orderKey : Type := mkKey {
  noteCount : nat;
  wildcards : nat;
  negated : bool;
  text : string
}.

Definition keyOf (i : inspected) : orderKey :=
  mkKey (List.length (gnotes (absGlob i))) (wildCount (gnotes (absGlob i)))
    (isNegated i) (absText i).

Definition countedKeyOf (i : inspected) : orderKey :=
  mkKey (List.length (gnotes (absGlob i)))
    (List.length (filter WILDCARD (gnotes (absGlob i))))
    (isNegated i) (absText i).

Definition ofComparison (c : comparison) : Z :=
  match c with Lt => (-1)%Z | Eq => 0%Z | Gt => 1%Z end.

Definition thenBy (first rest : Z) : Z :=
  if Z.eqb first 0 then rest else first.

Definition keyCompare (a b : orderKey) : Z :=
  thenBy (ofComparison (Nat.compare (noteCount a) (noteCount b)))
   (thenBy (ofComparison (Nat.compare (wildcards b) (wildcards a)))
     (thenBy (ofComparison (Bool.compare (negated a) (negated b)))
        (ofComparison (String.compare (text a) (text b))))).

(** The strict order of the keys: a key comes before another. *)
Definition keyBelow (a b : orderKey) : Prop :=
  noteCount a < noteCount b
  \/ (noteCount a = noteCount b
      /\ (wildcards b < wildcards a
          \/ (wildcards a = wildcards b
              /\ ((negated a = false /\ negated b = true)
                  \/ (negated a = negated b
                      /\ String.compare (text a) (text b) = Lt))))).

(** *** Globs as the library makes them

    What covers is handed by the code of the library: a glob string, an
    instance made by the constructor, or the inspection of a glob. *)
Definition made (x : globArg) : Prop :=
  match x with
  | GString _ => True
  | GInstance ins notes => exists g, create g = Ok (GInstance ins notes)
  | GInspected ins => exists g, _inspect g = Ok ins
  end.

End NotationGlob.

(** ** Maps and lists as the host keeps them

    A map is the list of its keys and values in insertion order; a list
    is the list of its slots, [None] for a hole. *)

Section Containers.
Variable V : Type.

Fixpoint lookup (k : string) (props : list (string * V)) : option V :=
  match props with
  | [] => None
  | (k', v) :: rest => if String.eqb k k' then Some v else lookup k rest
  end.

Fixpoint putProp (k : string) (v : V) (props : list (string * V))
  : list (string * V) :=
  match props with
  | [] => [(k, v)]
  | (k', v') :: rest =>
      if String.eqb k k' then (k, v) :: rest else (k', v') :: putProp k v rest
  end.

(** map[key] = v in the host.  A map keeps the place of a key it has
    and appends a new one; but the key __proto__, on a map that has no
    own member of that name, reaches the setter of the prototype: the
    write makes no member, and the members of the map stay as they
    are. *)
Definition writeKey (k : string) (v : V) (props : list (string * V))
  : list (string * V) :=
  if String.eqb k "__proto__"
     && match lookup k props with Some _ => false | None => true end
  then props
  else putProp k v props.

Fixpoint putItem (i : nat) (v : V) (items : list (option V))
  : list (option V) :=
  match i, items with
  | 0, [] => [Some v]
  | 0, _ :: rest => Some v :: rest
  | S i', [] => None :: putItem i' v []
  | S i', x :: rest => x :: putItem i' v rest
  end.

Fixpoint insertAt (i : nat) (v : V) (items : list (option V))
  : list (option V) :=
  match i, items with
  | 0, _ => Some v :: items
  | S i', [] => [Some v]
  | S i', x :: rest => x :: insertAt i' v rest
  end.

Fixpoint removeAt (i : nat) (items : list (option V)) : list (option V) :=
  match i, items with
  | _, [] => []
  | 0, _ :: rest => rest
  | S i', x :: rest => x :: removeAt i' rest
  end.

Fixpoint holeAt (i : nat) (items : list (option V)) : list (option V) :=
  match i, items with
  | _, [] => []
  | 0, _ :: rest => None :: rest
  | S i', x :: rest => x :: holeAt i' rest
  end.

Fixpoint dropProp (k : string) (props : list (string * V))
  : list (string * V) :=
  match props with
  | [] => []
  | (k', v) :: rest =>
      if String.eqb k k' then dropProp k rest else (k', v) :: dropProp k rest
  end.

End Containers.
Arguments lookup {V}.
Arguments putProp {V}.
Arguments writeKey {V}.
Arguments putItem {V}.
Arguments insertAt {V}.
Arguments removeAt {V}.
Arguments holeAt {V}.
Arguments dropProp {V}.

(** ** notation.js *)

Module Notation.

Import Utils.

(** A leaf is an opaque scalar; [Undefined] is the undefined of the
    host, which a property can hold. *)
Inductive scalar : Type :=
| Undefined
| Null
| Bool (b : bool)
| Num (z : Z)
| NaN              (* the number that is not equal to itself *)
| Str (s : string).

(** A tree: a leaf, a map with its keys in insertion order, or a list.
    A list slot is [None] when it is a hole: an index below the length
    that holds no value (left by delete, or by writing past the end)
    and reads as undefined. *)
Inductive tree : Type :=
| Leaf (v : scalar)
| Obj (props : list (string * tree))
| Arr (items : list (option tree)).

Definition undefined : tree := Leaf Undefined.

(** utils.type, as far as the code compares its answer. *)
Inductive jsType : Type :=
| TArray | TObject | TUndefined | TNull | TBoolean | TNumber | TString.

Definition typeOf (t : tree) : jsType :=
  match t with
  | Arr _ => TArray
  | Obj _ => TObject
  | Leaf Undefined => TUndefined
  | Leaf Null => TNull
  | Leaf (Bool _) => TBoolean
  | Leaf (Num _) => TNumber
  | Leaf NaN => TNumber
  | Leaf (Str _) => TString
  end.

Definition isArray (t : tree) : bool :=
  match t with Arr _ => true | _ => false end.

Definition isCollection (t : tree) : bool :=
  match t with Arr _ | Obj _ => true | Leaf _ => false end.

(** The property key of a normalized note on a map: the host turns a
    number used as a key into its decimal text, and undefined into the
    text undefined. *)
Definition propKey (n : nnote) : string :=
  match n with
  | NKey k => k
  | NIdx i => NilEmpty.string_of_uint (Nat.to_uint i)
  | NNone => "undefined"
  end.

(** Modelled from the spec: utils.hasOwn is not under src/.  Spec 3,
    4.2 and 9: a note resolves when it is an own member of the level,
    and notes go by kind: a key is a member of a map that has it, an
    index is a member of a list.  A leaf has no members, and neither
    has any level for the undefined note.  An index is a member of a
    list when it is below the length, a hole included: after a removal
    with preserveIndices the library still reports has:true for the
    index; an index is no member of a map, whatever its keys: the
    library does not read back an index it has set on a map. *)
Definition hasOwn (level : tree) (n : nnote) : bool :=
  match level, n with
  | Obj props, NKey k =>
      match lookup k props with Some _ => true | None => false end
  | Arr items, NIdx i => Nat.ltb i (List.length items)
  | _, _ => false
  end.

(** level[n], read. *)
Definition getProp (level : tree) (n : nnote) : tree :=
  match level, n with
  | Obj props, _ =>
      match lookup (propKey n) props with Some v => v | None => undefined end
  | Arr items, NIdx i =>
      match nth_error items i with Some (Some v) => v | _ => undefined end
  | _, _ => undefined
  end.

(** level[n] = v.  The source files are modules, so the host runs them
    in strict mode and a write on a primitive throws; a list grows with
    holes up to the index. *)
Definition assign (level : tree) (n : nnote) (v : tree) : result tree :=
  match level, n with
  | Obj props, _ => Ok (Obj (writeKey (propKey n) v props))
  | Arr items, NIdx i => Ok (Arr (putItem i v items))
  | Arr _, _ => Err TypeError
  | Leaf _, _ => Err TypeError
  end.

(** delete parent[n] *)
Definition deleteProp (parent : tree) (n : nnote) : tree :=
  match parent, n with
  | Obj props, _ => Obj (dropProp (propKey n) props)
  | Arr items, NIdx i => Arr (holeAt i items)
  | _, _ => parent
  end.

(** parent.splice(n, 1) *)
Definition spliceOut (parent : tree) (n : nnote) : tree :=
  match parent, n with
  | Arr items, NIdx i => Arr (removeAt i items)
  | _, _ => parent
  end.

(** A note the validator of notations admits: a JS variable name or a
    bracket with digits or a quoted key. *)
Definition validNote (n : string) : bool :=
  VAR n
  || match ARRAY_NOTE n with Some _ => true | None => false end
  || match OBJECT_BRACKETS n with Some _ => true | None => false end.

Definition notation : Type := list string.

Definition isValid (notes : notation) : bool :=
  match notes with
  | [] => false
  | _ => forallb validNote notes
  end.

Definition split (notes : notation) : result (list string) :=
  if isValid notes then Ok notes else Err InvalidSyntax.

(** Notation.parent: the notation without its last note, null for a
    single note. *)
Definition parent (notes : notation) : result (option notation) :=
  ns <- split notes ;;
  match removelast ns with
  | [] => Ok None
  | p => Ok (Some p)
  end.

Record options : Type := mkOptions { strict : bool; preserveIndices : bool }.

Definition DEFAULT_OPTS : options := mkOptions false false.

Record InspectResult : Type := mkResult {
  has : bool;
  value : tree;
  type : jsType;
  level : nat;
  lastNote : option string;
  lastNoteNormalized : option nnote;
  parentIsArray : bool
}.

(** The walk of inspectGet over the notes from index [index] on.
    [par] is the variable parent (None while it is unset), [res] the
    result so far without parentIsArray. *)
Fixpoint inspectGetLoop (notes : list string) (index : nat) (lvl : tree)
  (par : option tree) (res : InspectResult)
  : result (InspectResult * option tree) :=
  match notes with
  | [] => Ok (res, par)
  | note :: rest =>
      n <- normalizeNote note ;;
      if hasOwn lvl n then
        let lvl' := getProp lvl n in
        inspectGetLoop rest (S index) lvl' (Some lvl')
          (mkResult true lvl' (typeOf lvl') (S index) (Some note) (Some n)
             false)
      else
        Ok (mkResult false undefined TUndefined (S index) (Some note) (Some n)
              false, par)
  end.

(** parent === result.value at the end of inspectGet.  The two were
    last written together, with the level the walk had reached, so they
    hold the one value; and a value is strictly equal to itself unless
    it is NaN. *)
Definition equalsItself (v : tree) : bool :=
  match v with Leaf NaN => false | _ => true end.

Definition inspectGet (source : tree) (notes : notation) : result InspectResult :=
  ns <- split notes ;;
  r <- inspectGetLoop ns 0 source None
         (mkResult false undefined TUndefined 0 None None false) ;;
  let '(res, par) := r in
  let par' :=
    match par with
    | None => source
    | Some (Leaf Undefined) => source
    | Some p => if has res && equalsItself p then source else p
    end in
  Ok (mkResult (has res) (value res) (type res) (level res) (lastNote res)
        (lastNoteNormalized res) (isArray par')).

Definition hasNotation (source : tree) (notes : notation) : result bool :=
  r <- inspectGet source notes ;; Ok (has r).

Definition isUndefined (t : tree) : bool :=
  match t with Leaf Undefined => true | _ => false end.

Definition hasDefined (source : tree) (notes : notation) : result bool :=
  r <- inspectGet source notes ;; Ok (negb (isUndefined (value r))).

(** get(notation, defaultValue); [defaultValue] is None when the call
    passes one argument. *)
Definition get (opts : options) (source : tree) (notes : notation)
  (defaultValue : option tree) : result tree :=
  r <- inspectGet source notes ;;
  if strict opts
     && (match defaultValue with None => true | Some _ => false end)
     && negb (has r)
  then Err (if parentIsArray r then MissingIndex else MissingProperty)
  else Ok (if has r then value r
           else match defaultValue with Some d => d | None => undefined end).

Inductive setMode : Type :=
| Overwrite      (* 'overwrite', or true *)
| Insert         (* 'insert' *)
| NoOverwrite.   (* false *)

Definition isNumber (n : nnote) : bool :=
  match n with NIdx _ => true | _ => false end.

(** The walk of set.  The code re-references [level] and writes into
    the container it has reached; on the tree the container written
    below is put back in its place. *)
Fixpoint setLoop (notes : list string) (lvl : tree) (v : tree) (mode : setMode)
  : result tree :=
  match notes with
  | [] => Ok lvl
  | note :: rest =>
      nCurrentNote <- normalizeNote note ;;
      nNextNote <- match rest with
                   | [] => Ok None
                   | next :: _ => n <- normalizeNote next ;; Ok (Some n)
                   end ;;
      let currentIsLast := match rest with [] => true | _ => false end in
      if isArray lvl && negb (isNumber nCurrentNote) then Err TypeMismatch
      else if hasOwn lvl nCurrentNote then
        if currentIsLast then
          match mode with
          | Overwrite => assign lvl nCurrentNote v
          | Insert =>
              match lvl, nCurrentNote with
              | Arr items, NIdx i => Ok (Arr (insertAt i v items))
              | _, _ => Err InsertOnNonList
              end
          | NoOverwrite => Ok lvl
          end
        else
          child <- setLoop rest (getProp lvl nCurrentNote) v mode ;;
          assign lvl nCurrentNote child
      else
        if currentIsLast && negb (isArray lvl)
           && match mode with Insert => true | _ => false end
        then Err InsertOnNonList
        else
          let nextIsArrayNote :=
            match nNextNote with Some n => isNumber n | None => false end in
          let fresh :=
            if currentIsLast then v
            else if nextIsArrayNote then Arr [] else Obj [] in
          lvl' <- assign lvl nCurrentNote fresh ;;
          if currentIsLast then Ok lvl'
          else
            child <- setLoop rest fresh v mode ;;
            assign lvl' nCurrentNote child
  end.

Definition set (source : tree) (notes : notation) (v : tree) (mode : setMode)
  : result tree :=
  ns <- split notes ;;
  setLoop ns source v mode.

(** The container that [get(parentNotation, null)] hands out is written
    in place; on the tree, the subtree at that notation is replaced. *)
Fixpoint modifyAt (notes : list string) (f : tree -> tree) (lvl : tree)
  : result tree :=
  match notes with
  | [] => Ok (f lvl)
  | note :: rest =>
      n <- normalizeNote note ;;
      if hasOwn lvl n then
        child <- modifyAt rest f (getProp lvl n) ;;
        assign lvl n child
      else Ok lvl
  end.

Definition inspectRemove (opts : options) (source : tree) (notes : notation)
  : result (InspectResult * tree) :=
  parentNotation <- parent notes ;;
  par <- match parentNotation with
         | Some pn => get opts source pn (Some (Leaf Null))
         | None => Ok source
         end ;;
  let parentIsArray := isArray par in
  ns <- split notes ;;
  let lastNote := List.last ns "" in
  lastNoteNormalized <- normalizeNote lastNote ;;
  if hasOwn par lastNoteNormalized then
    let v := getProp par lastNoteNormalized in
    let res := mkResult true v (typeOf v) (List.length ns) (Some lastNote)
                 (Some lastNoteNormalized) parentIsArray in
    let cut := fun p : tree =>
      if negb (preserveIndices opts) && parentIsArray
      then spliceOut p lastNoteNormalized
      else deleteProp p lastNoteNormalized in
    source' <- match parentNotation with
               | Some pn => modifyAt pn cut source
               | None => Ok (cut source)
               end ;;
    Ok (res, source')
  else
    Ok (mkResult false undefined TUndefined (List.length ns) (Some lastNote)
          (Some lastNoteNormalized) parentIsArray, source).

Definition remove (opts : options) (source : tree) (notes : notation)
  : result tree :=
  r <- inspectRemove opts source notes ;;
  let '(res, source') := r in
  if strict opts && negb (has res)
  then Err (if parentIsArray res then MissingIndex else MissingProperty)
  else Ok source'.

(** _each with byLevel unset: the leaves the callback is called on, in
    the order of the calls, each with its notation, its note and its
    value.  Modelled from the spec: utils.eachItem is not under src/.
    Spec 5: a map is gone through in insertion order, a list in index
    order, from the highest index down when reverseIfArray is set; a
    hole is read as undefined.  No callback of this file stops the walk
    of a tree it only reads. *)
Fixpoint _each (reverseIfArray : bool) (parentNotation : notation)
  (collection : tree) : list (notation * string * tree) :=
  match collection with
  | Leaf _ => []
  | Obj props =>
      (fix eachProp (ps : list (string * tree)) :=
         match ps with
         | [] => []
         | (k, v) :: rest =>
             (match v with
              | Leaf _ => [(parentNotation ++ [k], k, v)]
              | _ => _each reverseIfArray (parentNotation ++ [k]) v
              end) ++ eachProp rest
         end) props
  | Arr items =>
      let groups :=
        (fix eachIndex (i : nat) (its : list (option tree)) :=
           match its with
           | [] => []
           | it :: rest =>
               (match it with
                | Some (Leaf x) =>
                    [(parentNotation ++ [indexNote i], indexNote i, Leaf x)]
                | Some v => _each reverseIfArray (parentNotation ++ [indexNote i]) v
                | None =>
                    [(parentNotation ++ [indexNote i], indexNote i, undefined)]
                end) :: eachIndex (S i) rest
           end) 0 items in
      List.concat (if reverseIfArray then rev groups else groups)
  end.

(** The single-level object of flatten and merge: its keys are notation
    strings, held as notations, in insertion order. *)
Definition flat : Type := list (notation * tree).

Definition notation_eqb (a b : notation) : bool :=
  if list_eq_dec string_dec a b then true else false.

Fixpoint putNotation (k : notation) (v : tree) (o : flat) : flat :=
  match o with
  | [] => [(k, v)]
  | (k', v') :: rest =>
      if notation_eqb k k' then (k, v) :: rest
      else (k', v') :: putNotation k v rest
  end.

(** o[notation] = value, on the object flatten fills: it starts empty
    and has no own member __proto__, so the write of the notation
    __proto__ reaches the setter of the prototype and makes no key. *)
Definition putFlat (k : notation) (v : tree) (o : flat) : flat :=
  if String.eqb (joinNotes k) "__proto__" then o else putNotation k v o.

Definition flatten (source : tree) : flat :=
  fold_left (fun o e => let '(n, _, v) := e in putFlat n v o)
    (_each false [] source) [].

Definition includes (sub s : string) : bool :=
  match String.index 0 sub s with Some _ => true | None => false end.

(** The keys merge passes over. *)
Definition reserved (n : notation) : bool :=
  let s := joinNotes n in
  includes "__proto__" s || includes "prototype" s || includes "constructor" s.

Fixpoint merge (source : tree) (notationsObject : flat) (overwrite : bool)
  : result tree :=
  match notationsObject with
  | [] => Ok source
  | (n, v) :: rest =>
      if reserved n then merge source rest overwrite
      else
        source' <- set source n v (if overwrite then Overwrite else NoOverwrite) ;;
        merge source' rest overwrite
  end.

Definition expand (notationsObject : flat) : result tree :=
  merge (Obj []) notationsObject true.

(** *** Presence as the specification words it

    Spec 3 and 4.2: a path resolves note by note; a note is present at
    a level when it names an own member of it, a key of a map or an
    index of a list, and the value found there is the level of the next
    note.  The member is read off the tree here, not through the
    helpers of the code.  An index below the length of a list is
    present, and a hole there holds undefined (spec 3: has is true even
    if the value is undefined). *)
Definition member (lvl : tree) (n : nnote) : option tree :=
  match lvl, n with
  | Obj props, NKey k => lookup k props
  | Arr items, NIdx i =>
      match nth_error items i with
      | Some (Some v) => Some v
      | Some None => Some undefined
      | None => None
      end
  | _, _ => None
  end.

(** Where a notation ends on a tree: at the value it resolves to, or at
    the level that lacks the next note, the resolved parent. *)
Inductive resolution : Type :=
| Present (v : tree)
| Absent (parent : tree).

Fixpoint resolve (notes : list string) (lvl : tree) : resolution :=
  match notes with
  | [] => Present lvl
  | note :: rest =>
      match normalizeNote note with
      | Ok n =>
          match member lvl n with
          | Some v => resolve rest v
          | None => Absent lvl
          end
      | Err _ => Absent lvl
      end
  end.

Definition isObject (t : tree) : bool :=
  match t with Obj _ => true | _ => false end.

(** *** Notations that set can be read back on

    A note that names a key other than __proto__, or an index of the
    host (below 2^32 - 1: a larger number is no index of a list, and a
    write under it does not grow the list); and a notation whose index
    notes meet lists as far as it leads into the tree (where it leaves
    the tree, set makes the container each note asks for). *)
Definition plainNote (note : string) : bool :=
  match normalizeNote note with
  | Ok (NKey k) => negb (String.eqb k "__proto__")
  | Ok (NIdx i) => Z.ltb (Z.of_nat i) 4294967295
  | _ => false
  end.

Fixpoint indexed (notes : list string) (lvl : tree) : bool :=
  match notes with
  | [] => true
  | note :: rest =>
      match normalizeNote note with
      | Ok n =>
          (negb (isNumber n) || isArray lvl)
          && match member lvl n with
             | Some c => indexed rest c
             | None => true
             end
      | Err _ => true
      end
  end.

(** The value a notation leads to when every note is a member of the
    level before it. *)
(** A write the level takes as a member of the kind of the note: a key
    other than __proto__ on a map, or any key the map has already; an
    index on a list. *)
Definition takes (lvl : tree) (n : nnote) : bool :=
  match lvl, n with
  | Obj props, NKey k =>
      negb (String.eqb k "__proto__")
      || match lookup k props with Some _ => true | None => false end
  | Arr _, NIdx _ => true
  | _, _ => false
  end.

(** A note that is a JS variable name other than undefined, or an
    index note: on a map it names one key, which no index and no empty
    quoted key is written to. *)
Definition nameNote (note : string) : bool :=
  (VAR note && negb (String.eqb note "undefined"))
  || match ARRAY_NOTE note with Some _ => true | None => false end.

Fixpoint walk (notes : list string) (lvl : tree) : option tree :=
  match notes with
  | [] => Some lvl
  | note :: rest =>
      match normalizeNote note with
      | Ok n => if hasOwn lvl n then walk rest (getProp lvl n) else None
      | Err _ => None
      end
  end.

(** *** The steps of _each, named

    The walk of _each written with its two inner loops as functions of
    their own; [_each_Obj] and [_each_Arr] below state that they are the
    loops of the definition. *)
Definition visit (r : bool) (p : notation) (note : string) (v : tree)
  : list (notation * string * tree) :=
  match v with
  | Leaf _ => [(p ++ [note], note, v)]
  | _ => _each r (p ++ [note]) v
  end.

Fixpoint eachProps (r : bool) (p : notation) (ps : list (string * tree))
  : list (notation * string * tree) :=
  match ps with
  | [] => []
  | (k, v) :: rest => visit r p k v ++ eachProps r p rest
  end.

Definition visitItem (r : bool) (p : notation) (i : nat) (it : option tree)
  : list (notation * string * tree) :=
  match it with
  | Some v => visit r p (indexNote i) v
  | None => [(p ++ [indexNote i], indexNote i, undefined)]
  end.

Fixpoint eachItems (r : bool) (p : notation) (i : nat)
  (its : list (option tree)) : list (list (notation * string * tree)) :=
  match its with
  | [] => []
  | it :: rest => visitItem r p i it :: eachItems r p (S i) rest
  end.

(** *** Trees that flatten and expand give back

    A nested value is plain when it is a leaf, or a map or list that is
    not empty, whose keys are distinct JS variable names, whose slots
    are all filled, and whose members are plain.  The name __proto__ is
    no key of a plain value: it is one of the words merge passes over. *)
Fixpoint distinct (ks : list string) : bool :=
  match ks with
  | [] => true
  | k :: rest => negb (existsb (String.eqb k) rest) && distinct rest
  end.

Definition keyName (k : string) : bool :=
  VAR k && negb (String.eqb k "__proto__").

Fixpoint plain (t : tree) : bool :=
  match t with
  | Leaf _ => true
  | Obj props =>
      match props with [] => false | _ => true end
      && distinct (map fst props)
      && forallb (fun kv => keyName (fst kv) && plain (snd kv)) props
  | Arr items =>
      match items with [] => false | _ => true end
      && forallb (fun it => match it with Some v => plain v | None => false end)
           items
  end.

(** The sources the round trip holds for: a map with distinct variable
    names for keys and plain members, no notation of which holds a word
    merge passes over. *)
Definition roundTrips (t : tree) : bool :=
  match t with
  | Obj props =>
      distinct (map fst props)
      && forallb (fun kv => keyName (fst kv) && plain (snd kv)) props
      && forallb (fun e => negb (reserved (fst (fst e)))) (_each false [] t)
  | _ => false
  end.

(** An entry of a flat object, and the same entry one note deeper. *)
Definition entry (e : notation * string * tree) : notation * tree :=
  (fst (fst e), snd e).

Definition under (k : string) (e : notation * tree) : notation * tree :=
  (k :: fst e, snd e).

(** The empty collection set creates for a member of the kind of [t]. *)
Definition emptyLike (t : tree) : tree :=
  match t with Arr _ => Arr [] | _ => Obj [] end.

(** The entries of a tree with their notations taken from the tree
    itself, and an entry of _each moved below a prefix. *)
Definition rel (t : tree) : list (notation * tree) :=
  map entry (_each false [] t).

Definition below (p : notation) (e : notation * string * tree)
  : notation * string * tree :=
  (p ++ fst (fst e), snd (fst e), snd e).

(** Entries whose notations are valid and pairwise distinct, and entries
    the first of which opens with an index note or with a key. *)
Definition wellNoted (E : list (notation * tree)) : Prop :=
  Forall (fun e => isValid (fst e) = true) E /\ NoDup (map fst E).

Definition startsWith (number : bool) (E : list (notation * tree)) : Prop :=
  exists h q v E' n',
    E = (h :: q, v) :: E' /\ normalizeNote h = Ok n' /\ isNumber n' = number.

(** merge without the check of the notation and of the reserved words:
    the writes alone. *)
Fixpoint fill (entries : list (notation * tree)) (lvl : tree) : result tree :=
  match entries with
  | [] => Ok lvl
  | (p, v) :: rest => lvl' <- setLoop p lvl v Overwrite ;; fill rest lvl'
  end.

(** What the round trip asks of a nested collection: written into the
    empty collection of its kind, its entries give it back. *)
Definition refills (c : tree) : Prop :=
  plain c = true -> isCollection c = true ->
  fill (rel c) (emptyLike c) = Ok c
  /\ wellNoted (rel c) /\ startsWith (isArray c) (rel c).

(** *** Copying and moving between collections *)

(** What a method that checks its destination first ends in: the throw
    of ERR.DEST, or the outcome of what it goes on to do. *)
Inductive checked (A : Type) : Type :=
| InvalidDestination : checked A
| Went : result A -> checked A.

Arguments InvalidDestination {A}.
Arguments Went {A} _.

(** Modelled from the spec: utils.getNewNotation is not under src/.  The
    documentation of copyTo says of newNotation: If not set, notation
    argument will be used. *)
Definition getNewNotation (newNotation : option notation) (notes : notation)
  : notation :=
  match newNotation with Some n => n | None => notes end.

(** copyTo leaves the source as it is; the result is the destination. *)
Definition copyTo (source destination : tree) (notes : notation)
  (newNotation : option notation) (overwrite : bool) : checked tree :=
  if negb (isCollection destination) then InvalidDestination
  else Went (
    result <- inspectGet source notes ;;
    if has result then
      let newN := getNewNotation newNotation notes in
      set destination newN (value result)
        (if overwrite then Overwrite else NoOverwrite)
    else Ok destination).

(** copyFrom leaves the target as it is; the result is the source. *)
Definition copyFrom (source target : tree) (notes : notation)
  (newNotation : option notation) (overwrite : bool) : checked tree :=
  if negb (isCollection target) then InvalidDestination
  else Went (
    result <- inspectGet target notes ;;
    if has result then
      let newN := getNewNotation newNotation notes in
      set source newN (value result)
        (if overwrite then Overwrite else NoOverwrite)
    else Ok source).

(** moveTo, for a destination that is another object than the source:
    the result is the source and the destination as the call leaves
    them. *)
Definition moveTo (opts : options) (source destination : tree)
  (notes : notation) (newNotation : option notation) (overwrite : bool)
  : checked (tree * tree) :=
  if negb (isCollection destination) then InvalidDestination
  else Went (
    r <- inspectRemove opts source notes ;;
    let '(result, source') := r in
    if has result then
      let newN := getNewNotation newNotation notes in
      destination' <- set destination newN (value result)
                        (if overwrite then Overwrite else NoOverwrite) ;;
      Ok (source', destination')
    else Ok (source', destination)).

(** moveFrom: the result is the source and the target as the call
    leaves them. *)
Definition moveFrom (opts : options) (source target : tree)
  (notes : notation) (newNotation : option notation) (overwrite : bool)
  : checked (tree * tree) :=
  if negb (isCollection target) then InvalidDestination
  else Went (
    r <- inspectRemove opts target notes ;;
    let '(result, target') := r in
    if has result then
      let newN := getNewNotation newNotation notes in
      source' <- set source newN (value result)
                   (if overwrite then Overwrite else NoOverwrite) ;;
      Ok (source', target')
    else Ok (source, target')).

(** rename is moveTo with the source itself for destination: the
    removal and the write act on the one object, the write on what the
    removal left. *)
Definition rename (opts : options) (source : tree) (notes : notation)
  (newNotation : option notation) (overwrite : bool) : checked tree :=
  if negb (isCollection source) then InvalidDestination
  else Went (
    r <- inspectRemove opts source notes ;;
    let '(result, source') := r in
    if has result then
      let newN := getNewNotation newNotation notes in
      set source' newN (value result)
        (if overwrite then Overwrite else NoOverwrite)
    else Ok source').

Definition extract (source : tree) (notes : notation)
  (newNotation : option notation) : checked tree :=
  let o := Obj [] in
  copyTo source o notes newNotation true.

(** extrude: the result is the source as the call leaves it, and the
    new object. *)
Definition extrude (opts : options) (source : tree) (notes : notation)
  (newNotation : option notation) : checked (tree * tree) :=
  let o := Obj [] in
  moveTo opts source o notes newNotation true.

(** separate: each notation is removed from the source object and set,
    with the value the removal reports, on a new object, which the
    instance then takes for its source.  The result is the source
    object as the removals leave it, and the new object. *)
Fixpoint separateLoop (opts : options) (source o : tree)
  (notations : list notation) : result (tree * tree) :=
  match notations with
  | [] => Ok (source, o)
  | n :: rest =>
      r <- inspectRemove opts source n ;;
      let '(result, source') := r in
      o' <- set o n (value result) Overwrite ;;
      separateLoop opts source' o' rest
  end.

Definition separate (opts : options) (source : tree)
  (notations : list notation) : result (tree * tree) :=
  separateLoop opts source (Obj []) notations.

(** getNotations: the notations each calls back on, in the order of the
    calls. *)
Definition getNotations (source : tree) : list notation :=
  map (fun e => fst (fst e)) (_each false [] source).

(** A tree whose maps have, at every depth, distinct JS variable names
    for keys: the trees on which the notation each builds for a value
    is a notation of that value. *)
Fixpoint keyed (t : tree) : bool :=
  match t with
  | Leaf _ => true
  | Obj props =>
      distinct (map fst props)
      && forallb (fun kv => VAR (fst kv) && keyed (snd kv)) props
  | Arr items =>
      forallb (fun it => match it with Some v => keyed v | None => true end)
        items
  end.

End Notation.

(** ** notation.js over a store

    filter reads one tree and writes another, and what it writes may be
    a container of the tree it reads: set stores the value it is given,
    not a copy.  To follow which object is written, the trees live in a
    store of objects here; a value is a leaf or the location of a map or
    list.  The accessor methods are the ones of [Notation], with the
    writes done in place. *)

Module Store.

Import Utils.
Import Notation(scalar, Undefined, Null, Bool, Num, NaN, Str, jsType, TArray,
  TObject, TUndefined, TNull, TBoolean, TNumber, TString, tree, Leaf, Obj, Arr,
  setMode, Overwrite, Insert, NoOverwrite, isNumber, propKey, notation,
  options, strict, preserveIndices, DEFAULT_OPTS).

Definition loc : Type := nat.

Inductive val : Type :=
| VLeaf (s : scalar)
| VRef (l : loc).

Inductive object : Type :=
| OMap (props : list (string * val))
| OList (items : list (option val)).

Definition store : Type := list object.

Definition undefined : val := VLeaf Undefined.

(** A computation on the store that may throw. *)
Definition M (A : Type) : Type := store -> result (A * store).

Definition ret {A : Type} (a : A) : M A := fun h => Ok (a, h).

Definition fail {A : Type} (e : error) : M A := fun _ => Err e.

Definition lift {A : Type} (r : result A) : M A :=
  fun h => match r with Ok a => Ok (a, h) | Err e => Err e end.

Definition mbind {A B : Type} (m : M A) (f : A -> M B) : M B :=
  fun h => match m h with
           | Ok (a, h') => f a h'
           | Err e => Err e
           end.

Notation "x <~ m ;; k" := (mbind m (fun x => k))
  (at level 61, m at next level, right associativity).

Definition alloc (o : object) : M val :=
  fun h => Ok (VRef (List.length h), h ++ [o]).

Definition deref (h : store) (v : val) : option object :=
  match v with
  | VRef l => nth_error h l
  | VLeaf _ => None
  end.

Fixpoint replaceNth (l : loc) (o : object) (h : store) : store :=
  match l, h with
  | _, [] => []
  | 0, _ :: rest => o :: rest
  | S l', x :: rest => x :: replaceNth l' o rest
  end.

(** Rewrite the object a value points to; a leaf has none. *)
Definition update (v : val) (f : object -> result object) : M unit :=
  fun h =>
    match v with
    | VRef l =>
        match nth_error h l with
        | Some o => match f o with
                    | Ok o' => Ok (tt, replaceNth l o' h)
                    | Err e => Err e
                    end
        | None => Err TypeError
        end
    | VLeaf _ => Err TypeError
    end.

Definition typeOf (h : store) (v : val) : jsType :=
  match v with
  | VLeaf Undefined => TUndefined
  | VLeaf Null => TNull
  | VLeaf (Bool _) => TBoolean
  | VLeaf (Num _) => TNumber
  | VLeaf NaN => TNumber
  | VLeaf (Str _) => TString
  | VRef _ =>
      match deref h v with
      | Some (OList _) => TArray
      | _ => TObject
      end
  end.

Definition isArray (h : store) (v : val) : bool :=
  match deref h v with Some (OList _) => true | _ => false end.

Definition isCollection (v : val) : bool :=
  match v with VRef _ => true | VLeaf _ => false end.

(** utils.hasOwn, as in [Notation.hasOwn]. *)
Definition hasOwn (h : store) (lvl : val) (n : nnote) : bool :=
  match deref h lvl, n with
  | Some (OMap props), NKey k =>
      match lookup k props with Some _ => true | None => false end
  | Some (OList items), NIdx i => Nat.ltb i (List.length items)
  | _, _ => false
  end.

Definition getProp (h : store) (lvl : val) (n : nnote) : val :=
  match deref h lvl, n with
  | Some (OMap props), _ =>
      match lookup (propKey n) props with Some v => v | None => undefined end
  | Some (OList items), NIdx i =>
      match nth_error items i with Some (Some v) => v | _ => undefined end
  | _, _ => undefined
  end.

(** level[n] = v, in place. *)
Definition assign (lvl : val) (n : nnote) (v : val) : M unit :=
  update lvl (fun o =>
    match o, n with
    | OMap props, _ => Ok (OMap (writeKey (propKey n) v props))
    | OList items, NIdx i => Ok (OList (putItem i v items))
    | OList _, _ => Err TypeError
    end).

Definition deleteProp (par : val) (n : nnote) : M unit :=
  update par (fun o =>
    match o, n with
    | OMap props, _ => Ok (OMap (dropProp (propKey n) props))
    | OList items, NIdx i => Ok (OList (holeAt i items))
    | _, _ => Ok o
    end).

Definition spliceOut (par : val) (n : nnote) : M unit :=
  update par (fun o =>
    match o, n with
    | OList items, NIdx i => Ok (OList (removeAt i items))
    | _, _ => Ok o
    end).

Definition spliceIn (lvl : val) (i : nat) (v : val) : M unit :=
  update lvl (fun o =>
    match o with
    | OList items => Ok (OList (insertAt i v items))
    | _ => Err InsertOnNonList
    end).

Record InspectResult : Type := mkResult {
  has : bool;
  value : val;
  type : jsType;
  level : nat;
  lastNote : option string;
  lastNoteNormalized : option nnote;
  parentIsArray : bool
}.

Fixpoint inspectGetLoop (h : store) (notes : list string) (index : nat)
  (lvl : val) (par : option val) (res : InspectResult)
  : result (InspectResult * option val) :=
  match notes with
  | [] => Ok (res, par)
  | note :: rest =>
      n <- normalizeNote note ;;
      if hasOwn h lvl n then
        let lvl' := getProp h lvl n in
        inspectGetLoop h rest (S index) lvl' (Some lvl')
          (mkResult true lvl' (typeOf h lvl') (S index) (Some note) (Some n)
             false)
      else
        Ok (mkResult false undefined TUndefined (S index) (Some note) (Some n)
              false, par)
  end.

(** a === b on values: the same location, or the same scalar; NaN is
    not equal to itself. *)
Definition strictEquals (a b : val) : bool :=
  match a, b with
  | VRef l, VRef l' => Nat.eqb l l'
  | VLeaf Undefined, VLeaf Undefined => true
  | VLeaf Null, VLeaf Null => true
  | VLeaf (Bool x), VLeaf (Bool y) => Bool.eqb x y
  | VLeaf (Num x), VLeaf (Num y) => Z.eqb x y
  | VLeaf (Str x), VLeaf (Str y) => String.eqb x y
  | _, _ => false
  end.

Definition inspectGet (h : store) (source : val) (notes : notation)
  : result InspectResult :=
  ns <- Notation.split notes ;;
  r <- inspectGetLoop h ns 0 source None
         (mkResult false undefined TUndefined 0 None None false) ;;
  let '(res, par) := r in
  let par' :=
    match par with
    | None => source
    | Some (VLeaf Undefined) => source
    | Some p => if has res && strictEquals p (value res) then source else p
    end in
  Ok (mkResult (has res) (value res) (type res) (level res) (lastNote res)
        (lastNoteNormalized res) (isArray h par')).

Definition get (opts : options) (h : store) (source : val) (notes : notation)
  (defaultValue : option val) : result val :=
  r <- inspectGet h source notes ;;
  if strict opts
     && (match defaultValue with None => true | Some _ => false end)
     && negb (has r)
  then Err (if parentIsArray r then MissingIndex else MissingProperty)
  else Ok (if has r then value r
           else match defaultValue with Some d => d | None => undefined end).

Fixpoint setLoop (notes : list string) (lvl : val) (v : val) (mode : setMode)
  : M unit :=
  match notes with
  | [] => ret tt
  | note :: rest =>
      nCurrentNote <~ lift (normalizeNote note) ;;
      nNextNote <~ lift (match rest with
                         | [] => Ok None
                         | next :: _ => n <- normalizeNote next ;; Ok (Some n)
                         end) ;;
      let currentIsLast := match rest with [] => true | _ => false end in
      fun h =>
        if isArray h lvl && negb (isNumber nCurrentNote) then Err TypeMismatch
        else if hasOwn h lvl nCurrentNote then
          if currentIsLast then
            match mode with
            | Overwrite => assign lvl nCurrentNote v h
            | Insert =>
                match nCurrentNote with
                | NIdx i => spliceIn lvl i v h
                | _ => Err InsertOnNonList
                end
            | NoOverwrite => Ok (tt, h)
            end
          else setLoop rest (getProp h lvl nCurrentNote) v mode h
        else
          if currentIsLast && negb (isArray h lvl)
             && match mode with Insert => true | _ => false end
          then Err InsertOnNonList
          else if currentIsLast then assign lvl nCurrentNote v h
          else
            let nextIsArrayNote :=
              match nNextNote with Some n => isNumber n | None => false end in
            (fresh <~ alloc (if nextIsArrayNote then OList [] else OMap []) ;;
             _ <~ assign lvl nCurrentNote fresh ;;
             setLoop rest fresh v mode) h
  end.

Definition set (source : val) (notes : notation) (v : val) (mode : setMode)
  : M unit :=
  ns <~ lift (Notation.split notes) ;;
  setLoop ns source v mode.

Definition inspectRemove (opts : options) (source : val) (notes : notation)
  : M InspectResult :=
  parentNotation <~ lift (Notation.parent notes) ;;
  fun h =>
    (par <~ lift (match parentNotation with
                  | Some pn => get opts h source pn (Some (VLeaf Null))
                  | None => Ok source
                  end) ;;
     let parentIsArray := isArray h par in
     ns <~ lift (Notation.split notes) ;;
     let lastNote := List.last ns "" in
     lastNoteNormalized <~ lift (normalizeNote lastNote) ;;
     if hasOwn h par lastNoteNormalized then
       let v := getProp h par lastNoteNormalized in
       _ <~ (if negb (preserveIndices opts) && parentIsArray
             then spliceOut par lastNoteNormalized
             else deleteProp par lastNoteNormalized) ;;
       ret (mkResult true v (typeOf h v) (List.length ns) (Some lastNote)
              (Some lastNoteNormalized) parentIsArray)
     else
       ret (mkResult false undefined TUndefined (List.length ns) (Some lastNote)
              (Some lastNoteNormalized) parentIsArray)) h.

Definition remove (opts : options) (source : val) (notes : notation) : M unit :=
  res <~ inspectRemove opts source notes ;;
  if strict opts && negb (has res)
  then fail (if parentIsArray res then MissingIndex else MissingProperty)
  else ret tt.

(** Modelled from the spec: utils.cloneDeep is not under src/.  Spec 3
    and 4.2: clone deep-copies the containers and the scalars.  [fuel]
    bounds the depth; the host fails on a structure that holds itself. *)
Fixpoint cloneDeep (fuel : nat) (v : val) : M val :=
  match v with
  | VLeaf x => ret (VLeaf x)
  | VRef l =>
      match fuel with
      | 0 => fail StackOverflow
      | S fuel' =>
          fun h =>
            match nth_error h l with
            | Some (OMap props) =>
                (props' <~
                   (fix cloneProps (ps : list (string * val))
                      : M (list (string * val)) :=
                      match ps with
                      | [] => ret []
                      | (k, x) :: rest =>
                          x' <~ cloneDeep fuel' x ;;
                          rest' <~ cloneProps rest ;;
                          ret ((k, x') :: rest')
                      end) props ;;
                 alloc (OMap props')) h
            | Some (OList items) =>
                (items' <~
                   (fix cloneItems (its : list (option val))
                      : M (list (option val)) :=
                      match its with
                      | [] => ret []
                      | it :: rest =>
                          it' <~ match it with
                                 | Some x => x' <~ cloneDeep fuel' x ;; ret (Some x')
                                 | None => ret None
                                 end ;;
                          rest' <~ cloneItems rest ;;
                          ret (it' :: rest')
                      end) items ;;
                 alloc (OList items')) h
            | None => Err TypeError
            end
      end
  end.

(** The notes of the members of a collection as eachItem meets them.
    Modelled from the spec: utils.eachItem is not under src/.  Spec 5:
    insertion order for a map, index order for a list, from the highest
    index down when the walk may remove list entries. *)
Definition memberNotes (h : store) (collection : val) (reverseIfArray : bool)
  : list (string * nnote) :=
  match deref h collection with
  | Some (OMap props) => map (fun kv => (fst kv, NKey (fst kv))) props
  | Some (OList items) =>
      let l := map (fun i => (indexNote i, NIdx i)) (seq 0 (List.length items)) in
      if reverseIfArray then rev l else l
  | None => []
  end.

(** _each with byLevel unset, on the store.  The callback answers false
    to stop the loop it is called from; a loop over a nested collection
    that stops does not stop the loop above it. *)
Fixpoint _each (fuel : nat) (reverseIfArray : bool) (collection : val)
  (parentNotation : notation)
  (callback : notation -> string -> val -> M bool) : M unit :=
  match fuel with
  | 0 => fail StackOverflow
  | S fuel' =>
      fun h =>
        (fix eachItem (members : list (string * nnote)) : M unit :=
           match members with
           | [] => ret tt
           | (note, n) :: rest =>
               fun h' =>
                 let v := getProp h' collection n in
                 let currentNotation := parentNotation ++ [note] in
                 (go <~ (if isCollection v then ret true
                         else callback currentNotation note v) ;;
                  if go : bool then
                    _ <~ (if isCollection v
                          then _each fuel' reverseIfArray v currentNotation
                                 callback
                          else ret tt) ;;
                    eachItem rest
                  else ret tt) h'
           end) (memberNotes h collection reverseIfArray) h
  end.

(** The Notation instance filter is called on. *)
Record instance : Type := mkInstance {
  _source : val;
  _isArray : bool;
  opts : options
}.

Definition isset (v : val) : bool :=
  match v with
  | VLeaf Undefined | VLeaf Null => false
  | _ => true
  end.

Definition jsType_eqb (a b : jsType) : bool :=
  match a, b with
  | TArray, TArray | TObject, TObject | TUndefined, TUndefined
  | TNull, TNull | TBoolean, TBoolean | TNumber, TNumber
  | TString, TString => true
  | _, _ => false
  end.

(** Notation.eachNote inside the callback of filter: the prefixes of the
    notation, the shortest first, until the callback answers false. *)
Fixpoint eachLevel (prefix rest : list string)
  (callback : notation -> M bool) : M unit :=
  match rest with
  | [] => ret tt
  | note :: rest' =>
      go <~ callback (prefix ++ [note]) ;;
      if go : bool then eachLevel (prefix ++ [note]) rest' callback else ret tt
  end.

(** g.test(notation) *)
Definition test (g : NotationGlob.globArg) (n : notation) : result bool :=
  if Notation.isValid n
  then NotationGlob.covers g (NotationGlob.GString (NotationGlob.mkGlob false n))
  else Err InvalidSyntax.

(** The body of the loop of filter over the globs; [filtered] is the
    source of the Notation instance that collects the result, made with
    the default options. *)
Definition filterGlob (fuel : nat) (this : instance) (filtered : val)
  (globNotation : NotationGlob.globstr) : M unit :=
  g <~ lift (NotationGlob.create globNotation) ;;
  match g with
  | NotationGlob.GInstance ins levels =>
      let absGlob := NotationGlob.gnotes (NotationGlob.absGlob ins) in
      let isNegated := NotationGlob.isNegated ins in
      let lastIs (w : string) := String.eqb (List.last absGlob "") w in
      let dotStar := lastIs "*" && Nat.leb 2 (List.length absGlob) in
      let bracketStar := lastIs "[*]" in
      let normalized :=
        if dotStar || bracketStar then removelast absGlob else absGlob in
      let eType :=
        if dotStar then Some TObject
        else if bracketStar then Some TArray else None in
      emptyValue <~
        match eType with
        | Some t =>
            if isNegated
            then e <~ alloc (match t with TArray => OList [] | _ => OMap [] end) ;;
                 ret (Some e)
            else ret None
        | None => ret None
        end ;;
      if Nat.eqb (NotationGlob.wildCount normalized) 0 then
        if isNegated then
          insRemove <~ inspectRemove DEFAULT_OPTS filtered normalized ;;
          match emptyValue, eType with
          | Some e, Some t =>
              let vType := type insRemove in
              let isValSet := isset (value insRemove) in
              if (isValSet && negb (jsType_eqb vType t))
                 || (negb isValSet && strict (opts this))
              then fail IntegrityError
              else set filtered normalized e
                     (if parentIsArray insRemove then Insert else Overwrite)
          | _, _ => ret tt
          end
        else
          fun h =>
            (insGet <~ lift (inspectGet h (_source this) normalized) ;;
             if has insGet
             then set filtered normalized (value insGet) Overwrite
             else ret tt) h
      else
        _each fuel true (_source this) []
          (fun originalNotation key v =>
             pattern <~ lift (NotationGlob.create
                                (NotationGlob.mkGlob false normalized)) ;;
             originalIsCovered <~
               lift (NotationGlob.covers pattern
                       (NotationGlob.GString
                          (NotationGlob.mkGlob false originalNotation))) ;;
             if negb originalIsCovered then ret true
             else
               fun h =>
                 (_ <~ (match emptyValue, eType with
                        | Some _, Some t =>
                            if strict (opts this) then
                              ns <~ lift (Notation.split originalNotation) ;;
                              if negb (jsType_eqb (typeOf h v) t)
                                 && Nat.eqb (List.length ns)
                                      (List.length levels - 1)
                              then fail IntegrityError else ret tt
                            else ret tt
                        | _, _ => ret tt
                        end) ;;
                  ns <~ lift (Notation.split originalNotation) ;;
                  _ <~ eachLevel [] ns
                         (fun levelNotation =>
                            covered <~ lift (test g levelNotation) ;;
                            if covered : bool then
                              if isNegated
                                 && Nat.leb (List.length levels)
                                      (List.length levelNotation)
                              then _ <~ remove DEFAULT_OPTS filtered levelNotation ;;
                                   ret false
                              else _ <~ set filtered levelNotation v Overwrite ;;
                                   ret true
                            else ret true) ;;
                  ret true) h)
  | _ => fail InvalidSyntax
  end.

Fixpoint eachGlob (fuel : nat) (this : instance) (filtered : val)
  (globs : list NotationGlob.globstr) : M unit :=
  match globs with
  | [] => ret tt
  | g :: rest =>
      _ <~ filterGlob fuel this filtered g ;; eachGlob fuel this filtered rest
  end.

(** filter: the value it leaves in this._source. *)
Definition filter (fuel : nat) (this : instance)
  (globList : list NotationGlob.globstr) : M val :=
  globs <~ lift (NotationGlob.normalize globList) ;;
  empty <~ alloc (if _isArray this then OList [] else OMap []) ;;
  match globs with
  | [] => ret empty
  | first :: others =>
      if match others with [] => NotationGlob.isNegateAll first | _ => false end
      then ret empty
      else
        cloned <~ cloneDeep fuel (_source this) ;;
        let firstIsWildcard := NotationGlob.isWildcardGlob first in
        if match others with [] => firstIsWildcard | _ => false end
        then ret cloned
        else
          let filtered := if firstIsWildcard then cloned else empty in
          _ <~ eachGlob fuel this filtered
                 (if firstIsWildcard then others else globs) ;;
          ret filtered
  end.

(** *** Trees in and out of the store *)

Fixpoint load (t : tree) : M val :=
  match t with
  | Leaf x => ret (VLeaf x)
  | Obj props =>
      props' <~
        (fix loadProps (ps : list (string * tree)) : M (list (string * val)) :=
           match ps with
           | [] => ret []
           | (k, x) :: rest =>
               x' <~ load x ;; rest' <~ loadProps rest ;; ret ((k, x') :: rest')
           end) props ;;
      alloc (OMap props')
  | Arr items =>
      items' <~
        (fix loadItems (its : list (option tree)) : M (list (option val)) :=
           match its with
           | [] => ret []
           | it :: rest =>
               it' <~ match it with
                      | Some x => x' <~ load x ;; ret (Some x')
                      | None => ret None
                      end ;;
               rest' <~ loadItems rest ;;
               ret (it' :: rest')
           end) items ;;
      alloc (OList items')
  end.

(** The tree a value stands for in a store; None when the fuel does not
    reach the leaves or a location is not of the store. *)
Fixpoint reify (fuel : nat) (h : store) (v : val) : option tree :=
  match v with
  | VLeaf x => Some (Leaf x)
  | VRef l =>
      match fuel with
      | 0 => None
      | S fuel' =>
          match nth_error h l with
          | Some (OMap props) =>
              option_map Obj
                ((fix reifyProps (ps : list (string * val)) :=
                    match ps with
                    | [] => Some []
                    | (k, x) :: rest =>
                        match reify fuel' h x, reifyProps rest with
                        | Some x', Some rest' => Some ((k, x') :: rest')
                        | _, _ => None
                        end
                    end) props)
          | Some (OList items) =>
              option_map Arr
                ((fix reifyItems (its : list (option val)) :=
                    match its with
                    | [] => Some []
                    | it :: rest =>
                        match
                          match it with
                          | Some x => option_map Some (reify fuel' h x)
                          | None => Some None
                          end, reifyItems rest
                        with
                        | Some it', Some rest' => Some (it' :: rest')
                        | _, _ => None
                        end
                    end) items)
          | None => None
          end
      end
  end.

(** A call of filter on a fresh instance over a tree: the tree the
    caller still holds afterwards, and the value of the instance. *)
Definition runFilter (source : tree) (options : options)
  (globList : list NotationGlob.globstr) : result (option tree * option tree) :=
  match load source [] with
  | Err e => Err e
  | Ok (root, h0) =>
      let this := mkInstance root (isArray h0 root) options in
      let fuel := S (List.length h0) in
      match filter fuel this globList h0 with
      | Err e => Err e
      | Ok (result, h1) =>
          Ok (reify (List.length h1) h1 root, reify (List.length h1) h1 result)
      end
  end.

(** A run of accessor calls on a fresh instance over a tree: the tree
    the source reads as afterwards. *)
Definition runOn (source : tree) (calls : val -> M unit) : result (option tree) :=
  match load source [] with
  | Err e => Err e
  | Ok (root, h0) =>
      match calls root h0 with
      | Err e => Err e
      | Ok (_, h1) => Ok (reify (List.length h1) h1 root)
      end
  end.

End Store.

(** * Properties *)

Section GlobProperties.

Import Utils NotationGlob.

Lemma globstr_eqb_eq (a b : globstr) : globstr_eqb a b = true <-> a = b.
Proof.
  unfold globstr_eqb. destruct a as [ba na], b as [bb nb]; simpl.
  destruct (list_eq_dec string_dec na nb) as [E | E].
  - rewrite andb_true_r, Bool.eqb_true_iff. split.
    + intros ->. now rewrite E.
    + now intros [= -> _].
  - rewrite andb_false_r. split; [discriminate | intros [= _ H]; contradiction].
Qed.

Lemma inspect_valid (g : globstr) (i : inspected) :
  _inspect g = Ok i -> isValid (absGlob i) = true /\ isNegated i = bang (glob i).
Proof.
  unfold _inspect. destruct (isValid (normalizeGlobStr g)) eqn:V; simpl; [|discriminate].
  intros [= <-]; simpl. split; [|reflexivity].
  destruct (bang (normalizeGlobStr g)); [|exact V].
  unfold isValid in *; simpl. exact V.
Qed.

(** C2, as the specification words it, fails: the negated glob [!a]
    covers the deeper notation [a.b]. *)
Lemma covers_negated_deeper_counterexample :
  let g := GString (mkGlob true ["a"]) in
  let t := GString (mkGlob false ["a"; "b"]) in
  resolve g = Ok (true, ["a"])
  /\ resolve t = Ok (false, ["a"; "b"])
  /\ List.length ["a"] < List.length ["a"; "b"]
  /\ covers g t = Ok true.
Proof. repeat split; simpl; lia. Qed.

(** C2 (amended): a negated glob never covers a target with strictly
    fewer notes than its own; the guard of covers looks at targets that
    are shallower, not deeper. *)
Theorem covers_negated_shallower (g t : globArg) (notesG notesT : list string)
  (negT : bool) :
  resolve g = Ok (true, notesG) ->
  resolve t = Ok (negT, notesT) ->
  List.length notesT < List.length notesG ->
  covers g t = Ok false.
Proof.
  intros Hg Ht Hlen. unfold covers. rewrite Hg, Ht. simpl.
  apply Nat.ltb_lt in Hlen. now rewrite Hlen.
Qed.

Lemma covers_negated_shallower_witness :
  covers (GString (mkGlob true ["a"; "b"])) (GString (mkGlob false ["a"]))
  = Ok false.
Proof.
  apply (@covers_negated_shallower _ _ ["a"; "b"] ["a"] false);
    [reflexivity | reflexivity | simpl; lia].
Defined.

Lemma split_absGlob (g : globstr) (i : inspected) :
  _inspect g = Ok i -> split (absGlob i) false = Ok (gnotes (absGlob i)).
Proof.
  intros H. destruct (@inspect_valid _ _ H) as [V _].
  unfold split. now rewrite V.
Qed.

Lemma string_ltb_compare (s1 s2 : string) :
  (if String.ltb s1 s2 then (-1)%Z
   else if String.ltb s2 s1 then 1%Z else 0%Z)
  = ofComparison (String.compare s1 s2).
Proof.
  unfold String.ltb. rewrite (String.compare_antisym s2 s1).
  now destruct (String.compare s1 s2).
Qed.

Lemma string_compare_refl (s : string) : String.compare s s = Eq.
Proof.
  pose proof (String.compare_antisym s s) as H.
  destruct (String.compare s s); simpl in H; congruence.
Qed.



(** The wildcards are not counted one by one: of two globs of three
    notes, the negated one with two wildcards comes after the plain one
    with one wildcard, where the key with counted wildcards puts it
    before. *)
Remark compare_counts_no_wildcards :
  let a := mkGlob true ["a"; "*"; "*"] in
  let b := mkGlob false ["a"; "*"; "c"] in
  exists ia ib,
    _inspect a = Ok ia /\ _inspect b = Ok ib
    /\ compare a b = Ok 1%Z
    /\ keyCompare (countedKeyOf ia) (countedKeyOf ib) = (-1)%Z.
Proof. cbv zeta. eexists _, _. repeat split. Qed.



(** C9: a list holding one negated glob, whatever the glob, normalizes
    to the empty list. *)
Theorem normalize_single_negated (g : globstr) :
  bang g = true -> isValid g = true -> normalize [g] = Ok [].
Proof.
  intros B V. unfold normalize. simpl.
  unfold _inspect, normalizeGlobStr. rewrite B, V. simpl. now rewrite B.
Qed.

Lemma normalize_single_negated_witness :
  normalize [mkGlob true ["car"; "model"]] = Ok [].
Proof.
  apply normalize_single_negated; reflexivity.
Defined.

(** C1 at the failing input: A = [*, !a.*], B = [a.b], notation a.b.
    B selects it.  The two passes of _compareUnion keep a.b, as the rule
    written in the code says of a positive glob that a negated one
    covers; the normalize that closes union drops it, and the union
    comes out as [*, !a.*], which does not select a.b. *)
Theorem union_loses_selected_notation :
  let A := [mkGlob false ["*"]; mkGlob true ["a"; "*"]] in
  let B := [mkGlob false ["a"; "b"]] in
  let p := mkGlob false ["a"; "b"] in
  normalize A = Ok A
  /\ normalize B = Ok B
  /\ (u <- _compareUnion A B [] ;; _compareUnion B A u)
     = Ok [mkGlob true ["a"; "*"]; mkGlob false ["*"]; mkGlob false ["a"; "b"]]
  /\ union A B = Ok [mkGlob false ["*"]; mkGlob true ["a"; "*"]]
  /\ selects A p = Ok false
  /\ selects B p = Ok true
  /\ (u <- union A B ;; selects u p) = Ok false.
Proof. repeat split; vm_compute; reflexivity. Qed.

End GlobProperties.

Section AccessorProperties.

Import Utils Notation.

Lemma validNote_normalize (n : string) :
  validNote n = true -> exists k, normalizeNote n = Ok k.
Proof.
  unfold validNote, normalizeNote. intros H.
  destruct (VAR n); [eauto|].
  destruct (ARRAY_NOTE n); [eauto|].
  destruct (OBJECT_BRACKETS n) as [[|c r]|]; [eauto | eauto | discriminate].
Qed.

(** The walk of inspectGet ends for notes that are notes, and a result
    without the member holds undefined. *)
Lemma inspectGetLoop_total (notes : list string) :
  forallb validNote notes = true ->
  forall index lvl par res,
    exists res' par', inspectGetLoop notes index lvl par res = Ok (res', par').
Proof.
  induction notes as [|note rest IH]; simpl; intros V index lvl par res.
  - eauto.
  - apply andb_true_iff in V as [V1 V2].
    destruct (validNote_normalize _ V1) as [k ->]. simpl.
    destruct (hasOwn lvl k); [apply IH; assumption | eauto].
Qed.

Lemma inspectGetLoop_absent (notes : list string) :
  forall index lvl par res res' par',
    inspectGetLoop notes index lvl par res = Ok (res', par') ->
    (has res = false -> value res = undefined) ->
    has res' = false -> value res' = undefined.
Proof.
  induction notes as [|note rest IH]; simpl; intros index lvl par res res' par' H I.
  - injection H as <- _. exact I.
  - destruct (normalizeNote note) as [k|]; simpl in H; [|discriminate].
    destruct (hasOwn lvl k).
    + eapply IH; [exact H|]. simpl. discriminate.
    + injection H as <- _. reflexivity.
Qed.

Lemma inspectGet_total (source : tree) (notes : notation) :
  isValid notes = true -> exists r, inspectGet source notes = Ok r.
Proof.
  intros V. unfold inspectGet, split. rewrite V. simpl.
  assert (V' : forallb validNote notes = true)
    by (destruct notes; [discriminate | exact V]).
  destruct (inspectGetLoop_total notes V' 0 source None
              (mkResult false undefined TUndefined 0 None None false))
    as (res & par & ->).
  simpl. eauto.
Qed.

(** C10: on a valid notation inspectGet answers, a result with has:false
    carries undefined, hasDefined is has together with a value that is
    not undefined, and so hasDefined implies has. *)
Theorem hasDefined_implies_has (source : tree) (notes : notation) :
  isValid notes = true ->
  exists r,
    inspectGet source notes = Ok r
    /\ (has r = false -> value r = undefined)
    /\ hasDefined source notes = Ok (has r && negb (isUndefined (value r)))
    /\ hasNotation source notes = Ok (has r)
    /\ (hasDefined source notes = Ok true -> hasNotation source notes = Ok true).
Proof.
  intros V. destruct (inspectGet_total source notes V) as [r Hr].
  exists r. split; [exact Hr|].
  assert (A : has r = false -> value r = undefined).
  { revert Hr. unfold inspectGet, split. rewrite V. simpl.
    destruct (inspectGetLoop notes 0 source None _) as [[res par]|] eqn:L;
      simpl; [|discriminate].
    intros [= <-]; simpl.
    eapply inspectGetLoop_absent; [exact L | reflexivity]. }
  unfold hasDefined, hasNotation. rewrite Hr. simpl.
  split; [exact A|]. split; [|split; [reflexivity|]].
  - destruct (has r) eqn:Hh; simpl; [reflexivity|].
    now rewrite (A eq_refl).
  - destruct (has r) eqn:Hh; [reflexivity|].
    rewrite (A eq_refl). simpl. discriminate.
Qed.

Lemma hasDefined_implies_has_witness :
  let source := Obj [("car", Obj [("year", undefined)])] in
  let notes := ["car"; "year"] in
  exists r,
    inspectGet source notes = Ok r
    /\ (has r = false -> value r = undefined)
    /\ hasDefined source notes = Ok (has r && negb (isUndefined (value r)))
    /\ hasNotation source notes = Ok (has r)
    /\ (hasDefined source notes = Ok true -> hasNotation source notes = Ok true).
Proof.
  exact (@hasDefined_implies_has (Obj [("car", Obj [("year", undefined)])])
           ["car"; "year"] eq_refl).
Defined.

(** The membership test and the read of the code, against the member
    read off the tree. *)
Lemma member_spec (lvl : tree) (n : nnote) :
  member lvl n = if hasOwn lvl n then Some (getProp lvl n) else None.
Proof.
  destruct lvl as [x|props|items], n as [k|i|]; cbn [member hasOwn getProp];
    try reflexivity.
  - cbn [propKey]. now destruct (lookup k props).
  - destruct (Nat.ltb_spec i (List.length items)) as [L | L].
    + apply nth_error_Some in L.
      now destruct (nth_error items i) as [[v|]|].
    + apply nth_error_None in L. now rewrite L.
Qed.

(** The walk of inspectGet ends where the notation ends on the tree. *)
Lemma inspectGetLoop_resolve (notes : list string) :
  forallb validNote notes = true ->
  forall index lvl par res,
    exists res' par',
      inspectGetLoop notes index lvl par res = Ok (res', par')
      /\ match resolve notes lvl with
         | Present v =>
             (notes = [] /\ res' = res /\ par' = par)
             \/ (has res' = true /\ value res' = v /\ par' = Some v)
         | Absent p =>
             has res' = false /\ value res' = undefined
             /\ (par' = Some p \/ (par' = par /\ p = lvl))
         end.
Proof.
  induction notes as [|note rest IH]; intros V index lvl par res.
  - exists res, par. split; [reflexivity|]. left. now repeat split.
  - cbn [forallb] in V. apply andb_true_iff in V as [V1 V2].
    destruct (validNote_normalize _ V1) as [n N].
    cbn [inspectGetLoop resolve]. rewrite N. cbn [bind].
    rewrite member_spec. destruct (hasOwn lvl n).
    + destruct (IH V2 (S index) (getProp lvl n) (Some (getProp lvl n))
                  (mkResult true (getProp lvl n) (typeOf (getProp lvl n))
                     (S index) (Some note) (Some n) false))
        as (res' & par' & L & R).
      exists res', par'. split; [exact L|].
      destruct (resolve rest (getProp lvl n)) as [v|p] eqn:E.
      * right. destruct R as [(-> & -> & ->) | R]; [|exact R].
        cbn [resolve] in E. injection E as <-. now repeat split.
      * destruct R as (Hh & Hv & [R | [R ->]]); auto.
    + eexists _, _. split; [reflexivity|]. cbn [has value]. auto.
Qed.

(** C7: what get answers, by where the notation ends on the tree.  On
    a present path, the resolved value.  On an absent path with strict
    off or a default passed, the default (undefined when none is
    passed).  On an absent path in strict mode with no default,
    MissingIndex when the resolved parent is a list and MissingProperty
    when it is a map; when it is a leaf, MissingProperty, but for the
    leaf undefined, for which the kind of the source decides. *)
Theorem get_cases (opts : options) (source : tree) (notes : notation)
  (defaultValue : option tree) :
  isValid notes = true ->
  match resolve notes source with
  | Present v => get opts source notes defaultValue = Ok v
  | Absent p =>
      (strict opts = false \/ defaultValue <> None ->
       get opts source notes defaultValue
       = Ok (match defaultValue with Some d => d | None => undefined end))
      /\ (strict opts = true -> defaultValue = None ->
          (isArray p = true ->
           get opts source notes defaultValue = Err MissingIndex)
          /\ (isObject p = true ->
              get opts source notes defaultValue = Err MissingProperty)
          /\ (isCollection p = false ->
              get opts source notes defaultValue
              = Err (if isUndefined p && isArray source
                     then MissingIndex else MissingProperty)))
  end.
Proof.
  intros V.
  assert (V' : forallb validNote notes = true)
    by (destruct notes; [discriminate | exact V]).
  destruct (inspectGetLoop_resolve notes V' 0 source None
              (mkResult false undefined TUndefined 0 None None false))
    as (res & par & L & R).
  unfold get, inspectGet, split. rewrite V. cbn [bind]. rewrite L.
  cbn [bind has value parentIsArray].
  destruct (resolve notes source) as [v|p].
  - destruct R as [(-> & _) | (-> & -> & _)]; [discriminate V|].
    now rewrite andb_false_r.
  - destruct R as (-> & _ & P). cbn [negb andb]. rewrite andb_true_r. split.
    + intros [-> | D]; [reflexivity|].
      destruct defaultValue; [|contradiction]. now rewrite andb_false_r.
    + intros -> ->. cbn [andb].
      assert (E : isArray (match par with
                           | None => source
                           | Some (Leaf Undefined) => source
                           | Some p0 => p0
                           end)
                  = if isCollection p then isArray p
                    else isUndefined p && isArray source).
      { destruct P as [-> | [-> ->]].
        - now destruct p as [[]| |].
        - now destruct source as [[]| |]. }
      rewrite E. split; [|split].
      * intros A. destruct p; try discriminate. reflexivity.
      * intros A. destruct p; try discriminate. reflexivity.
      * intros C. now rewrite C.
Qed.

Lemma get_cases_witness :
  get (mkOptions true false) (Obj []) ["a"; "b"] None = Err MissingProperty
  /\ get (mkOptions true false) (Arr []) ["[0]"] None = Err MissingIndex
  /\ get DEFAULT_OPTS (Obj [("car", Obj [("model", Leaf (Str "Charger"))])])
       ["car"; "model"] None = Ok (Leaf (Str "Charger")).
Proof.
  split; [|split].
  - exact (proj1 (proj2 (proj2 (get_cases (mkOptions true false) (Obj [])
                                  ["a"; "b"] None eq_refl)
                           eq_refl eq_refl))
             eq_refl).
  - exact (proj1 (proj2 (get_cases (mkOptions true false) (Arr [])
                           ["[0]"] None eq_refl) eq_refl eq_refl)
             eq_refl).
  - exact (get_cases DEFAULT_OPTS
             (Obj [("car", Obj [("model", Leaf (Str "Charger"))])])
             ["car"; "model"] None eq_refl).
Defined.

(** *** Writing a member and reading it back *)

Lemma lookup_putProp (k : string) (v : tree) (props : list (string * tree)) :
  lookup k (putProp k v props) = Some v.
Proof.
  induction props as [|[k' v'] rest IH]; cbn [putProp lookup].
  - now rewrite String.eqb_refl.
  - destruct (String.eqb k k') eqn:E; cbn [lookup].
    + now rewrite String.eqb_refl.
    + now rewrite E.
Qed.

Lemma nth_putItem (i : nat) (v : tree) (items : list (option tree)) :
  nth_error (putItem i v items) i = Some (Some v).
Proof.
  revert items. induction i as [|i IH]; intros [|x rest]; cbn; auto.
Qed.

Lemma putItem_length_lt (i : nat) (v : tree) (items : list (option tree)) :
  i < List.length (putItem i v items).
Proof.
  revert items. induction i as [|i IH]; intros [|x rest]; cbn; try lia.
  - specialize (IH []). lia.
  - specialize (IH rest). lia.
Qed.

Lemma hasOwn_takes (lvl : tree) (n : nnote) :
  hasOwn lvl n = true -> takes lvl n = true.
Proof.
  destruct lvl as [s|props|items], n as [k|i|]; cbn [hasOwn takes]; auto.
  destruct (lookup k props); [intros _; apply orb_true_r | discriminate].
Qed.

Lemma assign_member (lvl lvl' : tree) (n : nnote) (v : tree) :
  takes lvl n = true ->
  assign lvl n v = Ok lvl' -> hasOwn lvl' n = true /\ getProp lvl' n = v.
Proof.
  destruct lvl as [s|props|items], n as [k|i|]; cbn [takes assign propKey];
    try discriminate.
  - intros K [= <-]. cbn [hasOwn getProp propKey]. unfold writeKey.
    destruct (String.eqb k "__proto__"); cbn [negb orb andb] in *.
    + destruct (lookup k props); [|discriminate]. cbn [negb].
      now rewrite lookup_putProp.
    + now rewrite lookup_putProp.
  - intros _ [= <-]. cbn [hasOwn getProp]. rewrite nth_putItem. split; auto.
    apply Nat.ltb_lt, putItem_length_lt.
Qed.

Lemma member_assign (lvl : tree) (n : nnote) (v : tree) :
  hasOwn lvl n = true -> exists lvl', assign lvl n v = Ok lvl'.
Proof.
  destruct lvl as [s|props|items], n as [k|i|]; cbn [hasOwn assign];
    try discriminate; eauto.
Qed.

Lemma inspectGetLoop_step (note : string) (rest : list string) (n : nnote)
  (index : nat) (lvl : tree) (par : option tree) (res : InspectResult) :
  normalizeNote note = Ok n ->
  hasOwn lvl n = true ->
  inspectGetLoop (note :: rest) index lvl par res
  = inspectGetLoop rest (S index) (getProp lvl n) (Some (getProp lvl n))
      (mkResult true (getProp lvl n) (typeOf (getProp lvl n)) (S index)
         (Some note) (Some n) false).
Proof.
  intros N O. cbn [inspectGetLoop]. rewrite N. cbn [bind]. now rewrite O.
Qed.

Lemma plain_takes (lvl lvl' : tree) (note : string) (n : nnote) (v : tree) :
  normalizeNote note = Ok n ->
  plainNote note = true ->
  negb (isNumber n) || isArray lvl = true ->
  assign lvl n v = Ok lvl' ->
  takes lvl n = true.
Proof.
  unfold plainNote. intros ->.
  destruct lvl as [s|props|items], n as [k|i|];
    cbn [isNumber isArray negb orb assign takes]; try discriminate; auto.
  intros ->. reflexivity.
Qed.

Lemma indexed_fresh (next : string) (rest : list string) (n' : nnote) :
  normalizeNote next = Ok n' ->
  indexed (next :: rest) (if isNumber n' then Arr [] else Obj []) = true.
Proof.
  intros N. cbn [indexed]. rewrite N.
  destruct n' as [k|i|]; cbn [isNumber isArray negb orb andb member lookup];
    try reflexivity.
  now destruct i.
Qed.

Lemma indexed_step (note : string) (rest : list string) (n : nnote)
  (lvl : tree) :
  normalizeNote note = Ok n ->
  indexed (note :: rest) lvl = true ->
  negb (isNumber n) || isArray lvl = true
  /\ (hasOwn lvl n = true -> indexed rest (getProp lvl n) = true).
Proof.
  intros N. cbn [indexed]. rewrite N, member_spec.
  intros H. apply andb_true_iff in H as [H1 H2]. split; [exact H1|].
  intros O. now rewrite O in H2.
Qed.

Lemma setLoop_read (notes : list string) :
  notes <> [] ->
  forall lvl lvl' v,
    forallb plainNote notes = true ->
    indexed notes lvl = true ->
    setLoop notes lvl v Overwrite = Ok lvl' ->
    forall index par res,
    exists res' par',
      inspectGetLoop notes index lvl' par res = Ok (res', par')
      /\ has res' = true /\ value res' = v.
Proof.
  induction notes as [|note rest IH]; [congruence|].
  intros _ lvl lvl' v P I S index par res.
  cbn [forallb] in P. apply andb_true_iff in P as [P1 P2].
  cbn [setLoop] in S.
  destruct (normalizeNote note) as [n|] eqn:N; [|discriminate].
  cbn [bind] in S.
  destruct (indexed_step _ _ _ _ N I) as [I1 I2].
  destruct rest as [|next rest'].
  - (* the last note *)
    cbn [bind] in S.
    destruct (isArray lvl && negb (isNumber n)); [discriminate|].
    assert (A : assign lvl n v = Ok lvl').
    { destruct (hasOwn lvl n); [exact S|].
      rewrite andb_false_r in S.
      destruct (assign lvl n v); cbn [bind] in S; congruence. }
    destruct (assign_member _ _ _ _ (plain_takes _ _ _ _ _ N P1 I1 A) A)
      as [O G].
    rewrite (inspectGetLoop_step _ _ _ _ _ _ _ N O). cbn [inspectGetLoop].
    eexists _, _. split; [reflexivity|]. split; [reflexivity | exact G].
  - (* an inner note *)
    destruct (normalizeNote next) as [n'|] eqn:N'; [|discriminate].
    cbn [bind] in S.
    destruct (isArray lvl && negb (isNumber n)); [discriminate|].
    assert (NE : next :: rest' <> []) by discriminate.
    assert (A : exists from child,
               indexed (next :: rest') from = true
               /\ setLoop (next :: rest') from v Overwrite = Ok child
               /\ hasOwn lvl' n = true /\ getProp lvl' n = child).
    { destruct (hasOwn lvl n) eqn:O.
      - destruct (setLoop (next :: rest') (getProp lvl n) v Overwrite)
          as [child|] eqn:C; [|discriminate].
        cbn [bind] in S.
        destruct (assign_member _ _ _ _ (hasOwn_takes _ _ O) S).
        exists (getProp lvl n), child. auto.
      - cbn [andb] in S.
        destruct (assign lvl n _) as [lvl1|] eqn:A1; [|discriminate].
        cbn [bind] in S.
        destruct (setLoop (next :: rest') _ v Overwrite)
          as [child|] eqn:C; [|discriminate].
        cbn [bind] in S.
        destruct (assign_member _ _ _ _ (plain_takes _ _ _ _ _ N P1 I1 A1) A1)
          as [O1 _].
        destruct (assign_member _ _ _ _ (hasOwn_takes _ _ O1) S).
        eexists _, child. split; [apply (indexed_fresh _ _ _ N')|]. auto. }
    destruct A as (from & child & I' & C & O & G).
    rewrite (inspectGetLoop_step _ _ _ _ _ _ _ N O), G.
    apply (IH NE from child v P2 I' C).
Qed.

(** C5, as the specification words it, fails on three kinds of note.
    The key __proto__: the write reaches the setter of the prototype and
    leaves no own member, so set completes and get finds nothing.  An
    index note on a map: the write makes the key of the decimal text,
    but an index is no member of a map.  The empty quoted key: the note
    normalizes to undefined, the write makes the key of the text
    undefined, and the undefined note is no member of any level. *)
Lemma get_after_set_counterexample :
  (set (Obj []) ["__proto__"] (Leaf (Num 1)) Overwrite = Ok (Obj [])
   /\ get DEFAULT_OPTS (Obj []) ["__proto__"] None = Ok undefined)
  /\ (set (Obj []) ["[0]"] (Leaf (Num 1)) Overwrite
      = Ok (Obj [("0", Leaf (Num 1))])
      /\ get DEFAULT_OPTS (Obj [("0", Leaf (Num 1))]) ["[0]"] None
         = Ok undefined)
  /\ (set (Obj []) ["['']"] (Leaf (Num 1)) Overwrite
      = Ok (Obj [("undefined", Leaf (Num 1))])
      /\ get DEFAULT_OPTS (Obj [("undefined", Leaf (Num 1))]) ["['']"] None
         = Ok undefined).
Proof. repeat split; vm_compute; reflexivity. Qed.

(** C5 (amended): once set(p, v) in overwrite mode has completed on a
    tree, get(p) on the tree it leaves answers v, whatever the options
    and the default, when every note of p is an index below 2^32 - 1
    or a key other than __proto__ and the empty quoted key, and every
    index note of p that meets a level of the tree meets a list. *)
Theorem get_after_set (opts : options) (T T' : tree) (p : notation) (v : tree)
  (defaultValue : option tree) :
  forallb plainNote p = true ->
  indexed p T = true ->
  set T p v Overwrite = Ok T' ->
  get opts T' p defaultValue = Ok v.
Proof.
  intros P I.
  unfold set, split. destruct (isValid p) eqn:V; [|discriminate].
  cbn [bind]. intros S.
  assert (NE : p <> []) by (destruct p; [discriminate | congruence]).
  destruct (setLoop_read _ NE _ _ _ P I S 0 None
              (mkResult false undefined TUndefined 0 None None false))
    as (res & par & L & H & E).
  unfold get, inspectGet, split. rewrite V. cbn [bind]. rewrite L.
  cbn [bind has value]. rewrite H, E, andb_false_r. reflexivity.
Qed.

Lemma get_after_set_witness :
  get DEFAULT_OPTS
    (Obj [("car", Obj [("colors", Arr [None; Some (Leaf (Str "red"))])])])
    ["car"; "colors"; "[1]"] None
  = Ok (Leaf (Str "red")).
Proof.
  exact (@get_after_set DEFAULT_OPTS (Obj []) _ ["car"; "colors"; "[1]"]
           (Leaf (Str "red")) None eq_refl eq_refl eq_refl).
Defined.

(** *** Removing a member *)

Lemma lookup_dropProp (k : string) (props : list (string * tree)) :
  lookup k (dropProp k props) = None.
Proof.
  induction props as [|[k' v'] rest IH]; cbn [dropProp lookup]; [reflexivity|].
  destruct (String.eqb k k') eqn:E; [exact IH|].
  cbn [lookup]. now rewrite E.
Qed.

Lemma holeAt_length (i : nat) (items : list (option tree)) :
  List.length (holeAt i items) = List.length items.
Proof.
  revert items. induction i as [|i IH]; intros [|x rest]; cbn; auto.
Qed.

Lemma nth_holeAt (i : nat) (items : list (option tree)) (v : tree) :
  nth_error (holeAt i items) i <> Some (Some v).
Proof.
  revert items. induction i as [|i IH]; intros [|x rest]; cbn; try discriminate.
  apply IH.
Qed.

Lemma getProp_deleteProp (par : tree) (n : nnote) :
  isArray par = true -> getProp (deleteProp par n) n = undefined.
Proof.
  destruct par as [s|props|items]; try discriminate. intros _.
  destruct n as [k|i|]; try reflexivity. cbn [deleteProp getProp].
  destruct (nth_error (holeAt i items) i) as [[v|]|] eqn:E; try reflexivity.
  now apply nth_holeAt in E.
Qed.

Lemma holeAt_holeAt (i : nat) (items : list (option tree)) :
  holeAt i (holeAt i items) = holeAt i items.
Proof.
  revert items. induction i as [|i IH]; intros [|x rest]; cbn; auto.
  now rewrite IH.
Qed.

Lemma dropProp_dropProp (k : string) (props : list (string * tree)) :
  dropProp k (dropProp k props) = dropProp k props.
Proof.
  induction props as [|[k' v'] rest IH]; cbn [dropProp]; [reflexivity|].
  destruct (String.eqb k k') eqn:E; [exact IH|].
  cbn [dropProp]. now rewrite E, IH.
Qed.

(** After delete, a key is no member of a map; an index of a list stays
    below the length, the member it was. *)
Lemma hasOwn_deleteProp (par : tree) (n : nnote) :
  hasOwn (deleteProp par n) n = isArray par && hasOwn par n.
Proof.
  destruct par as [s|props|items], n as [k|i|];
    cbn [deleteProp hasOwn isArray andb propKey]; try reflexivity.
  - now rewrite lookup_dropProp.
  - now rewrite holeAt_length.
Qed.

Lemma deleteProp_deleteProp (par : tree) (n : nnote) :
  deleteProp (deleteProp par n) n = deleteProp par n.
Proof.
  destruct par as [s|props|items], n as [k|i|]; cbn [deleteProp];
    rewrite ?dropProp_dropProp, ?holeAt_holeAt; reflexivity.
Qed.

Lemma isArray_deleteProp (par : tree) (n : nnote) :
  isArray (deleteProp par n) = isArray par.
Proof. destruct par, n; reflexivity. Qed.

Lemma inspectGetLoop_walk (notes : list string) :
  notes <> [] ->
  forall index lvl par res res' par',
    inspectGetLoop notes index lvl par res = Ok (res', par') ->
    match walk notes lvl with
    | Some v => has res' = true /\ value res' = v
    | None => has res' = false
    end.
Proof.
  induction notes as [|note rest IH]; [congruence|].
  intros _ index lvl par res res' par' H.
  cbn [inspectGetLoop walk] in *.
  destruct (normalizeNote note) as [n|]; [|discriminate].
  cbn [bind] in H.
  destruct (hasOwn lvl n).
  - destruct rest as [|next rest'].
    + cbn [inspectGetLoop walk] in *. injection H as <- _. now split.
    + apply (IH ltac:(discriminate) _ _ _ _ _ _ H).
  - now injection H as <- _.
Qed.

Lemma walk_inspectGetLoop (notes : list string) :
  forall index lvl par res v,
    walk notes lvl = Some v ->
    exists res' par', inspectGetLoop notes index lvl par res = Ok (res', par').
Proof.
  induction notes as [|note rest IH]; intros index lvl par res v W.
  - cbn. eauto.
  - cbn [walk inspectGetLoop] in *.
    destruct (normalizeNote note) as [n|]; [|discriminate].
    cbn [bind]. destruct (hasOwn lvl n); [|discriminate].
    eapply IH, W.
Qed.

(** get with a default never throws on a valid notation: the value the
    notes lead to, or the default. *)
Lemma get_default (opts : options) (T : tree) (pn : notation) (d par : tree) :
  pn <> [] ->
  get opts T pn (Some d) = Ok par ->
  par = match walk pn T with Some v => v | None => d end.
Proof.
  intros NE. unfold get, inspectGet, split.
  destruct (isValid pn); [|discriminate]. cbn [bind].
  destruct (inspectGetLoop pn 0 T None _) as [[res par']|] eqn:L;
    [|discriminate].
  cbn [bind has value]. rewrite andb_false_r.
  pose proof (inspectGetLoop_walk _ NE _ _ _ _ _ _ L) as W.
  destruct (walk pn T) as [v|].
  - destruct W as [-> ->]. now intros [= <-].
  - rewrite W. now intros [= <-].
Qed.

Lemma walk_get (opts : options) (T : tree) (pn : notation) (d v : tree) :
  isValid pn = true ->
  walk pn T = Some v ->
  get opts T pn (Some d) = Ok v.
Proof.
  intros V W.
  assert (NE : pn <> []) by (destruct pn; [discriminate | congruence]).
  unfold get, inspectGet, split. rewrite V. cbn [bind].
  destruct (walk_inspectGetLoop pn 0 T None
              (mkResult false undefined TUndefined 0 None None false) v W)
    as (res & par & L).
  rewrite L. cbn [bind has value]. rewrite andb_false_r.
  pose proof (inspectGetLoop_walk _ NE _ _ _ _ _ _ L) as W'.
  rewrite W in W'. destruct W' as [-> ->]. reflexivity.
Qed.

Lemma modifyAt_walk (pn : list string) (f : tree -> tree) :
  forall lvl par,
    walk pn lvl = Some par ->
    exists lvl', modifyAt pn f lvl = Ok lvl' /\ walk pn lvl' = Some (f par).
Proof.
  induction pn as [|note rest IH]; intros lvl par W.
  - cbn in *. injection W as <-. eauto.
  - cbn [walk] in W. cbn [modifyAt].
    destruct (normalizeNote note) as [n|] eqn:N; [|discriminate].
    cbn [bind]. destruct (hasOwn lvl n) eqn:O; [|discriminate].
    destruct (IH _ _ W) as (child & M & W').
    rewrite M. cbn [bind].
    destruct (member_assign lvl n child O) as [lvl' A].
    exists lvl'. split; [exact A|].
    destruct (assign_member _ _ _ _ (hasOwn_takes _ _ O) A) as [O' G].
    cbn [walk]. rewrite N, O', G. exact W'.
Qed.

Lemma isValid_removelast (notes : notation) :
  isValid notes = true -> removelast notes <> [] ->
  isValid (removelast notes) = true.
Proof.
  intros V NE. unfold isValid in *.
  destruct (removelast notes) eqn:R; [congruence|]. rewrite <- R.
  destruct notes as [|a rest]; [discriminate|].
  clear NE R. revert a V.
  induction rest as [|b rest IH]; intros a V; [reflexivity|].
  cbn [removelast forallb] in *.
  apply andb_true_iff in V as [V1 V2]. rewrite V1. cbn [andb].
  apply (IH b V2).
Qed.

Lemma hasOwn_collection (lvl : tree) (n : nnote) :
  hasOwn lvl n = true -> isCollection lvl = true.
Proof. destruct lvl; [discriminate | reflexivity | reflexivity]. Qed.

Lemma walk_collection (pn : list string) :
  forall lvl par,
    walk pn lvl = Some par -> isCollection par = true ->
    isCollection lvl = true.
Proof.
  destruct pn as [|note rest]; intros lvl par W C.
  - cbn in W. now injection W as ->.
  - cbn [walk] in W. destruct (normalizeNote note) as [n|]; [|discriminate].
    destruct (hasOwn lvl n) eqn:O; [|discriminate].
    apply (hasOwn_collection _ _ O).
Qed.

(** Putting a container back where it was read changes nothing. *)
Lemma assign_back (lvl : tree) (n : nnote) :
  hasOwn lvl n = true -> isCollection (getProp lvl n) = true ->
  assign lvl n (getProp lvl n) = Ok lvl.
Proof.
  destruct lvl as [s|props|items], n as [k|i|]; cbn [hasOwn]; try discriminate.
  - cbn [assign getProp propKey]. unfold writeKey.
    destruct (lookup k props) as [v|] eqn:L; [|discriminate].
    intros _ _. rewrite andb_false_r. f_equal. f_equal.
    clear -L. induction props as [|[k' v'] rest IH]; [discriminate|].
    cbn [lookup putProp] in *. destruct (String.eqb k k') eqn:E.
    + injection L as ->. apply String.eqb_eq in E. now subst.
    + now rewrite (IH L).
  - intros _. cbn [assign getProp].
    destruct (nth_error items i) as [[v|]|] eqn:E; try discriminate.
    intros _. f_equal. f_equal. clear -E. revert items E.
    induction i as [|i IH]; intros [|x rest] E; try discriminate.
    + cbn in *. now injection E as ->.
    + cbn in *. now rewrite (IH _ E).
Qed.

(** A change that leaves the container at the notation as it is leaves
    the tree as it is. *)
Lemma modifyAt_fix (pn : list string) (f : tree -> tree) :
  forall lvl par,
    walk pn lvl = Some par -> isCollection par = true -> f par = par ->
    modifyAt pn f lvl = Ok lvl.
Proof.
  induction pn as [|note rest IH]; intros lvl par W C F.
  - cbn in *. injection W as <-. now rewrite F.
  - cbn [walk] in W. cbn [modifyAt].
    destruct (normalizeNote note) as [n|] eqn:N; [|discriminate].
    cbn [bind]. destruct (hasOwn lvl n) eqn:O; [|discriminate].
    rewrite (IH _ _ W C F). cbn [bind].
    apply (assign_back _ _ O), (walk_collection _ _ _ W C).
Qed.

(** C4, as the specification words it, fails under a list parent with
    preserveIndices off: the first remove splices the item out, the next
    item moves down to the index, and the second remove takes it. *)
Lemma remove_twice_list_counterexample :
  let T := Obj [("a", Arr [Some (Leaf (Num 1)); Some (Leaf (Num 2))])] in
  let p := ["a"; "[0]"] in
  exists r1 T1 r2 T2,
    inspectRemove DEFAULT_OPTS T p = Ok (r1, T1)
    /\ remove DEFAULT_OPTS T p = Ok T1
    /\ inspectRemove DEFAULT_OPTS T1 p = Ok (r2, T2)
    /\ has r2 = true
    /\ T1 = Obj [("a", Arr [Some (Leaf (Num 2))])]
    /\ T2 = Obj [("a", Arr [])]
    /\ T2 <> T1.
Proof.
  cbv zeta. eexists _, _, _, _.
  split; [vm_compute; reflexivity|].
  split; [vm_compute; reflexivity|].
  split; [vm_compute; reflexivity|].
  repeat split. discriminate.
Qed.

(** C4 (amended): when the parent of the path is not a list, or
    preserveIndices is on, a second remove of the same path leaves the
    tree as the first one left it.  Its inspection reports has:false
    when the parent is not a list.  Under a list parent with
    preserveIndices on, the first remove leaves a hole, the index stays
    below the length of the list, and the second inspection reports
    what the first did: has:true for an index that was a member.  The
    second remove returns the tree unless it is strict and the
    inspection reports has:false. *)
Theorem remove_idempotent (opts : options) (T T1 : tree) (notes : notation)
  (r1 : InspectResult) :
  inspectRemove opts T notes = Ok (r1, T1) ->
  preserveIndices opts = true \/ parentIsArray r1 = false ->
  exists r2,
    inspectRemove opts T1 notes = Ok (r2, T1)
    /\ has r2 = (parentIsArray r1 && has r1)
    /\ (parentIsArray r1 = false -> has r2 = false)
    /\ (strict opts = false \/ has r2 = true -> remove opts T1 notes = Ok T1).
Proof.
  intros H D.
  enough (E : exists r2, inspectRemove opts T1 notes = Ok (r2, T1)
                         /\ has r2 = (parentIsArray r1 && has r1)).
  { destruct E as (r2 & E & A). exists r2. split; [exact E|].
    split; [exact A|]. split; [intros F; now rewrite A, F|].
    intros S. unfold remove. rewrite E. cbn [bind].
    destruct S as [-> | ->]; [reflexivity | now rewrite andb_false_r]. }
  revert H. unfold inspectRemove, parent, split.
  destruct (isValid notes) eqn:V; [|discriminate]. cbn [bind].
  destruct (removelast notes) as [|p0 pr] eqn:RL; cbn [bind].
  - (* a single note: the parent is the source *)
    destruct (normalizeNote (last notes "")) as [n|]; [|discriminate].
    cbn [bind].
    destruct (hasOwn T n) eqn:O.
    + intros [= <- <-]. cbn [parentIsArray has] in *.
      assert (C : negb (preserveIndices opts) && isArray T = false)
        by (destruct D as [-> | ->]; [reflexivity | apply andb_false_r]).
      rewrite C, hasOwn_deleteProp, O, isArray_deleteProp, C.
      destruct (isArray T); cbn [andb].
      * rewrite deleteProp_deleteProp. eexists. split; reflexivity.
      * eexists. split; reflexivity.
    + intros [= <- <-]. rewrite O. cbn [parentIsArray has].
      rewrite andb_false_r. eexists. split; reflexivity.
  - (* the parent is read through get *)
    set (pn := p0 :: pr) in *.
    assert (NE : pn <> []) by discriminate.
    assert (Vp : isValid pn = true).
    { subst pn. rewrite <- RL. apply isValid_removelast; [exact V|].
      rewrite RL. discriminate. }
    destruct (get opts T pn (Some (Leaf Null))) as [par|] eqn:G;
      [|discriminate].
    cbn [bind].
    destruct (normalizeNote (last notes "")) as [n|]; [|discriminate].
    cbn [bind].
    destruct (hasOwn par n) eqn:O.
    + pose proof (get_default _ _ _ _ _ NE G) as P.
      destruct (walk pn T) as [v|] eqn:W;
        [subst v | subst par; discriminate O].
      set (cut := fun p : tree =>
             if negb (preserveIndices opts) && isArray par
             then spliceOut p n else deleteProp p n).
      destruct (modifyAt_walk pn cut _ _ W) as (T1' & M & W1).
      rewrite M. cbn [bind]. intros [= <- <-]. cbn [parentIsArray has] in *.
      assert (C : negb (preserveIndices opts) && isArray par = false)
        by (destruct D as [-> | ->]; [reflexivity | apply andb_false_r]).
      assert (Ec : cut par = deleteProp par n) by (unfold cut; now rewrite C).
      rewrite Ec in W1.
      rewrite (walk_get opts _ _ (Leaf Null) _ Vp W1). cbn [bind].
      rewrite hasOwn_deleteProp, O, isArray_deleteProp, C.
      destruct (isArray par) eqn:A; cbn [andb].
      * rewrite (modifyAt_fix pn _ _ _ W1); cbn [bind].
        -- eexists. split; reflexivity.
        -- destruct par as [x| |]; [discriminate | reflexivity |].
           now destruct n.
        -- apply deleteProp_deleteProp.
      * eexists. split; reflexivity.
    + intros [= <- <-]. rewrite G. cbn [bind]. rewrite O.
      cbn [parentIsArray has]. rewrite andb_false_r.
      eexists. split; reflexivity.
Qed.

Lemma remove_idempotent_witness :
  let T := Obj [("car", Obj [("brand", Leaf (Str "Dodge"));
                             ("model", Leaf (Str "Charger"))])] in
  let T1 := Obj [("car", Obj [("brand", Leaf (Str "Dodge"))])] in
  exists r2,
    inspectRemove DEFAULT_OPTS T1 ["car"; "model"] = Ok (r2, T1)
    /\ has r2 = false
    /\ (false = false -> has r2 = false)
    /\ (strict DEFAULT_OPTS = false \/ has r2 = true ->
        remove DEFAULT_OPTS T1 ["car"; "model"] = Ok T1).
Proof.
  exact (@remove_idempotent DEFAULT_OPTS
           (Obj [("car", Obj [("brand", Leaf (Str "Dodge"));
                              ("model", Leaf (Str "Charger"))])])
           _ ["car"; "model"] _ eq_refl (or_intror eq_refl)).
Defined.

End AccessorProperties.

Section RoundTrip.

Import Utils Notation.

Section TreeInduction.
Variable P : tree -> Prop.
Hypothesis HLeaf : forall v, P (Leaf v).
Hypothesis HObj :
  forall props, Forall (fun kv => P (snd kv)) props -> P (Obj props).
Hypothesis HArr :
  forall items,
    Forall (fun it => match it with Some t => P t | None => True end) items ->
    P (Arr items).

Fixpoint tree_nested_ind (t : tree) : P t :=
  match t with
  | Leaf v => HLeaf v
  | Obj props =>
      HObj props
        ((fix go (ps : list (string * tree))
            : Forall (fun kv => P (snd kv)) ps :=
            match ps with
            | [] => Forall_nil _
            | kv :: rest => Forall_cons kv (tree_nested_ind (snd kv)) (go rest)
            end) props)
  | Arr items =>
      HArr items
        ((fix go (its : list (option tree))
            : Forall (fun it => match it with Some t => P t | None => True end)
                its :=
            match its with
            | [] => Forall_nil _
            | it :: rest =>
                Forall_cons it
                  (match it as o
                     return match o with Some t => P t | None => True end
                   with
                   | Some t => tree_nested_ind t
                   | None => I
                   end) (go rest)
            end) items)
  end.
End TreeInduction.

Lemma _each_Obj (r : bool) (p : notation) (props : list (string * tree)) :
  _each r p (Obj props) = eachProps r p props.
Proof.
  cbn [_each]. induction props as [|[k v] rest IH]; [reflexivity|].
  cbn [eachProps]. rewrite <- IH. destruct v; reflexivity.
Qed.

Lemma _each_Arr (r : bool) (p : notation) (items : list (option tree)) :
  _each r p (Arr items)
  = concat (if r then rev (eachItems r p 0 items) else eachItems r p 0 items).
Proof.
  cbn [_each].
  match goal with
  | |- concat (if r then rev (?f 0 items) else _) = _ =>
      assert (G : forall its i, f i its = eachItems r p i its)
  end.
  { induction its as [|it rest IH]; intros i; [reflexivity|].
    cbn [eachItems]. rewrite <- IH. destruct it as [[x|ps|its']|]; reflexivity. }
  now rewrite G.
Qed.

(** *** Notes of keys and of indices *)

Lemma normalizeNote_VAR (k : string) :
  VAR k = true -> normalizeNote k = Ok (NKey k).
Proof. unfold normalizeNote. now intros ->. Qed.

Lemma dropLast_snoc (s : string) (c : ascii) :
  dropLast (s ++ String c EmptyString) = Some (s, c).
Proof.
  induction s as [|a s IH]; [reflexivity|].
  cbn [String.append dropLast]. now rewrite IH.
Qed.

Lemma string_of_uint_nonempty (i : nat) :
  NilEmpty.string_of_uint (Nat.to_uint i) <> EmptyString.
Proof.
  intros E. pose proof (NilEmpty.usu (Nat.to_uint i)) as U.
  rewrite E in U. cbn in U. injection U as U.
  pose proof (DecimalNat.Unsigned.of_to i) as O. rewrite <- U in O.
  cbn in O. subst i. discriminate U.
Qed.

Lemma normalizeNote_index (i : nat) : normalizeNote (indexNote i) = Ok (NIdx i).
Proof.
  unfold normalizeNote, indexNote.
  cbn [String.append VAR isVarStart]. 
  replace (isLetter "[" || Ascii.eqb "[" "$" || Ascii.eqb "[" "_") with false
    by reflexivity.
  cbn [andb]. unfold ARRAY_NOTE, bracketed.
  cbn [String.append]. rewrite dropLast_snoc. unfold digits.
  pose proof (string_of_uint_nonempty i) as NE.
  destruct (NilEmpty.string_of_uint (Nat.to_uint i)) eqn:E; [congruence|].
  rewrite <- E, NilEmpty.usu, DecimalNat.Unsigned.of_to. reflexivity.
Qed.

Lemma validNote_VAR (k : string) : VAR k = true -> validNote k = true.
Proof. unfold validNote. now intros ->. Qed.

Lemma validNote_index (i : nat) : validNote (indexNote i) = true.
Proof.
  pose proof (normalizeNote_index i) as N. unfold normalizeNote in N.
  unfold validNote. destruct (VAR (indexNote i)); [reflexivity|].
  destruct (ARRAY_NOTE (indexNote i)); [reflexivity|].
  destruct (OBJECT_BRACKETS (indexNote i)); [reflexivity | discriminate].
Qed.

(** *** Writing twice in one place *)

Lemma putProp_putProp (k : string) (x y : tree) (l : list (string * tree)) :
  putProp k y (putProp k x l) = putProp k y l.
Proof.
  induction l as [|[k' v'] rest IH]; cbn [putProp].
  - now rewrite String.eqb_refl.
  - destruct (String.eqb k k') eqn:E; cbn [putProp].
    + now rewrite String.eqb_refl.
    + now rewrite E, IH.
Qed.

Lemma putItem_putItem (i : nat) (x y : tree) (l : list (option tree)) :
  putItem i y (putItem i x l) = putItem i y l.
Proof.
  revert l. induction i as [|i IH]; intros [|a rest]; cbn [putItem];
    try reflexivity; now rewrite IH.
Qed.

Lemma assign_assign (lvl lvl1 : tree) (n : nnote) (x y : tree) :
  assign lvl n x = Ok lvl1 -> assign lvl1 n y = assign lvl n y.
Proof.
  destruct lvl as [s|props|items]; cbn [assign]; [discriminate| |].
  - intros [= <-]. cbn [assign]. unfold writeKey.
    destruct (String.eqb (propKey n) "__proto__"); cbn [andb];
      [|now rewrite putProp_putProp].
    destruct (lookup (propKey n) props) eqn:L; cbn [andb]; [|now rewrite L].
    now rewrite lookup_putProp, putProp_putProp.
  - destruct n; try discriminate. intros [= <-]. cbn [assign].
    now rewrite putItem_putItem.
Qed.

Lemma putProp_same (k : string) (v : tree) (l : list (string * tree)) :
  lookup k l = Some v -> putProp k v l = l.
Proof.
  induction l as [|[k' v'] rest IH]; cbn [lookup putProp]; [discriminate|].
  destruct (String.eqb k k') eqn:E.
  - intros [= ->]. apply String.eqb_eq in E. now subst.
  - intros H. now rewrite IH.
Qed.

Lemma putItem_same (i : nat) (v : tree) (l : list (option tree)) :
  nth_error l i = Some (Some v) -> putItem i v l = l.
Proof.
  revert l. induction i as [|i IH]; intros [|a rest]; cbn; try discriminate.
  - now intros [= ->].
  - intros H. now rewrite IH.
Qed.

(** A level that holds at a note what a write has put there: the same
    write again changes nothing. *)
Lemma assign_settled (lvl0 lvl : tree) (n : nnote) (c : tree) :
  takes lvl0 n = true -> assign lvl0 n c = Ok lvl ->
  assign lvl n (getProp lvl n) = Ok lvl.
Proof.
  intros K A. destruct (assign_member _ _ _ _ K A) as [_ ->].
  now rewrite (assign_assign _ _ _ _ _ A).
Qed.

Lemma isArray_assign (lvl lvl' : tree) (n : nnote) (v : tree) :
  assign lvl n v = Ok lvl' -> isArray lvl' = isArray lvl.
Proof.
  destruct lvl as [s|props|items]; cbn [assign]; [discriminate| |].
  - now intros [= <-].
  - destruct n; try discriminate. now intros [= <-].
Qed.

(** *** One write below a note *)

Lemma setLoop_present (k : string) (q : list string) (n : nnote)
  (lvl v : tree) (mode : setMode) :
  q <> [] ->
  normalizeNote k = Ok n ->
  hasOwn lvl n = true ->
  isArray lvl && negb (isNumber n) = false ->
  setLoop (k :: q) lvl v mode
  = (child <- setLoop q (getProp lvl n) v mode ;; assign lvl n child).
Proof.
  intros NE N O A. destruct q as [|next rest]; [congruence|].
  cbn [setLoop]. rewrite N. cbn [bind].
  destruct (normalizeNote next) as [n'|e] eqn:N'; cbn [bind].
  - now rewrite A, O.
  - reflexivity.
Qed.

Lemma setLoop_absent (k next : string) (rest : list string) (n n' : nnote)
  (lvl v : tree) :
  normalizeNote k = Ok n ->
  normalizeNote next = Ok n' ->
  hasOwn lvl n = false ->
  isArray lvl && negb (isNumber n) = false ->
  setLoop (k :: next :: rest) lvl v Overwrite
  = (let fresh := if isNumber n' then Arr [] else Obj [] in
     lvl' <- assign lvl n fresh ;;
     child <- setLoop (next :: rest) fresh v Overwrite ;;
     assign lvl' n child).
Proof.
  intros N N' O A. 
  change (setLoop (k :: next :: rest) lvl v Overwrite)
    with (nCurrentNote <- normalizeNote k ;;
          nNextNote <- (n0 <- normalizeNote next ;; Ok (Some n0)) ;;
          if isArray lvl && negb (isNumber nCurrentNote) then Err TypeMismatch
          else if hasOwn lvl nCurrentNote then
            child <- setLoop (next :: rest) (getProp lvl nCurrentNote) v Overwrite ;;
            assign lvl nCurrentNote child
          else
            if false && negb (isArray lvl) && false then Err InsertOnNonList
            else
              let nextIsArrayNote :=
                match nNextNote with Some n0 => isNumber n0 | None => false end in
              let fresh := if nextIsArrayNote then Arr [] else Obj [] in
              lvl' <- assign lvl nCurrentNote fresh ;;
              child <- setLoop (next :: rest) fresh v Overwrite ;;
              assign lvl' nCurrentNote child).
  rewrite N, N'. cbn [bind]. rewrite A, O. reflexivity.
Qed.

Lemma setLoop_last (k : string) (n : nnote) (lvl v : tree) :
  normalizeNote k = Ok n ->
  hasOwn lvl n = false ->
  isArray lvl && negb (isNumber n) = false ->
  setLoop [k] lvl v Overwrite = assign lvl n v.
Proof.
  intros N O A. cbn [setLoop]. rewrite N. cbn [bind]. rewrite A, O.
  rewrite andb_false_r. now destruct (assign lvl n v).
Qed.

(** *** The writes of merge below one note *)

Lemma fill_under_present (k : string) (n : nnote) (E : list (notation * tree)) :
  normalizeNote k = Ok n ->
  Forall (fun e => fst e <> []) E ->
  forall lvl,
    hasOwn lvl n = true ->
    assign lvl n (getProp lvl n) = Ok lvl ->
    isArray lvl && negb (isNumber n) = false ->
    fill (map (under k) E) lvl
    = (child <- fill E (getProp lvl n) ;; assign lvl n child).
Proof.
  intros N. induction E as [|[q v] E' IH]; intros F lvl O B A.
  - cbn [map fill bind]. now rewrite B.
  - inversion F as [|? ? Fq F']; subst. cbn [fst] in Fq.
    cbn [map fill under fst snd].
    rewrite (setLoop_present k q n lvl v Overwrite Fq N O A).
    destruct (setLoop q (getProp lvl n) v Overwrite) as [child1|e];
      cbn [bind]; [|reflexivity].
    destruct (member_assign lvl n child1 O) as [lvl1 A1].
    rewrite A1. cbn [bind].
    pose proof (hasOwn_takes _ _ O) as K.
    destruct (assign_member _ _ _ _ K A1) as [O1 G1].
    rewrite (IH F' lvl1 O1 (assign_settled _ _ _ _ K A1)), G1
      by (now rewrite (isArray_assign _ _ _ _ A1)).
    destruct (fill E' child1) as [child|e]; cbn [bind]; [|reflexivity].
    apply (assign_assign _ _ _ _ _ A1).
Qed.

Lemma fill_under_absent (k h : string) (q : list string) (n n' : nnote)
  (v : tree) (E' : list (notation * tree)) (lvl : tree) :
  normalizeNote k = Ok n ->
  normalizeNote h = Ok n' ->
  hasOwn lvl n = false ->
  isArray lvl && negb (isNumber n) = false ->
  takes lvl n = true ->
  (forall x, exists l, assign lvl n x = Ok l) ->
  Forall (fun e => fst e <> []) E' ->
  fill (map (under k) ((h :: q, v) :: E')) lvl
  = (child <- fill ((h :: q, v) :: E') (if isNumber n' then Arr [] else Obj []) ;;
     assign lvl n child).
Proof.
  intros N N' O A K T F.
  cbn [map fill under fst snd].
  rewrite (setLoop_absent k h q n n' lvl v N N' O A). cbv zeta.
  set (fresh := if isNumber n' then Arr [] else Obj []).
  destruct (T fresh) as [lvl1 A1]. rewrite A1. cbn [bind].
  destruct (setLoop (h :: q) fresh v Overwrite) as [child1|e];
    cbn [bind]; [|reflexivity].
  rewrite (assign_assign _ _ _ _ child1 A1).
  destruct (T child1) as [lvl2 A2]. rewrite A2. cbn [bind].
  destruct (assign_member _ _ _ _ K A2) as [O2 G2].
  rewrite (fill_under_present k n E' N F lvl2 O2
             (assign_settled _ _ _ _ K A2)), G2
    by (now rewrite (isArray_assign _ _ _ _ A2)).
  destruct (fill E' child1) as [child|e]; cbn [bind]; [|reflexivity].
  apply (assign_assign _ _ _ _ _ A2).
Qed.

Lemma fill_app (E1 E2 : list (notation * tree)) (lvl : tree) :
  fill (E1 ++ E2) lvl = (lvl' <- fill E1 lvl ;; fill E2 lvl').
Proof.
  revert lvl. induction E1 as [|[q v] E1 IH]; intros lvl; [reflexivity|].
  cbn [app fill]. destruct (setLoop q lvl v Overwrite); cbn [bind]; auto.
Qed.

(** *** The notations of _each below a prefix *)

Lemma eachItems_below (r : bool) (p q : notation) (items : list (option tree)) :
  Forall (fun it => match it with
                    | Some t => forall r p q,
                        _each r (p ++ q) t = map (below p) (_each r q t)
                    | None => True
                    end) items ->
  forall i,
    eachItems r (p ++ q) i items = map (map (below p)) (eachItems r q i items).
Proof.
  induction 1 as [|it rest H _ IH]; intros i; [reflexivity|].
  cbn [eachItems map]. rewrite IH. f_equal.
  destruct it as [v|]; cbn [visitItem].
  - destruct v; cbn [visit map below fst snd];
      rewrite <- ?app_assoc; try reflexivity; apply H.
  - cbn [map below fst snd]. now rewrite <- app_assoc.
Qed.

Lemma each_below (t : tree) :
  forall r p q, _each r (p ++ q) t = map (below p) (_each r q t).
Proof.
  induction t as [v|props IH|items IH] using tree_nested_ind; intros r p q.
  - reflexivity.
  - rewrite !_each_Obj.
    induction IH as [|[k v] rest H _ IHrest]; [reflexivity|].
    cbn [eachProps]. rewrite map_app, IHrest. f_equal.
    cbn [snd] in H.
    destruct v; cbn [visit map below fst snd];
      rewrite <- ?app_assoc; try reflexivity; apply H.
  - rewrite !_each_Arr, (eachItems_below r p q items IH).
    destruct r; [rewrite <- map_rev|]; now rewrite concat_map.
Qed.

Lemma entry_below (k : string) (e : notation * string * tree) :
  entry (below [k] e) = under k (entry e).
Proof. reflexivity. Qed.

Lemma visit_entries (k : string) (c : tree) :
  map entry (visit false [] k c)
  = match c with
    | Leaf _ => [([k], c)]
    | _ => map (under k) (rel c)
    end.
Proof.
  assert (E : map entry (_each false [k] c) = map (under k) (rel c)).
  { change [k] with ([k] ++ []) at 1. rewrite each_below. unfold rel.
    rewrite !map_map. apply map_ext. intros e. apply entry_below. }
  destruct c; [reflexivity | exact E | exact E].
Qed.

(** *** The entries of one member *)

Lemma isValid_nonempty (E : list (notation * tree)) :
  Forall (fun e => isValid (fst e) = true) E ->
  Forall (fun e => fst e <> []) E.
Proof.
  apply Forall_impl. intros [p v]; cbn [fst]. now destruct p.
Qed.

Lemma wellNoted_under (k : string) (E : list (notation * tree)) :
  validNote k = true -> wellNoted E -> wellNoted (map (under k) E).
Proof.
  intros Vk [V D]. split.
  - apply Forall_map. revert V. apply Forall_impl.
    intros [p v]; cbn [under fst]. unfold isValid.
    destruct p; [discriminate|]. intros H. cbn [forallb] in *. now rewrite Vk.
  - clear V. induction E as [|[p v] E IH]; cbn [map under fst]; constructor.
    + inversion D as [|? ? N D']; subst. cbn [fst] in N. intros I. apply N.
      apply in_map_iff in I as ([p' v'] & Eq & I).
      apply in_map_iff in I as ([p'' v''] & Eq' & I).
      cbn [under fst snd] in *. subst. injection Eq' as <- <-.
      apply in_map_iff. exists (p'', v''). now split.
    + apply IH. now inversion D.
Qed.

Lemma member_entries (lvl c : tree) (k : string) (n : nnote) :
  refills c ->
  plain c = true ->
  validNote k = true ->
  normalizeNote k = Ok n ->
  hasOwn lvl n = false ->
  isArray lvl && negb (isNumber n) = false ->
  takes lvl n = true ->
  (forall x, exists l, assign lvl n x = Ok l) ->
  let E := map entry (visit false [] k c) in
  fill E lvl = assign lvl n c
  /\ wellNoted E
  /\ Forall (fun e => exists q, fst e = k :: q) E
  /\ (exists q v E', E = (k :: q, v) :: E').
Proof.
  intros IH Pc Vk N O A Tk T E. subst E. rewrite visit_entries.
  assert (Leaf_case : forall x,
    fill [([k], Leaf x)] lvl = assign lvl n (Leaf x)
    /\ wellNoted [([k], Leaf x)]
    /\ Forall (fun e => exists q, fst e = k :: q) [([k], Leaf x)]
    /\ (exists q v E', [([k], Leaf x)] = (k :: q, v) :: E')).
  { intros x. split; [|split; [|split]].
    - cbn [fill]. rewrite (setLoop_last k n lvl (Leaf x) N O A).
      now destruct (assign lvl n (Leaf x)).
    - split.
      + constructor; [|constructor]. cbn. now rewrite Vk.
      + cbn. constructor; [intros [] | constructor].
    - constructor; [|constructor]. now exists [].
    - now exists [], (Leaf x), []. }
  assert (Coll_case : isCollection c = true ->
    fill (map (under k) (rel c)) lvl = assign lvl n c
    /\ wellNoted (map (under k) (rel c))
    /\ Forall (fun e => exists q, fst e = k :: q) (map (under k) (rel c))
    /\ (exists q v E', map (under k) (rel c) = (k :: q, v) :: E')).
  { intros C. destruct (IH Pc C) as (F & W & (h & q & v & E' & n' & Eq & N' & K)).
    split; [|split; [|split]].
    - rewrite Eq.
      assert (NE : Forall (fun e => fst e <> []) E').
      { destruct W as [V _]. rewrite Eq in V. apply isValid_nonempty.
        now inversion V. }
      rewrite (fill_under_absent k h q n n' v E' lvl N N' O A Tk T NE).
      rewrite K, <- Eq.
      replace (if isArray c then Arr [] else Obj []) with (emptyLike c)
        by (now destruct c).
      now rewrite F.
    - now apply wellNoted_under.
    - apply Forall_map, Forall_forall. intros [p w] _. now exists p.
    - rewrite Eq. cbn [map under fst snd].
      now exists (h :: q), v, (map (under k) E'). }
  destruct c as [x|ps|its]; [apply Leaf_case | |]; now apply Coll_case.
Qed.

(** *** The entries of a map and of a list *)

Lemma putProp_fresh (k : string) (c : tree) (done : list (string * tree)) :
  lookup k done = None -> putProp k c done = done ++ [(k, c)].
Proof.
  induction done as [|[k' v'] rest IH]; cbn [lookup putProp app]; [reflexivity|].
  destruct (String.eqb k k'); [discriminate|]. intros H. now rewrite IH.
Qed.

Lemma lookup_snoc (k k' : string) (c : tree) (done : list (string * tree)) :
  lookup k' done = None -> k' <> k -> lookup k' (done ++ [(k, c)]) = None.
Proof.
  intros L NE. induction done as [|[k0 v0] rest IH]; cbn [lookup app] in *.
  - apply String.eqb_neq in NE. now rewrite NE.
  - destruct (String.eqb k' k0); [discriminate | auto].
Qed.

Lemma distinct_cons (k : string) (ks : list string) :
  distinct (k :: ks) = true -> ~ In k ks /\ distinct ks = true.
Proof.
  cbn [distinct]. intros H. apply andb_true_iff in H as [H1 H2].
  split; [|exact H2]. intros I.
  apply negb_true_iff in H1.
  assert (X : existsb (String.eqb k) ks = true)
    by (apply existsb_exists; exists k; split; [exact I | apply String.eqb_refl]).
  congruence.
Qed.

Lemma putItem_length (c : tree) (done : list (option tree)) :
  putItem (List.length done) c done = done ++ [Some c].
Proof.
  induction done as [|x rest IH]; cbn [List.length putItem app]; [reflexivity|].
  now rewrite IH.
Qed.

Lemma NoDup_heads (A B : list (notation * tree)) (inA inB : string -> Prop) :
  NoDup (map fst A) -> NoDup (map fst B) ->
  Forall (fun e => exists k q, fst e = k :: q /\ inA k) A ->
  Forall (fun e => exists k q, fst e = k :: q /\ inB k) B ->
  (forall k, inA k -> inB k -> False) ->
  NoDup (map fst (A ++ B)).
Proof.
  intros DA DB HA HB X. rewrite map_app. apply NoDup_app; try assumption.
  intros a IA IB.
  apply in_map_iff in IA as (ea & EqA & IA).
  apply in_map_iff in IB as (eb & EqB & IB).
  rewrite Forall_forall in HA, HB.
  destruct (HA _ IA) as (k & q & Ea & Ka).
  destruct (HB _ IB) as (k' & q' & Eb & Kb).
  assert (Eq : k :: q = k' :: q')
    by (rewrite <- Ea, <- Eb; exact (eq_trans EqA (eq_sym EqB))).
  injection Eq as -> _. eauto.
Qed.

Lemma props_entries (props : list (string * tree)) :
  Forall (fun kv => refills (snd kv)) props ->
  forallb (fun kv => keyName (fst kv) && plain (snd kv)) props = true ->
  distinct (map fst props) = true ->
  forall done,
    (forall k, In k (map fst props) -> lookup k done = None) ->
    let E := map entry (eachProps false [] props) in
    fill E (Obj done) = Ok (Obj (done ++ props))
    /\ wellNoted E
    /\ Forall (fun e => exists k q, fst e = k :: q /\ In k (map fst props)) E.
Proof.
  induction 1 as [|[k c] rest Hc _ IH]; intros Pl Di done Fr; cbv zeta.
  - cbn. rewrite app_nil_r. repeat split; constructor.
  - cbn [forallb fst snd] in Pl.
    apply andb_true_iff in Pl as [Pk Pl].
    apply andb_true_iff in Pk as [Vk Pc].
    apply andb_true_iff in Vk as [Vk Nk'].
    cbn [map fst] in Di. apply distinct_cons in Di as [Nk Di].
    cbn [snd] in Hc.
    assert (L : lookup k done = None) by (apply Fr; now left).
    destruct (member_entries (Obj done) c k (NKey k) Hc Pc
                (validNote_VAR k Vk) (normalizeNote_VAR k Vk))
      as (F & [V D] & H & _).
    { cbn [hasOwn propKey]. now rewrite L. }
    { reflexivity. }
    { cbn [takes]. now rewrite Nk'. }
    { intros x. cbn [assign]. eauto. }
    cbn [assign propKey] in F. unfold writeKey in F.
    apply negb_true_iff in Nk'. rewrite Nk' in F. cbn [andb] in F.
    rewrite (putProp_fresh k c done L) in F.
    destruct (IH Pl Di (done ++ [(k, c)])) as (F' & [V' D'] & H').
    { intros k' I. apply lookup_snoc; [apply Fr; now right|].
      intros ->. contradiction. }
    cbn [eachProps]. rewrite map_app.
    split; [|split; [split|]].
    + rewrite fill_app, F. cbn [bind]. rewrite F'.
      now rewrite <- app_assoc.
    + apply Forall_app. now split.
    + apply (NoDup_heads _ _ (fun x => x = k) (fun x => In x (map fst rest)));
        try assumption.
      * revert H. apply Forall_impl. intros e [q Eq]. eauto.
      * intros x -> I. contradiction.
    + apply Forall_app. split.
      * revert H. apply Forall_impl. intros e [q Eq].
        exists k, q. split; [exact Eq | now left].
      * revert H'. apply Forall_impl. intros e (k' & q & Eq & I).
        exists k', q. split; [exact Eq | now right].
Qed.

Lemma indexNote_inj (i j : nat) : indexNote i = indexNote j -> i = j.
Proof.
  intros E. pose proof (normalizeNote_index i) as Ni.
  rewrite E, normalizeNote_index in Ni. now injection Ni.
Qed.

Lemma hasOwn_past_end (done : list (option tree)) :
  hasOwn (Arr done) (NIdx (List.length done)) = false.
Proof. cbn [hasOwn]. apply Nat.ltb_irrefl. Qed.

Lemma items_entries (items : list (option tree)) :
  Forall (fun it => match it with Some t => refills t | None => True end)
    items ->
  forallb (fun it => match it with Some v => plain v | None => false end) items
  = true ->
  forall done,
    let E := map entry (concat (eachItems false [] (List.length done) items)) in
    fill E (Arr done) = Ok (Arr (done ++ items))
    /\ wellNoted E
    /\ Forall (fun e => exists k q, fst e = k :: q
                 /\ exists j, k = indexNote j /\ List.length done <= j) E.
Proof.
  induction 1 as [|it rest Hc _ IH]; intros Pl done; cbv zeta.
  - cbn. rewrite app_nil_r. repeat split; constructor.
  - cbn [forallb] in Pl. apply andb_true_iff in Pl as [Pc Pl].
    destruct it as [c|]; [|discriminate].
    set (i := List.length done).
    destruct (member_entries (Arr done) c (indexNote i) (NIdx i) Hc Pc
                (validNote_index i) (normalizeNote_index i))
      as (F & [V D] & H & _).
    { apply hasOwn_past_end. }
    { reflexivity. }
    { reflexivity. }
    { intros x. cbn [assign]. eauto. }
    cbn [assign] in F. unfold i in F. rewrite putItem_length in F. fold i in F.
    destruct (IH Pl (done ++ [Some c])) as (F' & [V' D'] & H').
    rewrite last_length in F', V', D', H'. fold i in F', V', D', H'.
    cbn [eachItems concat visitItem]. rewrite map_app.
    split; [|split; [split|]].
    + rewrite fill_app, F. cbn [bind]. rewrite F'.
      now rewrite <- app_assoc.
    + apply Forall_app. now split.
    + apply (NoDup_heads _ _ (fun x => x = indexNote i)
               (fun x => exists j, x = indexNote j /\ S i <= j));
        try assumption.
      * revert H. apply Forall_impl. intros e [q Eq]. eauto.
      * intros x -> (j & Ej & Lj). apply indexNote_inj in Ej. lia.
    + apply Forall_app. split.
      * revert H. apply Forall_impl. intros e [q Eq].
        exists (indexNote i), q. split; [exact Eq|]. exists i. now split.
      * revert H'. apply Forall_impl. intros e (k' & q & Eq & j & Ej & Lj).
        exists k', q. split; [exact Eq|]. exists j. split; [exact Ej | lia].
Qed.

(** Every plain collection is given back by its own entries. *)
Lemma refills_all (t : tree) : refills t.
Proof.
  induction t as [v|props IH|items IH] using tree_nested_ind;
    intros Pl Co.
  - discriminate.
  - cbn [plain] in Pl.
    apply andb_true_iff in Pl as [Pl Pa].
    apply andb_true_iff in Pl as [Ne Di].
    destruct (props_entries props IH Pa Di []) as (F & W & _);
      [reflexivity|].
    unfold rel. rewrite _each_Obj. cbn [emptyLike isArray].
    split; [exact F|]. split; [exact W|].
    destruct props as [|[k c] rest]; [discriminate|].
    cbn [forallb fst snd] in Pa.
    apply andb_true_iff in Pa as [Pk _].
    apply andb_true_iff in Pk as [Vk Pc].
    apply andb_true_iff in Vk as [Vk Nk].
    destruct (member_entries (Obj []) c k (NKey k)
                (Forall_inv IH) Pc (validNote_VAR k Vk)
                (normalizeNote_VAR k Vk))
      as (_ & _ & _ & (q & v & E' & Eq)).
    { reflexivity. }
    { reflexivity. }
    { cbn [takes]. now rewrite Nk. }
    { intros x. cbn [assign]. eauto. }
    cbn [eachProps]. rewrite map_app, Eq.
    exists k, q, v, (E' ++ map entry (eachProps false [] rest)), (NKey k).
    split; [reflexivity|]. split; [now apply normalizeNote_VAR | reflexivity].
  - cbn [plain] in Pl.
    apply andb_true_iff in Pl as [Ne Pa].
    destruct (items_entries items IH Pa []) as (F & W & _).
    unfold rel. rewrite _each_Arr. cbn [emptyLike isArray List.length] in *.
    split; [exact F|]. split; [exact W|].
    destruct items as [|[c|] rest]; [discriminate| |discriminate].
    cbn [forallb] in Pa. apply andb_true_iff in Pa as [Pc _].
    destruct (member_entries (Arr []) c (indexNote 0) (NIdx 0)
                (Forall_inv IH) Pc (validNote_index 0)
                (normalizeNote_index 0))
      as (_ & _ & _ & (q & v & E' & Eq)).
    { reflexivity. }
    { reflexivity. }
    { reflexivity. }
    { intros x. cbn [assign]. eauto. }
    cbn [eachItems concat visitItem]. rewrite map_app, Eq.
    exists (indexNote 0), q, v,
      (E' ++ map entry (concat (eachItems false [] 1 rest))), (NIdx 0).
    split; [reflexivity|]. split; [apply normalizeNote_index | reflexivity].
Qed.

(** *** flatten and expand *)

Lemma reserved_proto (k : notation) :
  reserved k = false -> String.eqb (joinNotes k) "__proto__" = false.
Proof.
  unfold reserved. intros R.
  destruct (String.eqb (joinNotes k) "__proto__") eqn:E; [|reflexivity].
  apply String.eqb_eq in E. rewrite E in R. discriminate R.
Qed.

Lemma putFlat_fresh (k : notation) (v : tree) (o : flat) :
  reserved k = false ->
  ~ In k (map fst o) -> putFlat k v o = o ++ [(k, v)].
Proof.
  intros R. unfold putFlat. rewrite (reserved_proto _ R).
  induction o as [|[k' v'] rest IH]; cbn [putNotation map fst app In];
    [reflexivity|].
  intros N. unfold notation_eqb.
  destruct (list_eq_dec string_dec k k') as [->|_]; [tauto|].
  rewrite IH; [reflexivity | tauto].
Qed.

Lemma flatten_fold (L : list (notation * string * tree)) :
  forallb (fun e => negb (reserved (fst (fst e)))) L = true ->
  forall acc : flat,
    NoDup (map fst acc ++ map fst (map entry L)) ->
    fold_left (fun o e => let '(n, _, v) := e in putFlat n v o) L acc
    = acc ++ map entry L.
Proof.
  induction L as [|[[n k] v] L IH]; intros R acc D; cbn [fold_left map].
  - now rewrite app_nil_r.
  - cbn [map entry fst snd] in D.
    cbn [forallb fst] in R. apply andb_true_iff in R as [R1 R2].
    apply negb_true_iff in R1.
    assert (N : ~ In n (map fst acc)).
    { apply NoDup_remove_2 in D. intros I. apply D, in_or_app. now left. }
    rewrite (putFlat_fresh n v acc R1 N), (IH R2).
    + now rewrite <- app_assoc.
    + rewrite map_app. cbn [map fst]. now rewrite <- app_assoc.
Qed.

Lemma merge_fill (E : flat) :
  Forall (fun e => isValid (fst e) = true) E ->
  forallb (fun e => negb (reserved (fst e))) E = true ->
  forall lvl, merge lvl E true = fill E lvl.
Proof.
  induction 1 as [|[n v] E V _ IH]; intros R lvl; [reflexivity|].
  cbn [forallb fst] in R. apply andb_true_iff in R as [R1 R2].
  apply negb_true_iff in R1. cbn [fst] in V.
  cbn [merge fill]. rewrite R1. unfold set, split. rewrite V. cbn [bind].
  destruct (setLoop n lvl v Overwrite); cbn [bind]; auto.
Qed.

(** C3, as the specification words it, fails: flatten visits the leaves
    only, so an empty nested map leaves no entry and expand cannot bring
    it back; and a list at the root comes back as a map, since expand
    always starts from an empty map. *)
Lemma expand_flatten_counterexample :
  expand (flatten (Obj [("a", Obj [])])) = Ok (Obj [])
  /\ Obj [] <> Obj [("a", Obj [])]
  /\ expand (flatten (Arr [Some (Leaf (Num 1))]))
     = Ok (Obj [("0", Leaf (Num 1))]).
Proof. repeat split; discriminate. Qed.

(** C3 (amended): for a map whose keys, at every depth, are distinct JS
    variable names, whose nested maps and lists are not empty, whose
    lists have no hole, and none of whose flattened notations holds a
    word merge passes over, flatten and then expand give the tree back. *)
Theorem expand_flatten (T : tree) :
  roundTrips T = true -> expand (flatten T) = Ok T.
Proof.
  destruct T as [v|props|items]; try discriminate.
  unfold roundTrips. intros H.
  apply andb_true_iff in H as [H R].
  apply andb_true_iff in H as [Di Pa].
  assert (IH : Forall (fun kv => refills (snd kv)) props)
    by (apply Forall_forall; intros kv _; apply refills_all).
  destruct (props_entries props IH Pa Di []) as (F & [V D] & _);
    [reflexivity|].
  rewrite _each_Obj in R.
  assert (E : flatten (Obj props) = map entry (eachProps false [] props)).
  { unfold flatten. rewrite _each_Obj.
    apply (flatten_fold _ R []). exact D. }
  rewrite E. unfold expand. rewrite (merge_fill _ V); [exact F|].
  rewrite forallb_forall in R. apply forallb_forall.
  intros e I. apply in_map_iff in I as (x & <- & I). apply (R _ I).
Qed.

Lemma expand_flatten_witness :
  expand (flatten (Obj [("car", Obj [("brand", Leaf (Str "Dodge"));
                                     ("colors", Arr [Some (Leaf (Str "black"));
                                                     Some (Leaf (Str "white"))])])]))
  = Ok (Obj [("car", Obj [("brand", Leaf (Str "Dodge"));
                          ("colors", Arr [Some (Leaf (Str "black"));
                                          Some (Leaf (Str "white"))])])]).
Proof.
  apply expand_flatten. vm_compute. reflexivity.
Defined.

End RoundTrip.

Section FilterProperties.

Import Utils NotationGlob Notation.

(** C8: on {brand:"Ford", model:{name:"Mustang", year:1970}}, whatever
    the options of the instance, filter(["*", "!model.year"]) leaves
    {brand:"Ford", model:{name:"Mustang"}} as the value of the instance,
    and the tree the caller passed in still reads as before. *)
Theorem filter_keeps_source_example (opts : options) :
  let source :=
    Obj [("brand", Leaf (Str "Ford"));
         ("model", Obj [("name", Leaf (Str "Mustang"));
                        ("year", Leaf (Num 1970))])] in
  let globs := [mkGlob false ["*"]; mkGlob true ["model"; "year"]] in
  Store.runFilter source opts globs
  = Ok (Some source,
        Some (Obj [("brand", Leaf (Str "Ford"));
                   ("model", Obj [("name", Leaf (Str "Mustang"))])])).
Proof. destruct opts as [[] []]; vm_compute; reflexivity. Qed.

(** The store tells a copy from a shared value: without the leading
    wildcard filter starts from an empty map and sets the map found at
    [model] itself, so the removal of [model.year] that follows reaches
    the tree of the caller. *)
Remark filter_shares_set_values :
  let source :=
    Obj [("brand", Leaf (Str "Ford"));
         ("model", Obj [("name", Leaf (Str "Mustang"));
                        ("year", Leaf (Num 1970))])] in
  let globs := [mkGlob false ["model"]; mkGlob true ["model"; "year"]] in
  Store.runFilter source DEFAULT_OPTS globs
  = Ok (Some (Obj [("brand", Leaf (Str "Ford"));
                   ("model", Obj [("name", Leaf (Str "Mustang"))])]),
        Some (Obj [("model", Obj [("name", Leaf (Str "Mustang"))])])).
Proof. vm_compute; reflexivity. Qed.

(** The failing input of C1 seen through filter, on
    {a:{b:1, c:2}, d:3}: the globs of B keep a.b, the union of A and B
    gives a tree without it. *)
Remark filter_of_union_loses_member :
  let source :=
    Obj [("a", Obj [("b", Leaf (Num 1)); ("c", Leaf (Num 2))]);
         ("d", Leaf (Num 3))] in
  let A := [mkGlob false ["*"]; mkGlob true ["a"; "*"]] in
  let B := [mkGlob false ["a"; "b"]] in
  Store.runFilter source DEFAULT_OPTS B
  = Ok (Some source, Some (Obj [("a", Obj [("b", Leaf (Num 1))])]))
  /\ (u <- union A B ;; Store.runFilter source DEFAULT_OPTS u)
     = Ok (Some source, Some (Obj [("d", Leaf (Num 3)); ("a", Obj [])])).
Proof. split; vm_compute; reflexivity. Qed.

(** The accessors on the store and on trees, side by side on the first
    scenario of the specification: remove("car.model") and then
    set("car.color", "red"). *)
Remark store_and_tree_accessors_agree :
  let source :=
    Obj [("car", Obj [("brand", Leaf (Str "Dodge"));
                      ("model", Leaf (Str "Charger"));
                      ("year", Leaf (Num 1970))])] in
  let after :=
    Obj [("car", Obj [("brand", Leaf (Str "Dodge"));
                      ("year", Leaf (Num 1970));
                      ("color", Leaf (Str "red"))])] in
  (t <- remove DEFAULT_OPTS source ["car"; "model"] ;;
   set t ["car"; "color"] (Leaf (Str "red")) Overwrite) = Ok after
  /\ Store.runOn source
       (fun root =>
          Store.mbind (Store.remove DEFAULT_OPTS root ["car"; "model"])
            (fun _ => Store.set root ["car"; "color"]
                        (Store.VLeaf (Str "red")) Overwrite))
     = Ok (Some after).
Proof. split; vm_compute; reflexivity. Qed.

End FilterProperties.

(** * Further properties of the glob functions *)

Section GlobCovering.

Import Utils NotationGlob.

Lemma coversNote_same (a : string) : _coversNote a (Some a) = true.
Proof. unfold _coversNote. now rewrite String.eqb_refl. Qed.

Lemma coversLoop_prefix (notes rest : list string) :
  coversLoop notes (notes ++ rest) = true.
Proof.
  induction notes as [|a notes IH]; [reflexivity|].
  cbn [coversLoop app hd_error tl]. now rewrite coversNote_same.
Qed.

(** X1: a glob covers every target whose notes start with its own notes,
    and so itself: covers looks at the positions of the glob only, and
    the guard on negated globs lets the longer targets through. *)
Theorem covers_extension (g t : globArg) (negG negT : bool)
  (notes rest : list string) :
  resolve g = Ok (negG, notes) ->
  resolve t = Ok (negT, notes ++ rest) ->
  covers g t = Ok true.
Proof.
  intros Hg Ht. unfold covers. rewrite Hg, Ht. cbn [bind].
  replace (Nat.ltb (List.length (notes ++ rest)) (List.length notes))
    with false
    by (symmetry; apply Nat.ltb_ge; rewrite length_app; lia).
  rewrite andb_false_r. now rewrite coversLoop_prefix.
Qed.

Lemma covers_extension_witness :
  covers (GString (mkGlob true ["car"; "*"; "year"]))
         (GString (mkGlob false ["car"; "*"; "year"; "[0]"]))
  = Ok true.
Proof.
  exact (covers_extension
           (GString (mkGlob true ["car"; "*"; "year"]))
           (GString (mkGlob false ["car"; "*"; "year"; "[0]"]))
           true false ["car"; "*"; "year"] ["[0]"] eq_refl eq_refl).
Defined.

Lemma isWildcard_cases (a : string) :
  WILDCARD a = true -> a = "*" \/ a = "[*]".
Proof.
  unfold WILDCARD. intros H. apply orb_true_iff in H as [H | H];
    apply String.eqb_eq in H; auto.
Qed.

Lemma coversNote_cases (a b : string) :
  _coversNote a (Some b) = true ->
  a = b \/ (a = "*" /\ ARRAY_GLOB_NOTE b = false)
  \/ (a = "[*]" /\ ARRAY_GLOB_NOTE b = true).
Proof.
  unfold _coversNote. destruct (String.eqb a b) eqn:E.
  - apply String.eqb_eq in E. auto.
  - destruct (String.eqb a "*") eqn:S1; cbn [andb].
    + apply String.eqb_eq in S1.
      destruct (ARRAY_GLOB_NOTE b); cbn [negb]; [|auto].
      destruct (String.eqb a "[*]") eqn:S2; [|discriminate].
      apply String.eqb_eq in S2. congruence.
    + destruct (String.eqb a "[*]") eqn:S2; cbn [andb]; [|discriminate].
      apply String.eqb_eq in S2.
      destruct (ARRAY_GLOB_NOTE b); [auto | discriminate].
Qed.

Lemma coversNote_trans (a b : string) (c : option string) :
  _coversNote a (Some b) = true ->
  _coversNote b c = true ->
  _coversNote a c = true.
Proof.
  intros Hab Hbc.
  destruct (coversNote_cases _ _ Hab) as [-> | [[-> Nb] | [-> Ab]]];
    [exact Hbc | |].
  - destruct c as [c|]; [|reflexivity].
    destruct (coversNote_cases _ _ Hbc) as [-> | [[-> Nc] | [-> Ac]]].
    + exact Hab.
    + exact Hbc.
    + discriminate Nb.
  - destruct c as [c|]; [|reflexivity].
    destruct (coversNote_cases _ _ Hbc) as [-> | [[-> Nc] | [-> Ac]]].
    + exact Hab.
    + discriminate Ab.
    + exact Hbc.
Qed.

Lemma coversLoop_trans (A : list string) :
  forall B C,
    List.length A <= List.length B ->
    coversLoop A B = true ->
    coversLoop B C = true ->
    coversLoop A C = true.
Proof.
  induction A as [|a A IH]; intros B C L HAB HBC; [reflexivity|].
  destruct B as [|b B]; [cbn in L; lia|].
  cbn [coversLoop hd_error tl] in *.
  destruct (_coversNote a (Some b)) eqn:Nab; [|discriminate].
  destruct (_coversNote b (hd_error C)) eqn:Nbc; [|discriminate].
  rewrite (coversNote_trans _ _ _ Nab Nbc).
  apply (IH B (tl C)); [cbn in L; lia | exact HAB | exact HBC].
Qed.

Lemma covers_trans_lengths (a b c : globArg) (negA negB negC : bool)
  (notesA notesB notesC : list string) :
  resolve a = Ok (negA, notesA) ->
  resolve b = Ok (negB, notesB) ->
  resolve c = Ok (negC, notesC) ->
  List.length notesA <= List.length notesB ->
  List.length notesA <= List.length notesC ->
  covers a b = Ok true ->
  covers b c = Ok true ->
  covers a c = Ok true.
Proof.
  intros Ha Hb Hc Lab Lac. unfold covers. rewrite Ha, Hb, Hc. cbn [bind].
  replace (Nat.ltb (List.length notesB) (List.length notesA)) with false
    by (symmetry; apply Nat.ltb_ge; exact Lab).
  replace (Nat.ltb (List.length notesC) (List.length notesA)) with false
    by (symmetry; apply Nat.ltb_ge; exact Lac).
  rewrite !andb_false_r.
  destruct (negB && Nat.ltb (List.length notesC) (List.length notesB));
    [discriminate|].
  intros [= Hab] [= Hbc]. now rewrite (coversLoop_trans _ _ _ Lab Hab Hbc).
Qed.

(** The notes of a glob past the end of a target it covers are all
    wildcards; the last one in particular. *)
Lemma coversLoop_past_end (A : list string) :
  forall B,
    coversLoop A B = true ->
    List.length B < List.length A ->
    WILDCARD (List.last A "") = true.
Proof.
  induction A as [|a A IH]; intros B H L; [cbn in L; lia|].
  cbn [coversLoop] in H.
  destruct (_coversNote a (hd_error B)) eqn:N; [|discriminate].
  destruct A as [|a' A'].
  - destruct B as [|b B]; [|cbn in L; lia].
    cbn [hd_error _coversNote] in N. exact N.
  - change (List.last (a :: a' :: A') "") with (List.last (a' :: A') "").
    apply (IH (tl B) H). destruct B; cbn in *; lia.
Qed.

Lemma stripTrail_last (rest : list string) :
  stripTrail rest <> [] -> WILDCARD (List.last (stripTrail rest) "") = false.
Proof.
  induction rest as [|n rest IH]; [intros H; now contradiction H|].
  cbn [stripTrail]. destruct (stripTrail rest) as [|m rest'] eqn:E.
  - destruct (WILDCARD n) eqn:W; [intros H; now contradiction H|].
    intros _. exact W.
  - intros _. change (List.last (n :: m :: rest') "")
      with (List.last (m :: rest') ""). apply IH. discriminate.
Qed.

Lemma forallb_stripTrail (p : string -> bool) (rest : list string) :
  forallb p rest = true -> forallb p (stripTrail rest) = true.
Proof.
  induction rest as [|n rest IH]; [reflexivity|].
  cbn [forallb stripTrail]. intros H. apply andb_true_iff in H as [H1 H2].
  specialize (IH H2).
  destruct (stripTrail rest) as [|m rest'].
  - destruct (WILDCARD n); [reflexivity|]. cbn. now rewrite H1.
  - cbn [forallb] in *. now rewrite H1.
Qed.

Lemma bang_normalizeGlobStr (g : globstr) :
  bang (normalizeGlobStr g) = bang g.
Proof.
  unfold normalizeGlobStr. destruct (bang g) eqn:B; [exact B|].
  destruct (gnotes g); [exact B | reflexivity].
Qed.

Lemma isValid_nonempty_notes (g : globstr) :
  isValid g = true -> gnotes g <> [].
Proof. unfold isValid. destruct (gnotes g); [discriminate | discriminate]. Qed.

Lemma normalizeGlobStr_shape (g : globstr) :
  bang g = false ->
  gnotes (normalizeGlobStr g) <> [] ->
  List.length (gnotes (normalizeGlobStr g)) <= 1
  \/ WILDCARD (List.last (gnotes (normalizeGlobStr g)) "") = false.
Proof.
  intros B. unfold normalizeGlobStr. rewrite B.
  destruct (gnotes g) as [|n rest] eqn:G; [rewrite G; congruence|].
  cbn [gnotes]. intros _.
  destruct (stripTrail rest) as [|m rest'] eqn:E; [left; cbn; lia|].
  right. change (List.last (n :: m :: rest') "")
    with (List.last (m :: rest') "").
  rewrite <- E. apply stripTrail_last. congruence.
Qed.

Lemma create_shape (g : globstr) (ins : inspected) (ns : list string) :
  create g = Ok (GInstance ins ns) ->
  ns <> [] /\ (List.length ns <= 1 \/ WILDCARD (List.last ns "") = false).
Proof.
  unfold create.
  destruct (_inspect g) as [i|] eqn:I; [|discriminate]. cbn [bind].
  destruct (inspect_valid _ _ I) as [V _].
  unfold split. rewrite V. cbn [negb bind]. intros [= <- <-].
  assert (B : bang (absGlob i) = false).
  { revert I. unfold _inspect.
    destruct (isValid (normalizeGlobStr g)); [|discriminate].
    cbn [negb]. intros [= <-]. cbn [absGlob].
    destruct (bang (normalizeGlobStr g)) eqn:B; [reflexivity | exact B]. }
  assert (N : gnotes (normalizeGlobStr (absGlob i)) <> []).
  { apply isValid_nonempty_notes in V. unfold normalizeGlobStr. rewrite B.
    destruct (gnotes (absGlob i)); [congruence | discriminate]. }
  split; [exact N|]. now apply normalizeGlobStr_shape.
Qed.

(** The notes a made glob resolves to: never empty, and, unless the
    glob is negated, without a wildcard at the end of two notes or
    more. *)
Lemma resolve_made (x : globArg) (neg : bool) (notes : list string) :
  made x ->
  resolve x = Ok (neg, notes) ->
  notes <> []
  /\ (neg = true
      \/ List.length notes <= 1
      \/ WILDCARD (List.last notes "") = false).
Proof.
  destruct x as [g|ins ns|ins]; cbn [made resolve].
  - intros _. destruct (create g) as [[g'|ins ns|ins]|] eqn:C;
      cbn [bind]; try discriminate.
    intros [= <- <-]. destruct (create_shape _ _ _ C) as [N S]. tauto.
  - intros [g C] [= <- <-]. destruct (create_shape _ _ _ C) as [N S]. tauto.
  - intros [g I]. destruct (inspect_valid _ _ I) as [V _].
    unfold split. rewrite V. cbn [negb bind]. intros [= <- <-].
    split; [now apply isValid_nonempty_notes|].
    revert I V. unfold _inspect.
    destruct (isValid (normalizeGlobStr g)) eqn:Vg; [|discriminate].
    cbn [negb]. intros [= <-]. cbn [absGlob isNegated].
    destruct (bang (normalizeGlobStr g)) eqn:B; [now left|].
    intros V. right. apply normalizeGlobStr_shape.
    + now rewrite <- bang_normalizeGlobStr.
    + now apply isValid_nonempty_notes.
Qed.

Lemma covers_true_length (a b : globArg) (negA negB : bool)
  (notesA notesB : list string) :
  made a -> made b ->
  resolve a = Ok (negA, notesA) ->
  resolve b = Ok (negB, notesB) ->
  covers a b = Ok true ->
  List.length notesA <= List.length notesB.
Proof.
  intros Ma Mb Ha Hb. unfold covers. rewrite Ha, Hb. cbn [bind].
  destruct (Nat.ltb (List.length notesB) (List.length notesA)) eqn:L;
    [|intros _; apply Nat.ltb_ge in L; exact L].
  apply Nat.ltb_lt in L.
  destruct (resolve_made _ _ _ Ma Ha) as [_ [-> | [S | S]]].
  - discriminate.
  - destruct (resolve_made _ _ _ Mb Hb) as [N _].
    destruct notesB; [congruence | cbn in *; lia].
  - rewrite andb_false_r || destruct negA; cbn [andb]; try discriminate.
    intros [= H]. rewrite (coversLoop_past_end _ _ H L) in S. discriminate.
Qed.

(** X2: a glob never covers a target with fewer notes than its own, for
    the globs the library makes (strings, instances, inspections): a
    glob that is not negated has lost its trailing wildcards, the only
    notes that match past the end of a target, and a negated one is
    stopped by the guard. *)
Theorem covers_not_shorter (a b : globArg) (negA negB : bool)
  (notesA notesB : list string) :
  made a -> made b ->
  resolve a = Ok (negA, notesA) ->
  resolve b = Ok (negB, notesB) ->
  List.length notesB < List.length notesA ->
  covers a b = Ok false.
Proof.
  intros Ma Mb Ha Hb L.
  pose proof (covers_true_length a b negA negB notesA notesB Ma Mb Ha Hb) as T.
  revert T. unfold covers. rewrite Ha, Hb. cbn [bind].
  destruct (negA && Nat.ltb (List.length notesB) (List.length notesA));
    [reflexivity|].
  destruct (coversLoop notesA notesB); [|reflexivity].
  intros T. specialize (T eq_refl). lia.
Qed.

Lemma covers_not_shorter_witness :
  covers (GString (mkGlob false ["car"; "*"; "year"]))
         (GString (mkGlob false ["car"; "model"]))
  = Ok false.
Proof.
  apply (covers_not_shorter _ _ false false ["car"; "*"; "year"]
           ["car"; "model"]); try exact I; try reflexivity. simpl. lia.
Defined.

(** X3: covering is transitive on the globs the library makes: when a
    covers b and b covers c, a covers c. *)
Theorem covers_transitive (a b c : globArg) (negA negB negC : bool)
  (notesA notesB notesC : list string) :
  made a -> made b -> made c ->
  resolve a = Ok (negA, notesA) ->
  resolve b = Ok (negB, notesB) ->
  resolve c = Ok (negC, notesC) ->
  covers a b = Ok true ->
  covers b c = Ok true ->
  covers a c = Ok true.
Proof.
  intros Ma Mb Mc Ha Hb Hc Hab Hbc.
  pose proof (covers_true_length _ _ _ _ _ _ Ma Mb Ha Hb Hab) as Lab.
  pose proof (covers_true_length _ _ _ _ _ _ Mb Mc Hb Hc Hbc) as Lbc.
  apply (covers_trans_lengths a b c negA negB negC notesA notesB notesC);
    try assumption. lia.
Qed.

Lemma covers_transitive_witness :
  covers (GString (mkGlob false ["*"; "b"]))
         (GString (mkGlob false ["a"; "b"; "c"]))
  = Ok true.
Proof.
  apply (covers_transitive
           (GString (mkGlob false ["*"; "b"]))
           (GString (mkGlob true ["a"; "b"]))
           (GString (mkGlob false ["a"; "b"; "c"]))
           false true false ["*"; "b"] ["a"; "b"] ["a"; "b"; "c"]);
    try exact I; reflexivity.
Defined.

End GlobCovering.

Section GlobOrdering.

Import Utils NotationGlob.

Lemma globstr_eqb_sym (a b : globstr) : globstr_eqb a b = globstr_eqb b a.
Proof.
  destruct (globstr_eqb a b) eqn:E.
  - apply globstr_eqb_eq in E. subst. symmetry. now apply globstr_eqb_eq.
  - destruct (globstr_eqb b a) eqn:E'; [|reflexivity].
    apply globstr_eqb_eq in E'. subst.
    assert (X : globstr_eqb a a = true) by now apply globstr_eqb_eq.
    congruence.
Qed.

Lemma ofComparison_opp (c : comparison) :
  ofComparison (CompOpp c) = (- ofComparison c)%Z.
Proof. now destruct c. Qed.

(** X4: compare is antisymmetric: when compare(a, b) answers, so does
    compare(b, a), with the opposite sign.  This is what lets sort use
    it as a comparator. *)
Theorem compare_antisymmetric (a b : globstr) (c : Z) :
  compare a b = Ok c -> compare b a = Ok (- c)%Z.
Proof.
  unfold compare. rewrite (globstr_eqb_sym b a), (andb_comm (isWildcardGlob b)).
  destruct (globstr_eqb a b || isWildcardGlob a && isWildcardGlob b).
  { now intros [= <-]. }
  destruct (_inspect a) as [ia|] eqn:Ha; [|discriminate].
  destruct (_inspect b) as [ib|] eqn:Hb; [|discriminate].
  cbn [bind].
  rewrite (split_absGlob _ _ Ha), (split_absGlob _ _ Hb). cbn [bind].
  rewrite (Nat.eqb_sym (List.length (gnotes (absGlob ib)))).
  destruct (Nat.eqb (List.length (gnotes (absGlob ia)))
              (List.length (gnotes (absGlob ib)))) eqn:L.
  - rewrite (Nat.eqb_sym (wildCount (gnotes (absGlob ib)))).
    destruct (Nat.eqb (wildCount (gnotes (absGlob ia)))
                (wildCount (gnotes (absGlob ib)))) eqn:W.
    + destruct (isNegated ia), (isNegated ib); cbn [negb andb];
        try (now intros [= <-]).
      * rewrite !string_ltb_compare, (String.compare_antisym (absText ib)).
        intros [= <-]. now rewrite ofComparison_opp.
      * rewrite !string_ltb_compare, (String.compare_antisym (absText ib)).
        intros [= <-]. now rewrite ofComparison_opp.
    + apply Nat.eqb_neq in W.
      destruct (Nat.ltb_spec (wildCount (gnotes (absGlob ib)))
                  (wildCount (gnotes (absGlob ia))));
        destruct (Nat.ltb_spec (wildCount (gnotes (absGlob ia)))
                    (wildCount (gnotes (absGlob ib))));
        try lia; now intros [= <-].
  - apply Nat.eqb_neq in L.
    destruct (Nat.ltb_spec (List.length (gnotes (absGlob ia)))
                (List.length (gnotes (absGlob ib))));
      destruct (Nat.ltb_spec (List.length (gnotes (absGlob ib)))
                  (List.length (gnotes (absGlob ia))));
      try lia; now intros [= <-].
Qed.

Lemma compare_antisymmetric_witness :
  compare (mkGlob false ["prop"; "*"]) (mkGlob false ["prop"; "*"; "name"])
  = Ok (- 1)%Z.
Proof.
  exact (compare_antisymmetric (mkGlob false ["prop"; "*"; "name"])
           (mkGlob false ["prop"; "*"]) 1%Z eq_refl).
Defined.

(** X5: compare answers 0 only for two bare wildcards, for the same
    string twice, or for two globs of the same polarity whose absolute
    texts are equal once normalized. *)
Theorem compare_tie (a b : globstr) :
  compare a b = Ok 0%Z ->
  (isWildcardGlob a = true /\ isWildcardGlob b = true)
  \/ a = b
  \/ exists ia ib,
       _inspect a = Ok ia /\ _inspect b = Ok ib
       /\ isNegated ia = isNegated ib /\ absText ia = absText ib.
Proof.
  unfold compare.
  destruct (globstr_eqb a b) eqn:E.
  { apply globstr_eqb_eq in E. auto. }
  destruct (isWildcardGlob a && isWildcardGlob b) eqn:W.
  { apply andb_true_iff in W. auto. }
  cbn [orb].
  destruct (_inspect a) as [ia|] eqn:Ha; [|discriminate].
  destruct (_inspect b) as [ib|] eqn:Hb; [|discriminate].
  cbn [bind].
  rewrite (split_absGlob _ _ Ha), (split_absGlob _ _ Hb). cbn [bind].
  destruct (Nat.eqb _ _).
  - destruct (Nat.eqb _ _).
    + destruct (isNegated ia) eqn:Na, (isNegated ib) eqn:Nb; cbn [negb andb];
        try discriminate; rewrite string_ltb_compare;
        destruct (String.compare (absText ia) (absText ib)) eqn:C;
        try discriminate; intros _; apply String.compare_eq_iff in C;
        right; right; exists ia, ib; repeat split; try assumption;
        congruence.
    + destruct (Nat.ltb _ _); discriminate.
  - destruct (Nat.ltb _ _); discriminate.
Qed.

Lemma compare_tie_witness :
  (isWildcardGlob (mkGlob false ["a"; "*"]) = true
   /\ isWildcardGlob (mkGlob false ["a"]) = true)
  \/ mkGlob false ["a"; "*"] = mkGlob false ["a"]
  \/ exists ia ib,
       _inspect (mkGlob false ["a"; "*"]) = Ok ia
       /\ _inspect (mkGlob false ["a"]) = Ok ib
       /\ isNegated ia = isNegated ib /\ absText ia = absText ib.
Proof.
  exact (compare_tie (mkGlob false ["a"; "*"]) (mkGlob false ["a"]) eq_refl).
Defined.

(** *** compare as an order *)

Lemma string_compare_trans (x y z : string) :
  String.compare x y = Lt -> String.compare y z = Lt ->
  String.compare x z = Lt.
Proof.
  intros A B.
  apply OrderedTypeEx.String_as_OT.cmp_lt.
  apply (OrderedTypeEx.String_as_OT.lt_trans x y z);
    apply OrderedTypeEx.String_as_OT.cmp_lt; assumption.
Qed.

Lemma keyBelow_trans (a b c : orderKey) :
  keyBelow a b -> keyBelow b c -> keyBelow a c.
Proof.
  unfold keyBelow.
  intros [K1 | (L1 & [K1 | (W1 & K1)])] [K2 | (L2 & [K2 | (W2 & K2)])];
    try (left; lia); try (right; split; [lia|]; left; lia).
  right. split; [lia|]. right. split; [lia|].
  destruct K1 as [[N1 N1'] | [N1 T1]]; destruct K2 as [[N2 N2'] | [N2 T2]];
    try congruence.
  - left. split; congruence.
  - left. split; congruence.
  - right. split; [congruence|].
    exact (string_compare_trans _ _ _ T1 T2).
Qed.

Lemma keyBelow_irrefl (a : orderKey) : ~ keyBelow a a.
Proof.
  unfold keyBelow.
  intros [K | (_ & [K | (_ & [[K K'] | [_ K]])])]; try lia.
  - congruence.
  - rewrite string_compare_refl in K. discriminate.
Qed.

(** When compare puts a before b: they are not the same glob, not two
    bare wildcards, and their keys are in this order. *)
Lemma compare_below_inv (a b : globstr) :
  compare a b = Ok (-1)%Z ->
  exists ia ib,
    _inspect a = Ok ia /\ _inspect b = Ok ib /\ keyBelow (keyOf ia) (keyOf ib).
Proof.
  unfold compare.
  destruct (globstr_eqb a b || isWildcardGlob a && isWildcardGlob b);
    [discriminate|].
  destruct (_inspect a) as [ia|] eqn:Ha; [|discriminate].
  destruct (_inspect b) as [ib|] eqn:Hb; [|discriminate].
  cbn [bind].
  rewrite (split_absGlob _ _ Ha), (split_absGlob _ _ Hb). cbn [bind].
  intros H. exists ia, ib. split; [reflexivity|]. split; [reflexivity|].
  revert H. unfold keyBelow, keyOf. cbn [noteCount wildcards negated text].
  destruct (Nat.eqb_spec (List.length (gnotes (absGlob ia)))
              (List.length (gnotes (absGlob ib)))) as [L | L].
  - destruct (Nat.eqb_spec (wildCount (gnotes (absGlob ia)))
                (wildCount (gnotes (absGlob ib)))) as [W | W].
    + destruct (isNegated ia), (isNegated ib); cbn [negb andb];
        try discriminate;
        try (intros _; right; split; [exact L|]; right; split; [exact W|];
             left; split; reflexivity);
        rewrite string_ltb_compare;
        destruct (String.compare (absText ia) (absText ib));
        try discriminate;
        intros _; right; (split; [exact L|]); right; (split; [exact W|]);
        right; split; reflexivity.
    + destruct (Nat.ltb_spec (wildCount (gnotes (absGlob ib)))
                  (wildCount (gnotes (absGlob ia)))) as [K | K];
        [|discriminate].
      intros _. right. split; [exact L|]. now left.
  - destruct (Nat.ltb_spec (List.length (gnotes (absGlob ia)))
                (List.length (gnotes (absGlob ib)))) as [K | K];
      [|discriminate].
    intros _. now left.
Qed.

Lemma compare_below_intro (a b : globstr) (ia ib : inspected) :
  globstr_eqb a b = false ->
  isWildcardGlob a && isWildcardGlob b = false ->
  _inspect a = Ok ia -> _inspect b = Ok ib ->
  keyBelow (keyOf ia) (keyOf ib) ->
  compare a b = Ok (-1)%Z.
Proof.
  intros E W Ha Hb. unfold compare. rewrite E, W, Ha, Hb. cbn [orb bind].
  rewrite (split_absGlob _ _ Ha), (split_absGlob _ _ Hb). cbn [bind].
  unfold keyBelow, keyOf. cbn [noteCount wildcards negated text].
  intros [K | (L & [K | (Wc & [[N N'] | [N T]])])].
  - destruct (Nat.eqb_spec (List.length (gnotes (absGlob ia)))
                (List.length (gnotes (absGlob ib)))); [lia|].
    apply Nat.ltb_lt in K. now rewrite K.
  - rewrite L, Nat.eqb_refl.
    destruct (Nat.eqb_spec (wildCount (gnotes (absGlob ia)))
                (wildCount (gnotes (absGlob ib)))); [lia|].
    apply Nat.ltb_lt in K. now rewrite K.
  - rewrite L, Wc, !Nat.eqb_refl, N, N'. reflexivity.
  - rewrite L, Wc, !Nat.eqb_refl, N, string_ltb_compare, T.
    now destruct (isNegated ib).
Qed.

Lemma wild_inspect (a : globstr) (ia : inspected) :
  isWildcardGlob a = true -> _inspect a = Ok ia ->
  noteCount (keyOf ia) = 1
  /\ wildcards (keyOf ia) = 2
  /\ negated (keyOf ia) = false
  /\ WILDCARD (text (keyOf ia)) = true.
Proof.
  unfold isWildcardGlob. destruct a as [b ns]. cbn [bang gnotes].
  destruct b; [discriminate|]. cbn [negb andb].
  destruct ns as [|n [|m rest]]; try discriminate. intros Wn.
  unfold _inspect, normalizeGlobStr. cbn [bang gnotes stripTrail].
  destruct (negb (isValid (mkGlob false [n]))); [discriminate|].
  intros [= <-]. unfold keyOf, wildCount, absText.
  cbn [noteCount wildcards negated text absGlob isNegated bang gnotes
       List.length existsb joinNotes].
  rewrite Wn. repeat split; reflexivity.
Qed.

Lemma single_wild (i : inspected) :
  noteCount (keyOf i) = 1 -> wildcards (keyOf i) = 2 ->
  WILDCARD (text (keyOf i)) = true.
Proof.
  unfold keyOf, wildCount, absText. cbn [noteCount wildcards text].
  destruct (gnotes (absGlob i)) as [|m [|m' rest]]; try discriminate.
  intros _. cbn [existsb joinNotes]. now destruct (WILDCARD m).
Qed.

(** X26: compare orders consistently: if it puts a before b and b before
    c, it puts a before c.  With the antisymmetry above, the comparator
    that sort hands to the host is a consistent one. *)
Theorem compare_transitive (a b c : globstr) :
  compare a b = Ok (-1)%Z ->
  compare b c = Ok (-1)%Z ->
  compare a c = Ok (-1)%Z.
Proof.
  intros H1 H2.
  apply compare_below_inv in H1 as (ia & ib & Ha & Hb & K1).
  apply compare_below_inv in H2 as (ib' & ic & Hb' & Hc & K2).
  rewrite Hb in Hb'. injection Hb' as <-.
  pose proof (keyBelow_trans _ _ _ K1 K2) as K.
  apply (compare_below_intro a c ia ic); try assumption.
  - destruct (globstr_eqb a c) eqn:E; [|reflexivity].
    apply globstr_eqb_eq in E. subst c. rewrite Ha in Hc. injection Hc as <-.
    now destruct (keyBelow_irrefl _ K).
  - destruct (isWildcardGlob a) eqn:Wa; [|reflexivity].
    destruct (isWildcardGlob c) eqn:Wc; [|reflexivity]. exfalso.
    destruct (wild_inspect a ia Wa Ha) as (La & Ca & Na & Ta).
    destruct (wild_inspect c ic Wc Hc) as (Lc & Cc & Nc & Tc).
    unfold keyBelow in K1, K2.
    destruct K1 as [K1 | (L1 & [K1 | (W1 & K1)])];
      destruct K2 as [K2 | (L2 & [K2 | (W2 & K2)])]; try lia.
    assert (Tb : WILDCARD (text (keyOf ib)) = true).
    { apply single_wild; lia. }
    destruct K1 as [[_ N1] | [_ T1]]; destruct K2 as [[N2 N2'] | [N2 T2]];
      try congruence.
    apply isWildcard_cases in Ta, Tb, Tc.
    destruct Ta as [Ta | Ta], Tb as [Tb | Tb], Tc as [Tc | Tc];
      rewrite Ta, Tb in T1; rewrite Tb, Tc in T2;
      vm_compute in T1, T2; discriminate.
Qed.

Lemma compare_transitive_witness :
  compare (mkGlob false ["*"]) (mkGlob true ["car"; "model"]) = Ok (-1)%Z.
Proof.
  apply (compare_transitive _ (mkGlob false ["car"])); reflexivity.
Defined.

End GlobOrdering.

Section GlobNormalize.

Import Utils NotationGlob.

Lemma insertRev_permutation (A : Type) (cmp : A -> A -> result Z) (x : A) :
  forall rp r, insertRev A cmp x rp = Ok r -> Permutation (x :: rp) r.
Proof.
  induction rp as [|y rest IH]; intros r; cbn [insertRev].
  - now intros [= <-].
  - destruct (cmp x y) as [c|]; [|discriminate]. cbn [bind].
    destruct (c <? 0)%Z.
    + destruct (insertRev A cmp x rest) as [r'|]; [|discriminate].
      cbn [bind]. intros [= <-].
      rewrite perm_swap. now apply perm_skip, IH.
    + now intros [= <-].
Qed.

Lemma arraySort_permutation (A : Type) (cmp : A -> A -> result Z)
  (l l' : list A) :
  arraySort cmp l = Ok l' -> Permutation l l'.
Proof.
  unfold arraySort.
  assert (G : forall l rp r, sortRev A cmp l rp = Ok r -> Permutation (l ++ rp) r).
  { clear. induction l as [|x l IH]; intros rp r; cbn [sortRev app].
    - now intros [= <-].
    - destruct (insertRev A cmp x rp) as [rp'|] eqn:I; [|discriminate].
      cbn [bind]. intros S. apply IH in S.
      rewrite <- S. apply insertRev_permutation in I.
      rewrite <- I. apply Permutation_middle. }
  destruct (sortRev A cmp l []) as [rp|] eqn:S; [|discriminate].
  cbn [bind]. intros [= <-]. apply G in S. rewrite app_nil_r in S.
  rewrite S. apply Permutation_rev.
Qed.

Lemma negFirstSort_total (l : list globstr) :
  exists l', arraySort _negFirstSort l = Ok l'.
Proof.
  unfold arraySort.
  assert (I : forall x rp, exists r, insertRev globstr _negFirstSort x rp = Ok r).
  { intros x. induction rp as [|y rest [r IH]]; cbn [insertRev]; [eauto|].
    cbn [_negFirstSort bind]. destruct (_ <? 0)%Z; [|eauto].
    rewrite IH. cbn [bind]. eauto. }
  assert (S : forall l rp, exists r, sortRev globstr _negFirstSort l rp = Ok r).
  { clear l. induction l as [|x l IH]; intros rp; cbn [sortRev]; [eauto|].
    destruct (I x rp) as [rp' ->]. cbn [bind]. apply IH. }
  destruct (S l []) as [rp ->]. cbn [bind]. eauto.
Qed.

Lemma isValid_normalizeGlobStr (g : globstr) :
  isValid g = true -> isValid (normalizeGlobStr g) = true.
Proof.
  unfold normalizeGlobStr, isValid. destruct (bang g); [auto|].
  destruct (gnotes g) as [|n rest]; [discriminate|]. cbn [gnotes forallb].
  intros H. apply andb_true_iff in H as [H1 H2].
  now rewrite H1, (forallb_stripTrail _ _ H2).
Qed.

Lemma inspect_of_valid (g : globstr) :
  isValid g = true ->
  _inspect g
  = Ok (mkIns (normalizeGlobStr g) (bang g)
          (if bang g then mkGlob false (gnotes (normalizeGlobStr g))
           else normalizeGlobStr g)).
Proof.
  intros V. unfold _inspect.
  rewrite (isValid_normalizeGlobStr _ V), bang_normalizeGlobStr. reflexivity.
Qed.

Lemma inspect_glob_valid (g : globstr) (i : inspected) :
  _inspect g = Ok i -> isValid (glob i) = true.
Proof.
  unfold _inspect. destruct (isValid (normalizeGlobStr g)) eqn:V;
    [|discriminate].
  cbn [negb]. now intros [= <-].
Qed.

Lemma covers_inspected_total (a b : inspected) :
  (exists g, _inspect g = Ok a) -> (exists g, _inspect g = Ok b) ->
  exists c, covers (GInspected a) (GInspected b) = Ok c.
Proof.
  intros [ga Ha] [gb Hb]. unfold covers. cbn [resolve].
  rewrite (split_absGlob _ _ Ha), (split_absGlob _ _ Hb). cbn [bind].
  destruct (_ && _); eauto.
Qed.

Lemma intersect_total (ga gb : globstr) :
  isValid ga = true -> isValid gb = true ->
  exists r, _intersect ga gb = Ok r.
Proof.
  intros Va Vb. unfold _intersect, split. rewrite Va, Vb. cbn [negb bind].
  destruct (intersectLoop _ _ _) as [[|n r]|]; eauto.
Qed.

Lemma normalizeStep_total (a b : inspected) (f : nflags) (ints : list globstr) :
  (exists g, _inspect g = Ok a) -> (exists g, _inspect g = Ok b) ->
  exists r, normalizeStep a b f ints = Ok r.
Proof.
  intros Ia Ib. unfold normalizeStep.
  destruct (globstr_eqb (glob a) (glob b)); [eauto|].
  destruct (negb (isNegated a) && _isReverseOf a b); [eauto|].
  destruct (covers_inspected_total a b Ia Ib) as [c ->]. cbn [bind].
  assert (C : exists c', (if c then Ok false
                          else covers (GInspected b) (GInspected a)) = Ok c').
  { destruct c; [eauto | apply covers_inspected_total; assumption]. }
  destruct C as [c' ->]. cbn [bind].
  destruct Ia as [ga Ia], Ib as [gb Ib].
  destruct (intersect_total (glob a) (glob b)
              (inspect_glob_valid _ _ Ia) (inspect_glob_valid _ _ Ib))
    as [i Hi].
  destruct (isNegated a), (isNegated b), c, c'; cbn [negb andb];
    rewrite ?Hi; cbn [bind]; eauto.
Qed.

Lemma normalizeInner_total (a : inspected) (bs : list inspected) :
  (exists g, _inspect g = Ok a) ->
  Forall (fun b => exists g, _inspect g = Ok b) bs ->
  forall f ints, exists r, normalizeInner a bs f ints = Ok r.
Proof.
  intros Ia. induction 1 as [|b bs Ib _ IH]; intros f ints;
    cbn [normalizeInner]; [eauto|].
  destruct (normalizeStep_total a b f ints Ia Ib) as [[[f' ints'] brk] ->].
  cbn [bind]. destruct brk; [eauto | apply IH].
Qed.

Lemma normalizeOuter_negateAll (revLeft : list inspected) :
  forall right normalized ints,
    Forall (fun b => exists g, _inspect g = Ok b) revLeft ->
    Forall (fun b => exists g, _inspect g = Ok b) right ->
    (exists a, In a revLeft /\ isNegateAll (glob a) = true) ->
    normalizeOuter revLeft right normalized ints = Ok None.
Proof.
  induction revLeft as [|a below IH]; intros right normalized ints FL FR E.
  - destruct E as (a & [] & _).
  - cbn [normalizeOuter].
    destruct (isNegateAll (glob a)) eqn:N; [reflexivity|].
    inversion FL as [|? ? Ia FB]; subst.
    destruct (normalizeInner_total a (rev right ++ below) Ia) with
      (f := noFlags) (ints := ints) as [[[f ints'] spliced] ->].
    { apply Forall_app. split; [|exact FB]. now apply Forall_rev. }
    cbn [bind]. apply IH; [exact FB | |].
    + destruct spliced; [exact FR | now constructor].
    + destruct E as (x & [-> | I] & Nx); [congruence | eauto].
Qed.

Lemma mapM_inspect (l : list globstr) :
  Forall (fun g => isValid g = true) l ->
  exists list,
    mapM _inspect l = Ok list
    /\ Forall (fun b => exists g, _inspect g = Ok b) list
    /\ List.length list = List.length l
    /\ forall g, In g l -> bang g = true ->
         exists i, In i list /\ glob i = g /\ isNegated i = true.
Proof.
  induction 1 as [|g l V _ (list & M & F & Len & Neg)]; cbn [mapM].
  - exists []. repeat split; [constructor | intros g []].
  - pose proof (inspect_of_valid g V) as I. rewrite I, M. cbn [bind].
    eexists. split; [reflexivity|]. split; [|split].
    + constructor; [eauto | exact F].
    + cbn. now rewrite Len.
    + intros g' [<- | In'] B.
      * eexists. split; [now left|]. cbn [glob isNegated].
        split; [|exact B]. unfold normalizeGlobStr. now rewrite B.
      * destruct (Neg g' In' B) as (i & Ii & Gi & Ni).
        exists i. split; [now right | now split].
Qed.

(** X6: a glob list that holds a negate-all glob ([!*] or [![*]]), all
    of its globs being valid, normalizes to the empty list whatever
    else it holds. *)
Theorem normalize_negate_all (globsArray : list globstr) (g : globstr) :
  Forall (fun x => isValid x = true) globsArray ->
  In g globsArray ->
  isNegateAll g = true ->
  normalize globsArray = Ok [].
Proof.
  intros V I N. unfold normalize.
  destruct (negFirstSort_total globsArray) as [sorted S]. rewrite S.
  cbn [bind]. apply arraySort_permutation in S.
  assert (Vs : Forall (fun x => isValid x = true) sorted).
  { rewrite Forall_forall in *. intros x Ix. apply V.
    now apply (Permutation_in _ (Permutation_sym S)). }
  destruct (mapM_inspect sorted Vs) as (list & M & F & Len & Neg).
  rewrite M. cbn [bind].
  assert (B : bang g = true).
  { unfold isNegateAll in N. now apply andb_true_iff in N as [N _]. }
  destruct (Neg g (Permutation_in _ S I) B) as (i & Ii & Gi & Ni).
  assert (O : normalizeOuter (rev list) [] [] [] = Ok None).
  { apply normalizeOuter_negateAll; [now apply Forall_rev | constructor |].
    exists i. split; [now apply in_rev in Ii | now rewrite Gi]. }
  destruct list as [|x [|y rest]].
  - destruct Ii.
  - destruct Ii as [-> | []]. now rewrite Ni.
  - rewrite O. reflexivity.
Qed.

Lemma normalize_negate_all_witness :
  normalize [mkGlob false ["name"]; mkGlob true ["*"];
             mkGlob false ["car"; "model"]]
  = Ok [].
Proof.
  apply (normalize_negate_all _ (mkGlob true ["*"])).
  - repeat constructor.
  - right. now left.
  - reflexivity.
Defined.

Lemma intersect_bang (ga gb g : globstr) :
  _intersect ga gb = Ok (Some g) -> bang g = bang ga || bang gb.
Proof.
  unfold _intersect.
  destruct (split ga false); [|discriminate].
  destruct (split gb false); [|discriminate]. cbn [bind].
  destruct (intersectLoop _ _ _) as [[|n r]|]; try discriminate.
  now intros [= <-].
Qed.

Lemma addKey_in (keys : list globstr) (k x : globstr) :
  In x (addKey keys k) -> In x keys \/ x = k.
Proof.
  unfold addKey. destruct (existsb _ keys); [auto|].
  intros I. apply in_app_or in I as [I | [-> | []]]; auto.
Qed.

Lemma normalizeStep_ints (a b : inspected) (f f' : nflags)
  (ints ints' : list globstr) (brk : bool) :
  (exists g, _inspect g = Ok a) -> (exists g, _inspect g = Ok b) ->
  normalizeStep a b f ints = Ok (f', ints', brk) ->
  forall x, In x ints' -> In x ints \/ bang x = true.
Proof.
  intros [ga Ia] [gb Ib].
  destruct (inspect_valid _ _ Ia) as [_ Na].
  destruct (inspect_valid _ _ Ib) as [_ Nb].
  unfold normalizeStep.
  destruct (globstr_eqb (glob a) (glob b)); [intros [= _ <- _]; auto|].
  destruct (negb (isNegated a) && _isReverseOf a b);
    [intros [= _ <- _]; auto|].
  destruct (covers (GInspected a) (GInspected b)) as [c|]; [|discriminate].
  cbn [bind].
  destruct (if c then Ok false else covers (GInspected b) (GInspected a))
    as [c'|]; [|discriminate].
  cbn [bind].
  assert (T : forall fl,
    isNegated a || isNegated b = true ->
    (if negb c && negb c'
     then i <- _intersect (glob a) (glob b) ;;
          Ok (fl, match i with Some g => addKey ints g | None => ints end, false)
     else Ok (fl, ints, false)) = Ok (f', ints', brk) ->
    forall x, In x ints' -> In x ints \/ bang x = true).
  { intros fl P. destruct (negb c && negb c'); [|intros [= _ <- _]; auto].
    destruct (_intersect (glob a) (glob b)) as [[g|]|] eqn:E;
      cbn [bind]; try discriminate; intros [= _ <- _]; [|auto].
    intros x I. apply addKey_in in I as [I | ->]; [auto|]. right.
    rewrite (intersect_bang _ _ _ E), <- Na, <- Nb. exact P. }
  destruct (isNegated a) eqn:A, (isNegated b) eqn:B.
  - destruct c'; intros [= _ <- _]; auto.
  - apply T. reflexivity.
  - destruct c'; [intros [= _ <- _]; auto|]. apply T. reflexivity.
  - destruct c'; intros [= _ <- _]; auto.
Qed.

Lemma normalizeInner_ints (a : inspected) (bs : list inspected) :
  (exists g, _inspect g = Ok a) ->
  Forall (fun b => exists g, _inspect g = Ok b) bs ->
  forall f ints f' ints' brk,
    normalizeInner a bs f ints = Ok (f', ints', brk) ->
    forall x, In x ints' -> In x ints \/ bang x = true.
Proof.
  intros Ia. induction 1 as [|b bs Ib _ IH]; intros f ints f' ints' brk;
    cbn [normalizeInner].
  - intros [= _ <- _]. auto.
  - destruct (normalizeStep a b f ints) as [[[f1 ints1] brk1]|] eqn:S;
      [|discriminate].
    cbn [bind]. pose proof (normalizeStep_ints _ _ _ _ _ _ _ Ia Ib S) as H1.
    destruct brk1.
    + intros [= _ <- _]. exact H1.
    + intros R x I. destruct (IH _ _ _ _ _ R x I) as [I1 | B]; auto.
Qed.

Lemma normalizeOuter_kept (revLeft : list inspected) :
  forall right normalized ints normalized' ints',
    Forall (fun b => exists g, _inspect g = Ok b) revLeft ->
    Forall (fun b => exists g, _inspect g = Ok b) right ->
    normalizeOuter revLeft right normalized ints = Ok (Some (normalized', ints')) ->
    (forall x, In x normalized' ->
       In x normalized \/ exists a, In a revLeft /\ x = glob a)
    /\ (forall x, In x ints' -> In x ints \/ bang x = true).
Proof.
  induction revLeft as [|a below IH];
    intros right normalized ints normalized' ints' FL FR;
    cbn [normalizeOuter].
  - intros [= <- <-]. auto.
  - destruct (isNegateAll (glob a)); [discriminate|].
    inversion FL as [|? ? Ia FB]; subst.
    destruct (normalizeInner a (rev right ++ below) noFlags ints)
      as [[[f ints1] spliced]|] eqn:N; [|discriminate].
    cbn [bind]. intros O.
    assert (Fbs : Forall (fun b => exists g, _inspect g = Ok b)
                    (rev right ++ below)).
    { apply Forall_app. split; [now apply Forall_rev | exact FB]. }
    pose proof (normalizeInner_ints a _ Ia Fbs _ _ _ _ _ N) as H1.
    apply IH in O; [|exact FB | destruct spliced; [exact FR | now constructor]].
    destruct O as [On Oi]. split.
    + intros x I. destruct (On x I) as [I' | (a' & Ia' & ->)].
      * destruct (keepOf a f && negb (duplicate f)); [|auto].
        apply in_app_or in I' as [I' | [<- | []]]; [auto|].
        right. exists a. split; [now left | reflexivity].
      * right. exists a'. split; [now right | reflexivity].
    + intros x I. destruct (Oi x I) as [I' | B]; auto.
Qed.

Lemma mapM_inspect_inv (l : list globstr) :
  forall list,
    mapM _inspect l = Ok list ->
    Forall (fun b => exists g, _inspect g = Ok b) list
    /\ forall i, In i list -> exists g, In g l /\ glob i = normalizeGlobStr g.
Proof.
  induction l as [|g l IH]; intros list; cbn [mapM].
  - intros [= <-]. split; [constructor | intros i []].
  - destruct (_inspect g) as [i|] eqn:I; [|discriminate]. cbn [bind].
    destruct (mapM _inspect l) as [rest|]; [|discriminate]. cbn [bind].
    intros [= <-]. destruct (IH rest eq_refl) as [F G]. split.
    + constructor; [eauto | exact F].
    + intros i' [<- | I'].
      * exists g. split; [now left|]. revert I. unfold _inspect.
        destruct (isValid (normalizeGlobStr g)); [|discriminate].
        cbn [negb]. now intros [= <-].
      * destruct (G i' I') as (g' & Ig & E). exists g'. split; [now right | exact E].
Qed.

(** X7: normalize never brings in a positive glob of its own: every
    glob of its answer that is not negated is the normalized form of a
    glob of the input.  (What it adds are the intersections, which are
    negated.) *)
Theorem normalize_positive_from_input (globsArray out : list globstr)
  (g : globstr) :
  normalize globsArray = Ok out ->
  In g out ->
  bang g = false ->
  exists g0, In g0 globsArray /\ g = normalizeGlobStr g0.
Proof.
  unfold normalize.
  destruct (arraySort _negFirstSort globsArray) as [sorted|] eqn:S;
    [|discriminate].
  cbn [bind]. apply arraySort_permutation in S.
  destruct (mapM _inspect sorted) as [list|] eqn:M; [|discriminate].
  cbn [bind]. destruct (mapM_inspect_inv _ _ M) as [F G].
  assert (Back : forall i, In i list ->
            exists g0, In g0 globsArray /\ glob i = normalizeGlobStr g0).
  { intros i Ii. destruct (G i Ii) as (g0 & I0 & E). exists g0.
    split; [|exact E]. now apply (Permutation_in _ (Permutation_sym S)). }
  assert (General :
    (r <- normalizeOuter (rev list) [] [] [] ;;
     match r with
     | None => Ok []
     | Some (normalized, ints) => sort (normalized ++ ints)
     end) = Ok out ->
    In g out -> bang g = false ->
    exists g0, In g0 globsArray /\ g = normalizeGlobStr g0).
  { destruct (normalizeOuter (rev list) [] [] []) as [[[n i]|]|e] eqn:O;
      cbn [bind]; try discriminate.
    - intros So Ig B. apply arraySort_permutation in So.
      apply (Permutation_in _ (Permutation_sym So)) in Ig.
      destruct (normalizeOuter_kept _ _ _ _ _ _ (Forall_rev F)
                  (Forall_nil _) O) as [Kn Ki].
      apply in_app_or in Ig as [Ig | Ig].
      + destruct (Kn g Ig) as [[] | (a & Ia & ->)].
        apply Back. now apply in_rev.
      + destruct (Ki g Ig) as [[] | B']. congruence.
    - intros [= <-] []. }
  destruct list as [|x [|y rest]]; [exact General | | exact General].
  destruct (isNegated x); intros [= <-]; [intros [] |].
  intros [<- | []] _. apply Back. now left.
Qed.

Lemma normalize_positive_from_input_witness :
  exists g0,
    In g0 [mkGlob false ["car"; "*"]; mkGlob true ["car"; "model"]]
    /\ mkGlob false ["car"] = normalizeGlobStr g0.
Proof.
  apply (normalize_positive_from_input
           [mkGlob false ["car"; "*"]; mkGlob true ["car"; "model"]]
           [mkGlob false ["car"]; mkGlob true ["car"; "model"]]).
  - reflexivity.
  - now left.
  - reflexivity.
Defined.

(** *** Lists of negated globs only *)

Lemma normalizeStep_negated (a b : inspected) (f f' : nflags)
  (ints ints' : list globstr) (brk : bool) :
  isNegated a = true -> isNegated b = true ->
  normalizeStep a b f ints = Ok (f', ints', brk) ->
  negCoversPos f = false /\ negCoveredByPos f = false -> (negCoversPos f' = false /\ negCoveredByPos f' = false) /\ ints' = ints.
Proof.
  intros Na Nb. unfold normalizeStep.
  destruct (globstr_eqb (glob a) (glob b)).
  { intros [= <- <- <-]. auto. }
  rewrite Na, Nb. cbn [negb andb].
  destruct (covers (GInspected a) (GInspected b)) as [c|]; [|discriminate].
  cbn [bind].
  destruct (if c then Ok false else covers (GInspected b) (GInspected a))
    as [c'|]; [|discriminate].
  cbn [bind]. destruct c'; intros [= <- <- <-]; auto.
Qed.

Lemma normalizeInner_negated (a : inspected) (bs : list inspected) :
  isNegated a = true ->
  Forall (fun b => isNegated b = true) bs ->
  forall f ints f' ints' brk,
    normalizeInner a bs f ints = Ok (f', ints', brk) ->
    negCoversPos f = false /\ negCoveredByPos f = false -> (negCoversPos f' = false /\ negCoveredByPos f' = false) /\ ints' = ints.
Proof.
  intros Na. induction 1 as [|b bs Nb _ IH]; intros f ints f' ints' brk.
  - intros [= <- <- <-]. auto.
  - cbn [normalizeInner].
    destruct (normalizeStep a b f ints) as [[[f1 ints1] brk1]|] eqn:S;
      [|discriminate].
    cbn [bind]. intros H Q.
    destruct (normalizeStep_negated _ _ _ _ _ _ _ Na Nb S Q) as [Q1 ->].
    destruct brk1.
    + injection H as <- <- <-. auto.
    + exact (IH _ _ _ _ _ H Q1).
Qed.

Lemma keepOf_quiet (a : inspected) (f : nflags) :
  isNegated a = true -> negCoversPos f = false /\ negCoveredByPos f = false -> keepOf a f = false.
Proof.
  intros Na [Q1 Q2]. unfold keepOf. rewrite Na, Q1, Q2.
  apply andb_false_r.
Qed.

Lemma normalizeOuter_negated (revLeft : list inspected) :
  forall right,
    Forall (fun b => exists g, _inspect g = Ok b) revLeft ->
    Forall (fun b => exists g, _inspect g = Ok b) right ->
    Forall (fun b => isNegated b = true) revLeft ->
    Forall (fun b => isNegated b = true) right ->
    normalizeOuter revLeft right [] [] = Ok None
    \/ normalizeOuter revLeft right [] [] = Ok (Some ([], [])).
Proof.
  induction revLeft as [|a below IH]; intros right FL FR NL NR.
  - now right.
  - cbn [normalizeOuter]. destruct (isNegateAll (glob a)); [now left|].
    inversion FL as [|? ? Ia FB]; subst.
    inversion NL as [|? ? Na NB]; subst.
    assert (Nbs : Forall (fun b => isNegated b = true) (rev right ++ below)).
    { apply Forall_app. split; [now apply Forall_rev | exact NB]. }
    destruct (normalizeInner_total a (rev right ++ below) Ia) with
      (f := noFlags) (ints := @nil globstr) as [[[f ints'] spliced] E].
    { apply Forall_app. split; [now apply Forall_rev | exact FB]. }
    rewrite E. cbn [bind].
    destruct (normalizeInner_negated a _ Na Nbs _ _ _ _ _ E
                (conj eq_refl eq_refl)) as [Q ->].
    rewrite (keepOf_quiet a f Na Q). cbn [andb].
    apply IH; try assumption; destruct spliced; auto.
Qed.

Lemma mapM_inspect_negated (l : list globstr) :
  forall list,
    mapM _inspect l = Ok list ->
    Forall (fun g => bang g = true) l ->
    Forall (fun b => isNegated b = true) list.
Proof.
  induction l as [|g l IH]; intros list M B.
  - injection M as <-. constructor.
  - cbn [mapM] in M. destruct (_inspect g) as [i|] eqn:I; [|discriminate].
    cbn [bind] in M. destruct (mapM _inspect l) as [more|]; [|discriminate].
    cbn [bind] in M. injection M as <-.
    inversion B as [|? ? Bg Bl]; subst. constructor; [|now apply IH].
    revert I. unfold _inspect.
    destruct (negb (isValid (normalizeGlobStr g))); [discriminate|].
    intros [= <-]. cbn [isNegated]. rewrite bang_normalizeGlobStr. exact Bg.
Qed.

(** The inspections of a list of negated globs, as normalize has them
    after its first sort. *)
Lemma sorted_negated (globsArray : list globstr) :
  Forall (fun g => isValid g = true) globsArray ->
  Forall (fun g => bang g = true) globsArray ->
  exists sorted list,
    arraySort _negFirstSort globsArray = Ok sorted
    /\ mapM _inspect sorted = Ok list
    /\ Forall (fun b => exists g, _inspect g = Ok b) list
    /\ Forall (fun b => isNegated b = true) list.
Proof.
  intros V B.
  destruct (negFirstSort_total globsArray) as [sorted S].
  pose proof (arraySort_permutation _ _ _ _ S) as Pm.
  assert (Vs : Forall (fun x => isValid x = true) sorted).
  { rewrite Forall_forall in *. intros x Ix. apply V.
    now apply (Permutation_in _ (Permutation_sym Pm)). }
  assert (Bs : Forall (fun x => bang x = true) sorted).
  { rewrite Forall_forall in *. intros x Ix. apply B.
    now apply (Permutation_in _ (Permutation_sym Pm)). }
  destruct (mapM_inspect sorted Vs) as (list & M & F & _).
  exists sorted, list. split; [exact S|]. split; [exact M|].
  split; [exact F|]. exact (mapM_inspect_negated sorted list M Bs).
Qed.

(** X20: a list that holds negated globs only normalizes to the empty
    list, however many they are: a negated glob is kept only for a
    non-negated glob that it covers or that covers it. *)
Theorem normalize_negated_only (globsArray : list globstr) :
  Forall (fun g => isValid g = true) globsArray ->
  Forall (fun g => bang g = true) globsArray ->
  normalize globsArray = Ok [].
Proof.
  intros V B. unfold normalize.
  destruct (sorted_negated globsArray V B) as (sorted & list & S & M & F & Nl).
  rewrite S. cbn [bind]. rewrite M. cbn [bind].
  destruct (normalizeOuter_negated (rev list) []
              (Forall_rev F) (Forall_nil _) (Forall_rev Nl) (Forall_nil _))
    as [O | O].
  - destruct list as [|x [|y rest]]; [now rewrite O | | now rewrite O].
    inversion Nl as [|? ? Nx _]. now rewrite Nx.
  - destruct list as [|x [|y rest]]; [now rewrite O | | now rewrite O].
    inversion Nl as [|? ? Nx _]. now rewrite Nx.
Qed.

Lemma normalize_negated_only_witness :
  normalize [mkGlob true ["car"; "model"]; mkGlob true ["car"; "*"];
             mkGlob true ["id"]]
  = Ok [].
Proof.
  apply normalize_negated_only; repeat constructor.
Defined.

(** *** When normalize throws *)

Lemma isValid_notes (g : globstr) :
  isValid g = true -> forallb validGlobNote (gnotes g) = true.
Proof.
  unfold isValid. now destruct (gnotes g).
Qed.

Lemma wildcard_valid (n : string) : WILDCARD n = true -> validGlobNote n = true.
Proof.
  intros W. apply isWildcard_cases in W as [-> | ->]; reflexivity.
Qed.

Lemma stripTrail_valid (rest : list string) :
  forallb validGlobNote (stripTrail rest) = true ->
  forallb validGlobNote rest = true.
Proof.
  induction rest as [|n rest IH]; [reflexivity|].
  cbn [stripTrail forallb].
  destruct (stripTrail rest) as [|m rest'].
  - destruct (WILDCARD n) eqn:W.
    + intros _. now rewrite (wildcard_valid n W), IH.
    + cbn [forallb]. rewrite andb_true_r. intros ->. now rewrite IH.
  - intros H. cbn [forallb] in H. apply andb_true_iff in H as [-> H].
    now rewrite IH.
Qed.

Lemma inspect_of_invalid (g : globstr) :
  isValid g = false -> _inspect g = Err InvalidSyntax.
Proof.
  intros V. unfold _inspect.
  enough (E : isValid (normalizeGlobStr g) = false) by now rewrite E.
  destruct (isValid (normalizeGlobStr g)) eqn:N; [|reflexivity].
  rewrite <- V. revert N. destruct g as [b ns].
  unfold normalizeGlobStr, isValid. cbn [bang gnotes].
  destruct b; [intros H; symmetry; exact H|].
  destruct ns as [|n rest]; [intros H; symmetry; exact H|].
  cbn [gnotes forallb].
  intros H. apply andb_true_iff in H as [-> H].
  now rewrite (stripTrail_valid rest H).
Qed.

Lemma mapM_inspect_invalid (l : list globstr) :
  Exists (fun g => isValid g = false) l -> mapM _inspect l = Err InvalidSyntax.
Proof.
  induction l as [|g l IH]; intros E; [inversion E|]. cbn [mapM].
  destruct (isValid g) eqn:V.
  - rewrite (inspect_of_valid g V). cbn [bind].
    inversion E as [? ? Vg | ? ? El]; subst; [congruence|].
    now rewrite (IH El).
  - now rewrite (inspect_of_invalid g V).
Qed.

Lemma intersectLoop_valid (len : nat) :
  forall A B r,
    forallb validGlobNote A = true -> forallb validGlobNote B = true ->
    intersectLoop len A B = Some r ->
    forallb validGlobNote r = true.
Proof.
  induction len as [|len IH]; intros A B r VA VB; cbn [intersectLoop].
  - now intros [= <-].
  - destruct (intersectNote (hd_error A) (hd_error B)) as [n|] eqn:E;
      [|discriminate].
    destruct (intersectLoop len (tl A) (tl B)) as [r'|] eqn:L; [|discriminate].
    intros [= <-]. cbn [forallb].
    assert (VtA : forallb validGlobNote (tl A) = true).
    { destruct A; [reflexivity|]. cbn [forallb tl] in *.
      now apply andb_true_iff in VA as [_ VA]. }
    assert (VtB : forallb validGlobNote (tl B) = true).
    { destruct B; [reflexivity|]. cbn [forallb tl] in *.
      now apply andb_true_iff in VB as [_ VB]. }
    rewrite (IH _ _ _ VtA VtB L), andb_true_r.
    destruct A as [|a A'], B as [|b B']; cbn [hd_error intersectNote] in E;
      cbn [forallb] in VA, VB;
      try apply andb_true_iff in VA as [Va _];
      try apply andb_true_iff in VB as [Vb _].
    + discriminate.
    + now injection E as <-.
    + now injection E as <-.
    + destruct (String.eqb a b); [now injection E as <-|].
      destruct (WILDCARD a); [now injection E as <-|].
      destruct (WILDCARD b); [now injection E as <-|]. discriminate.
Qed.

Lemma intersect_valid (ga gb g : globstr) :
  isValid ga = true -> isValid gb = true ->
  _intersect ga gb = Ok (Some g) -> isValid g = true.
Proof.
  intros Va Vb. unfold _intersect, split. rewrite Va, Vb. cbn [negb bind].
  destruct (intersectLoop _ _ _) as [[|n r]|] eqn:L; try discriminate.
  intros [= <-]. unfold isValid. cbn [gnotes].
  exact (intersectLoop_valid _ _ _ _ (isValid_notes _ Va) (isValid_notes _ Vb) L).
Qed.

Lemma addKey_valid (keys : list globstr) (k : globstr) :
  Forall (fun g => isValid g = true) keys -> isValid k = true ->
  Forall (fun g => isValid g = true) (addKey keys k).
Proof.
  intros F V. unfold addKey. destruct (existsb _ _); [exact F|].
  apply Forall_app. split; [exact F | now constructor].
Qed.

Lemma normalizeStep_valid (a b : inspected) (f f' : nflags)
  (ints ints' : list globstr) (brk : bool) :
  (exists g, _inspect g = Ok a) -> (exists g, _inspect g = Ok b) ->
  normalizeStep a b f ints = Ok (f', ints', brk) ->
  Forall (fun g => isValid g = true) ints ->
  Forall (fun g => isValid g = true) ints'.
Proof.
  intros [ga Ia] [gb Ib] S F.
  pose proof (inspect_glob_valid _ _ Ia) as Va.
  pose proof (inspect_glob_valid _ _ Ib) as Vb.
  revert S. unfold normalizeStep.
  destruct (globstr_eqb (glob a) (glob b)); [now intros [= _ <- _]|].
  destruct (negb (isNegated a) && _isReverseOf a b);
    [now intros [= _ <- _]|].
  destruct (covers (GInspected a) (GInspected b)) as [c|]; [|discriminate].
  cbn [bind].
  destruct (if c then Ok false else covers (GInspected b) (GInspected a))
    as [c'|]; [|discriminate].
  cbn [bind].
  assert (T : forall fl,
    (if negb c && negb c'
     then i <- _intersect (glob a) (glob b) ;;
          Ok (fl, match i with Some g => addKey ints g | None => ints end, false)
     else Ok (fl, ints, false)) = Ok (f', ints', brk) ->
    Forall (fun g => isValid g = true) ints').
  { intros fl. destruct (negb c && negb c'); [|now intros [= _ <- _]].
    destruct (_intersect (glob a) (glob b)) as [[g|]|] eqn:E;
      cbn [bind]; try discriminate; intros [= _ <- _]; [|exact F].
    apply addKey_valid; [exact F|]. exact (intersect_valid _ _ _ Va Vb E). }
  destruct (isNegated a), (isNegated b).
  - destruct c'; now intros [= _ <- _].
  - apply T.
  - destruct c'; [now intros [= _ <- _]|]. apply T.
  - destruct c'; now intros [= _ <- _].
Qed.

Lemma normalizeInner_valid (a : inspected) (bs : list inspected) :
  (exists g, _inspect g = Ok a) ->
  Forall (fun b => exists g, _inspect g = Ok b) bs ->
  forall f ints f' ints' brk,
    normalizeInner a bs f ints = Ok (f', ints', brk) ->
    Forall (fun g => isValid g = true) ints ->
    Forall (fun g => isValid g = true) ints'.
Proof.
  intros Ia. induction 1 as [|b bs Ib _ IH]; intros f ints f' ints' brk;
    cbn [normalizeInner].
  - now intros [= _ <- _].
  - destruct (normalizeStep a b f ints) as [[[f1 ints1] brk1]|] eqn:S;
      [|discriminate].
    cbn [bind]. intros R F.
    pose proof (normalizeStep_valid _ _ _ _ _ _ _ Ia Ib S F) as F1.
    destruct brk1; [now injection R as _ <- _|].
    exact (IH _ _ _ _ _ R F1).
Qed.

Lemma normalizeOuter_valid (revLeft : list inspected) :
  forall right normalized ints,
    Forall (fun b => exists g, _inspect g = Ok b) revLeft ->
    Forall (fun b => exists g, _inspect g = Ok b) right ->
    Forall (fun g => isValid g = true) normalized ->
    Forall (fun g => isValid g = true) ints ->
    exists r,
      normalizeOuter revLeft right normalized ints = Ok r
      /\ match r with
         | Some (normalized', ints') =>
             Forall (fun g => isValid g = true) (normalized' ++ ints')
         | None => True
         end.
Proof.
  induction revLeft as [|a below IH]; intros right normalized ints FL FR Vn Vi;
    cbn [normalizeOuter].
  - eexists. split; [reflexivity|]. apply Forall_app. now split.
  - destruct (isNegateAll (glob a)); [now exists None|].
    inversion FL as [|? ? Ia FB]; subst.
    assert (Fbs : Forall (fun b => exists g, _inspect g = Ok b)
                    (rev right ++ below)).
    { apply Forall_app. split; [now apply Forall_rev | exact FB]. }
    destruct (normalizeInner_total a (rev right ++ below) Ia Fbs noFlags ints)
      as [[[f ints1] spliced] N].
    rewrite N. cbn [bind].
    apply IH.
    + exact FB.
    + destruct spliced; [exact FR | now constructor].
    + destruct (keepOf a f && negb (duplicate f)); [|exact Vn].
      apply Forall_app. split; [exact Vn|]. constructor; [|constructor].
      destruct Ia as [g Ia]. exact (inspect_glob_valid _ _ Ia).
    + exact (normalizeInner_valid a _ Ia Fbs _ _ _ _ _ N Vi).
Qed.

Lemma compare_total (a b : globstr) :
  isValid a = true -> isValid b = true -> exists c, compare a b = Ok c.
Proof.
  intros Va Vb. unfold compare.
  destruct (globstr_eqb a b || isWildcardGlob a && isWildcardGlob b);
    [eauto|].
  pose proof (inspect_of_valid a Va) as Ha.
  pose proof (inspect_of_valid b Vb) as Hb.
  rewrite Ha, Hb. cbn [bind].
  rewrite (split_absGlob _ _ Ha), (split_absGlob _ _ Hb). cbn [bind].
  destruct (Nat.eqb _ _); [|eauto].
  destruct (Nat.eqb _ _); [|eauto].
  destruct (negb _ && _); [eauto|].
  destruct (_ && negb _); eauto.
Qed.

Lemma insertRev_total (A : Type) (cmp : A -> A -> result Z) (x : A) :
  forall rp,
    (forall y, In y rp -> exists c, cmp x y = Ok c) ->
    exists r, insertRev A cmp x rp = Ok r.
Proof.
  induction rp as [|y rest IH]; intros T; cbn [insertRev]; [eauto|].
  destruct (T y (or_introl eq_refl)) as [c ->]. cbn [bind].
  destruct (c <? 0)%Z; [|eauto].
  destruct IH as [r ->]; [intros z I; apply T; now right|].
  cbn [bind]. eauto.
Qed.

Lemma arraySort_total (A : Type) (cmp : A -> A -> result Z) (P : A -> Prop)
  (l : list A) :
  (forall x y, P x -> P y -> exists c, cmp x y = Ok c) ->
  Forall P l ->
  exists l', arraySort cmp l = Ok l'.
Proof.
  intros T F. unfold arraySort.
  assert (S : forall l rp, Forall P l -> Forall P rp ->
                           exists r, sortRev A cmp l rp = Ok r).
  { clear l F. induction l as [|x l IH]; intros rp Fl Frp; cbn [sortRev];
      [eauto|].
    inversion Fl as [|? ? Px Fl']; subst.
    destruct (insertRev_total A cmp x rp) as [rp' I].
    { intros y Iy. apply T; [exact Px|].
      rewrite Forall_forall in Frp. now apply Frp. }
    rewrite I. cbn [bind]. apply IH; [exact Fl'|].
    apply insertRev_permutation in I.
    apply (Permutation_Forall I). now constructor. }
  destruct (S l [] F (Forall_nil _)) as [rp ->]. cbn [bind]. eauto.
Qed.

(** X29: normalize throws exactly for a list that holds an invalid glob.
    On valid globs it returns, and every glob it returns is valid; a
    list with an invalid glob ends in the invalid-glob error. *)
Theorem normalize_total (globsArray : list globstr) :
  (Forall (fun g => isValid g = true) globsArray ->
   exists out,
     normalize globsArray = Ok out
     /\ Forall (fun g => isValid g = true) out)
  /\ (Exists (fun g => isValid g = false) globsArray ->
      normalize globsArray = Err InvalidSyntax).
Proof.
  unfold normalize.
  destruct (negFirstSort_total globsArray) as [sorted S]. rewrite S.
  cbn [bind]. apply arraySort_permutation in S. split.
  - intros V.
    assert (Vs : Forall (fun x => isValid x = true) sorted)
      by exact (Permutation_Forall S V).
    destruct (mapM_inspect sorted Vs) as (list & M & F & _).
    rewrite M. cbn [bind].
    destruct (normalizeOuter_valid (rev list) [] [] []
                (Forall_rev F) (Forall_nil _) (Forall_nil _) (Forall_nil _))
      as (r & O & Vr).
    assert (G : exists out,
              (r0 <- normalizeOuter (rev list) [] [] [] ;;
               match r0 with
               | None => Ok []
               | Some (normalized, ints) => sort (normalized ++ ints)
               end) = Ok out
              /\ Forall (fun g => isValid g = true) out).
    { rewrite O. cbn [bind]. destruct r as [[normalized ints]|].
      - destruct (arraySort_total globstr compare
                    (fun g => isValid g = true) (normalized ++ ints)
                    compare_total Vr) as [out So].
        exists out. split; [exact So|].
        exact (Permutation_Forall (arraySort_permutation _ _ _ _ So) Vr).
      - exists []. split; [reflexivity | constructor]. }
    destruct list as [|x [|y rest]]; [exact G | | exact G].
    inversion F as [|? ? [g Ix] _]; subst.
    destruct (isNegated x).
    + exists []. split; [reflexivity | constructor].
    + exists [glob x]. split; [reflexivity|].
      constructor; [exact (inspect_glob_valid _ _ Ix) | constructor].
  - intros E.
    assert (Es : Exists (fun g => isValid g = false) sorted).
    { apply Exists_exists in E as (g & I & V). apply Exists_exists.
      exists g. split; [exact (Permutation_in _ S I) | exact V]. }
    now rewrite (mapM_inspect_invalid sorted Es).
Qed.

Lemma normalize_total_witness :
  normalize [mkGlob false ["car"; "*"]; mkGlob false ["car..model"]]
  = Err InvalidSyntax.
Proof.
  apply (proj2 (normalize_total _)). right. left. reflexivity.
Defined.

End GlobNormalize.

(** * Further properties of the accessors *)

Section Inspecting.

Import Utils Notation.

(** While the walk of inspectGet finds members, the variable parent
    holds the value of the result. *)
Lemma inspectGetLoop_parent_value (notes : list string) :
  forall index lvl par res res' par',
    inspectGetLoop notes index lvl par res = Ok (res', par') ->
    has res' = true ->
    par' = Some (value res') \/ (res' = res /\ par' = par).
Proof.
  induction notes as [|note rest IH]; intros index lvl par res res' par'.
  - cbn. intros [= <- <-] _. now right.
  - cbn [inspectGetLoop].
    destruct (normalizeNote note) as [n|]; [|discriminate]. cbn [bind].
    destruct (hasOwn lvl n).
    + intros L H. destruct (IH _ _ _ _ _ _ L H) as [E | [-> ->]]; auto.
    + intros [= <- <-]. discriminate.
Qed.

(** X8: on a present path, the parentIsArray of inspectGet tells whether
    the source itself is a list, whatever the parent of the path is: the
    walk leaves the value reached in the variable parent, and the test
    that follows finds the two equal and puts the source in its place.
    The one value not equal to itself is NaN: there the parent stays
    the number, and parentIsArray is false. *)
Theorem inspectGet_present_parentIsArray (source : tree) (notes : notation)
  (r : InspectResult) :
  inspectGet source notes = Ok r ->
  has r = true ->
  parentIsArray r = equalsItself (value r) && isArray source.
Proof.
  unfold inspectGet. destruct (split notes); [|discriminate]. cbn [bind].
  destruct (inspectGetLoop _ _ _ _ _) as [[res par]|] eqn:L; [|discriminate].
  cbn [bind]. intros [= <-]. cbn [has value parentIsArray]. intros H.
  destruct (inspectGetLoop_parent_value _ _ _ _ _ _ _ L H) as [-> | [-> _]];
    [|discriminate H].
  rewrite H. now destruct (value res) as [[]| |].
Qed.

Lemma inspectGet_present_parentIsArray_witness :
  exists r,
    inspectGet (Obj [("colors", Arr [Some (Leaf (Str "black"))])])
      ["colors"; "[0]"] = Ok r
    /\ parentIsArray r = false.
Proof.
  exists (mkResult true (Leaf (Str "black")) TString 2 (Some "[0]")
            (Some (NIdx 0)) false).
  split; [reflexivity|].
  exact (inspectGet_present_parentIsArray
           (Obj [("colors", Arr [Some (Leaf (Str "black"))])])
           ["colors"; "[0]"] _ eq_refl eq_refl).
Defined.

(** The source [NaN]: the item is present, and parentIsArray is false
    although the source is a list. *)
Remark inspectGet_parentIsArray_NaN :
  exists r,
    inspectGet (Arr [Some (Leaf NaN)]) ["[0]"] = Ok r
    /\ has r = true /\ parentIsArray r = false.
Proof. eexists. split; [reflexivity|]. split; reflexivity. Qed.

Lemma inspectGetLoop_type (notes : list string) :
  notes <> [] ->
  forall index lvl par res res' par',
    inspectGetLoop notes index lvl par res = Ok (res', par') ->
    type res' = if has res' then typeOf (value res') else TUndefined.
Proof.
  induction notes as [|note rest IH]; [congruence|].
  intros _ index lvl par res res' par'. cbn [inspectGetLoop].
  destruct (normalizeNote note) as [n|]; [|discriminate]. cbn [bind].
  destruct (hasOwn lvl n); [|now intros [= <- _]].
  destruct rest as [|next rest'].
  - cbn [inspectGetLoop]. now intros [= <- _].
  - apply IH. discriminate.
Qed.

Lemma walk_snoc (pn : list string) (k : string) :
  forall lvl,
    walk (pn ++ [k]) lvl
    = match walk pn lvl with
      | Some par =>
          match normalizeNote k with
          | Ok n => if hasOwn par n then Some (getProp par n) else None
          | Err _ => None
          end
      | None => None
      end.
Proof.
  induction pn as [|note rest IH]; intros lvl; cbn [app walk].
  - destruct (normalizeNote k) as [n|]; [|reflexivity].
    now destruct (hasOwn lvl n).
  - destruct (normalizeNote note) as [n|]; [|reflexivity].
    destruct (hasOwn lvl n); [apply IH | reflexivity].
Qed.

Lemma inspectGet_walk (source : tree) (notes : notation) (r : InspectResult) :
  inspectGet source notes = Ok r ->
  match walk notes source with
  | Some v => has r = true /\ value r = v
  | None => has r = false /\ value r = undefined
  end.
Proof.
  unfold inspectGet, split. destruct (isValid notes) eqn:V; [|discriminate].
  cbn [bind].
  destruct (inspectGetLoop notes 0 source None _) as [[res par]|] eqn:L;
    [|discriminate].
  cbn [bind]. intros [= <-]. cbn [has value].
  assert (NE : notes <> []) by (destruct notes; [discriminate | congruence]).
  pose proof (inspectGetLoop_walk _ NE _ _ _ _ _ _ L) as W.
  destruct (walk notes source); [exact W|]. split; [exact W|].
  apply (inspectGetLoop_absent _ _ _ _ _ _ _ L); [reflexivity | exact W].
Qed.

(** X9: inspectRemove reports the member that inspectGet finds on the
    tree before the removal: the same has and the same value, for every
    path and every option. *)
Theorem inspectRemove_reports_inspectGet (opts : options) (T T' : tree)
  (notes : notation) (r : InspectResult) :
  inspectRemove opts T notes = Ok (r, T') ->
  exists r0,
    inspectGet T notes = Ok r0
    /\ has r0 = has r /\ value r0 = value r /\ type r0 = type r.
Proof.
  intros H.
  assert (V : isValid notes = true).
  { revert H. unfold inspectRemove, parent, split.
    destruct (isValid notes); [reflexivity | discriminate]. }
  destruct (inspectGet_total T notes V) as [r0 G]. exists r0.
  split; [exact G|]. pose proof (inspectGet_walk _ _ _ G) as W.
  assert (NE : notes <> []) by (destruct notes; [discriminate | congruence]).
  assert (Ty : type r0 = if has r0 then typeOf (value r0) else TUndefined).
  { revert G. unfold inspectGet, split. rewrite V. cbn [bind].
    destruct (inspectGetLoop notes 0 T None _) as [[res par]|] eqn:L;
      [|discriminate].
    cbn [bind]. intros [= <-]. cbn [type has value].
    apply (inspectGetLoop_type _ NE _ _ _ _ _ _ L). }
  rewrite (app_removelast_last "" NE) in W. rewrite walk_snoc in W.
  revert H. unfold inspectRemove, parent, split. rewrite V. cbn [bind].
  assert (P : forall par,
    (match removelast notes with
     | [] => Ok T
     | p0 :: pr => get opts T (p0 :: pr) (Some (Leaf Null))
     end) = Ok par ->
    par = match walk (removelast notes) T with
          | Some v => v
          | None => Leaf Null
          end).
  { intros par. destruct (removelast notes) as [|p0 pr] eqn:RL.
    - now intros [= <-].
    - apply get_default. discriminate. }
  destruct (removelast notes) as [|p0 pr] eqn:RL; cbn [bind].
  - specialize (P T eq_refl). cbn [walk] in W.
    destruct (normalizeNote (last notes "")) as [n|]; [|discriminate].
    cbn [bind].
    destruct (hasOwn T n); intros [= <- _]; cbn [has value type];
      destruct W as [W1 W2]; rewrite Ty, W1, W2; auto.
  - destruct (get opts T (p0 :: pr) (Some (Leaf Null))) as [par|] eqn:G';
      [|discriminate].
    cbn [bind]. specialize (P par eq_refl).
    destruct (normalizeNote (last notes "")) as [n|]; [|discriminate].
    cbn [bind].
    destruct (walk (p0 :: pr) T) as [v|]; subst par.
    + destruct (hasOwn v n); (destruct (modifyAt _ _ _) || idtac);
        cbn [bind]; try discriminate; intros [= <- _];
        cbn [has value type]; destruct W as [W1 W2];
        rewrite Ty, W1, W2; auto.
    + cbn [hasOwn]. intros [= <- _]. cbn [has value type].
      destruct W as [W1 W2]. rewrite Ty, W1, W2. auto.
Qed.

Lemma inspectRemove_reports_inspectGet_witness :
  exists r0,
    inspectGet (Obj [("car", Obj [("year", Leaf (Num 1970))])]) ["car"; "year"]
    = Ok r0
    /\ has r0 = true /\ value r0 = Leaf (Num 1970) /\ type r0 = TNumber.
Proof.
  exact (inspectRemove_reports_inspectGet DEFAULT_OPTS
           (Obj [("car", Obj [("year", Leaf (Num 1970))])])
           _ ["car"; "year"] _ eq_refl).
Defined.

End Inspecting.

Section Writing.

Import Utils Notation.

Lemma hasOwn_kind (lvl : tree) (n : nnote) :
  hasOwn lvl n = true -> isArray lvl && negb (isNumber n) = false.
Proof. destruct lvl, n; cbn; congruence. Qed.

(** A walk of set in no-overwrite mode along a path that is there gives
    the level back as it was. *)
Lemma setLoop_keeps_present (notes : list string) :
  forall lvl old v,
    notes <> [] ->
    walk notes lvl = Some old ->
    setLoop notes lvl v NoOverwrite = Ok lvl.
Proof.
  induction notes as [|note rest IH]; intros lvl old v NE W; [congruence|].
  cbn [walk] in W.
  destruct (normalizeNote note) as [n|] eqn:N; [|discriminate].
  destruct (hasOwn lvl n) eqn:O; [|discriminate].
  destruct rest as [|next rest'].
  - cbn [setLoop]. rewrite N. cbn [bind]. now rewrite (hasOwn_kind _ _ O), O.
  - rewrite (setLoop_present note (next :: rest') n lvl v NoOverwrite
               ltac:(discriminate) N O (hasOwn_kind _ _ O)).
    rewrite (IH _ old v ltac:(discriminate) W). cbn [bind].
    apply (assign_back _ _ O). cbn [walk] in W.
    destruct (normalizeNote next) as [n'|]; [|discriminate].
    destruct (hasOwn (getProp lvl n) n') eqn:O'; [|discriminate].
    apply (hasOwn_collection _ _ O').
Qed.

(** On a path that is not there the mode makes no difference between
    no-overwrite and overwrite. *)
Lemma setLoop_absent_modes (notes : list string) :
  forall lvl v,
    walk notes lvl = None ->
    setLoop notes lvl v NoOverwrite = setLoop notes lvl v Overwrite.
Proof.
  induction notes as [|note rest IH]; intros lvl v W; [discriminate|].
  cbn [walk] in W. cbn [setLoop].
  destruct (normalizeNote note) as [n|] eqn:N; [|reflexivity]. cbn [bind].
  destruct (match rest with
            | [] => Ok None
            | next :: _ => n0 <- normalizeNote next ;; Ok (Some n0)
            end) as [nn|]; [|reflexivity].
  cbn [bind].
  destruct (isArray lvl && negb (isNumber n)); [reflexivity|].
  destruct (hasOwn lvl n) eqn:O.
  - destruct rest as [|next rest']; [discriminate W|].
    now rewrite (IH _ v W).
  - destruct rest as [|next rest']; [now rewrite !andb_false_r|].
    cbn [andb]. destruct (assign lvl n _); [|reflexivity]. cbn [bind].
    assert (E : forall fresh,
              (fresh = Arr [] \/ fresh = Obj []) ->
              setLoop (next :: rest') fresh v NoOverwrite
              = setLoop (next :: rest') fresh v Overwrite).
    { intros fresh F. apply IH. cbn [walk].
      destruct (normalizeNote next) as [m|]; [|reflexivity].
      destruct F as [-> | ->]; destruct m; reflexivity. }
    rewrite E; [reflexivity|]. destruct nn as [m|]; [|auto].
    destruct (isNumber m); auto.
Qed.

(** X10: set in no-overwrite mode (mode false).  On a path that is
    present the tree is left exactly as it was; on a path that is
    absent it does what the overwrite mode does. *)
Theorem set_no_overwrite (T : tree) (p : notation) (v : tree) :
  isValid p = true ->
  (forall old, walk p T = Some old -> set T p v NoOverwrite = Ok T)
  /\ (walk p T = None -> set T p v NoOverwrite = set T p v Overwrite).
Proof.
  intros V. unfold set, split. rewrite V. cbn [bind].
  assert (NE : p <> []) by (destruct p; [discriminate | congruence]).
  split.
  - intros old W. now apply (setLoop_keeps_present p T old v NE W).
  - apply setLoop_absent_modes.
Qed.

Lemma set_no_overwrite_witness :
  set (Obj [("car", Obj [("year", Leaf (Num 1970))])]) ["car"; "year"]
    (Leaf (Num 1965)) NoOverwrite
  = Ok (Obj [("car", Obj [("year", Leaf (Num 1970))])]).
Proof.
  exact (proj1 (set_no_overwrite
                  (Obj [("car", Obj [("year", Leaf (Num 1970))])])
                  ["car"; "year"] (Leaf (Num 1965)) eq_refl)
           (Leaf (Num 1970)) eq_refl).
Defined.

(** *** What a write leaves alone *)

Lemma lookup_putProp_other (k k' : string) (v : tree)
  (props : list (string * tree)) :
  k <> k' -> lookup k' (putProp k v props) = lookup k' props.
Proof.
  intros NE. induction props as [|[k0 v0] rest IH]; cbn [putProp lookup].
  - apply not_eq_sym, String.eqb_neq in NE. now rewrite NE.
  - destruct (String.eqb k k0) eqn:E; cbn [lookup].
    + apply String.eqb_eq in E. subst k0.
      apply not_eq_sym, String.eqb_neq in NE. now rewrite NE.
    + now rewrite IH.
Qed.

Lemma nth_putItem_other (i j : nat) (v : tree) (items : list (option tree)) :
  i <> j ->
  nth_error (putItem i v items) j = nth_error items j
  \/ (nth_error items j = None /\ nth_error (putItem i v items) j = Some None).
Proof.
  revert j items. induction i as [|i IH]; intros [|j] [|x rest] NE;
    cbn [putItem nth_error]; try congruence; auto.
  - left. now destruct j.
  - assert (D : i <> j) by congruence.
    destruct (IH j [] D) as [H | [H1 H2]].
    + left. rewrite H. now destruct j.
    + auto.
Qed.

Lemma putItem_grows (i : nat) (v : tree) (items : list (option tree)) :
  List.length (putItem i v items) = Nat.max (List.length items) (S i).
Proof.
  revert items. induction i as [|i IH]; intros [|x rest]; cbn [putItem List.length].
  - reflexivity.
  - lia.
  - rewrite IH. cbn [List.length]. lia.
  - rewrite IH. lia.
Qed.

Lemma propKey_index_inj (i j : nat) :
  propKey (NIdx i) = propKey (NIdx j) -> i = j.
Proof.
  cbn [propKey]. intros E.
  pose proof (NilEmpty.usu (Nat.to_uint i)) as Ui.
  rewrite E, NilEmpty.usu in Ui. injection Ui as Ui.
  rewrite <- (DecimalNat.Unsigned.of_to i), <- (DecimalNat.Unsigned.of_to j).
  now rewrite Ui.
Qed.

Lemma lookup_writeKey_other (k k' : string) (v : tree)
  (props : list (string * tree)) :
  k <> k' -> lookup k' (writeKey k v props) = lookup k' props.
Proof.
  intros NE. unfold writeKey.
  destruct (_ && _); [reflexivity | now apply lookup_putProp_other].
Qed.

(** A write under a note leaves the value under every other key and
    index; a member stays a member, and the one thing that becomes a
    member is an index of a list that the write has grown past. *)
Lemma assign_other (lvl lvl' : tree) (n m : nnote) (v : tree) :
  assign lvl n v = Ok lvl' ->
  propKey n <> propKey m ->
  getProp lvl' m = getProp lvl m
  /\ (hasOwn lvl m = true -> hasOwn lvl' m = true)
  /\ (hasOwn lvl' m = true -> hasOwn lvl m = false ->
      isArray lvl = true /\ hasOwn lvl n = false
      /\ getProp lvl' m = undefined).
Proof.
  destruct lvl as [s|props|items]; cbn [assign]; [discriminate| |].
  - intros [= <-] NE. cbn [getProp].
    rewrite (lookup_writeKey_other _ _ v props NE).
    split; [reflexivity|].
    destruct m as [k|j|]; cbn [hasOwn]; try (split; congruence).
    cbn [propKey] in NE. rewrite (lookup_writeKey_other _ _ v props NE).
    split; congruence.
  - destruct n as [k|i|]; try discriminate. intros [= <-] NE.
    destruct m as [k|j|]; try (repeat split; cbn [hasOwn] in *; congruence).
    cbn [hasOwn getProp isArray].
    assert (D : i <> j) by (intros ->; now apply NE).
    pose proof (putItem_grows i v items) as G.
    destruct (nth_putItem_other i j v items D) as [-> | [N ->]].
    + split; [reflexivity|]. split.
      * intros H. apply Nat.ltb_lt in H. apply Nat.ltb_lt. lia.
      * intros H H0. apply Nat.ltb_lt in H. apply Nat.ltb_ge in H0.
        split; [reflexivity|]. split; [apply Nat.ltb_ge; lia|].
        apply nth_error_None in H0. now rewrite H0.
    + rewrite N. split; [reflexivity|]. split.
      * intros H. apply Nat.ltb_lt in H. apply Nat.ltb_lt. lia.
      * intros H H0. apply Nat.ltb_lt in H. apply Nat.ltb_ge in H0.
        split; [reflexivity|]. split; [apply Nat.ltb_ge; lia | reflexivity].
Qed.

(** When the write does not grow a list, membership under the other
    notes is as it was. *)
Lemma assign_other_eq (lvl lvl' : tree) (n m : nnote) (v : tree) :
  assign lvl n v = Ok lvl' ->
  propKey n <> propKey m ->
  (isArray lvl = true -> hasOwn lvl n = true \/ hasOwn lvl m = true) ->
  hasOwn lvl' m = hasOwn lvl m /\ getProp lvl' m = getProp lvl m.
Proof.
  intros A NE R. destruct (assign_other _ _ _ _ _ A NE) as (G & Up & Down).
  split; [|exact G].
  destruct (hasOwn lvl m) eqn:O; [now apply Up|].
  destruct (hasOwn lvl' m) eqn:O'; [|reflexivity].
  destruct (Down eq_refl eq_refl) as (Ar & On & _).
  destruct (R Ar); congruence.
Qed.

(** What a walk of set in overwrite mode amounts to at its first note:
    a write of some value under that note. *)
Lemma setLoop_first (k : string) (rest : list string) (n : nnote)
  (lvl lvl' v : tree) :
  normalizeNote k = Ok n ->
  setLoop (k :: rest) lvl v Overwrite = Ok lvl' ->
  exists X,
    assign lvl n X = Ok lvl'
    /\ (rest <> [] ->
        exists from,
          setLoop rest from v Overwrite = Ok X
          /\ (if hasOwn lvl n then from = getProp lvl n
              else from = Arr [] \/ from = Obj [])).
Proof.
  intros N. destruct rest as [|next rest'].
  - cbn [setLoop]. rewrite N. cbn [bind].
    destruct (isArray lvl && negb (isNumber n)); [discriminate|].
    intros S. exists v. split; [|congruence].
    destruct (hasOwn lvl n); [exact S|].
    rewrite andb_false_r in S. now destruct (assign lvl n v).
  - destruct (hasOwn lvl n) eqn:O.
    + rewrite (setLoop_present k (next :: rest') n lvl v Overwrite
                 ltac:(discriminate) N O (hasOwn_kind _ _ O)).
      destruct (setLoop (next :: rest') (getProp lvl n) v Overwrite)
        as [X|] eqn:S; [|discriminate].
      cbn [bind]. intros A. exists X. split; [exact A|]. intros _.
      exists (getProp lvl n). now split.
    + destruct (normalizeNote next) as [n'|] eqn:N'.
      2:{ cbn [setLoop]. rewrite N, N'. discriminate. }
      destruct (isArray lvl && negb (isNumber n)) eqn:A.
      { cbn [setLoop]. rewrite N, N'. cbn [bind]. rewrite A. discriminate. }
      rewrite (setLoop_absent k next rest' n n' lvl v N N' O A).
      cbv zeta.
      set (fresh := if isNumber n' then Arr [] else Obj []).
      destruct (assign lvl n fresh) as [lvl1|] eqn:A1; [|discriminate].
      cbn [bind].
      destruct (setLoop (next :: rest') fresh v Overwrite) as [X|] eqn:S;
        [|discriminate].
      cbn [bind]. rewrite (assign_assign _ _ _ _ X A1). intros A2.
      exists X. split; [exact A2|]. intros _. exists fresh.
      split; [exact S|]. unfold fresh. destruct (isNumber n'); auto.
Qed.

Lemma walk_fresh (q : list string) (fresh : tree) :
  q <> [] -> fresh = Arr [] \/ fresh = Obj [] -> walk q fresh = None.
Proof.
  destruct q as [|m q]; [congruence|]. intros _ F. cbn [walk].
  destruct (normalizeNote m) as [n|]; [|reflexivity].
  destruct F as [-> | ->]; destruct n; reflexivity.
Qed.

Lemma walk_undefined (q : list string) :
  walk q undefined = None \/ walk q undefined = Some undefined.
Proof.
  destruct q as [|m q]; [now right | left]. cbn [walk].
  now destruct (normalizeNote m).
Qed.

Lemma assign_untaken (lvl lvl' : tree) (n : nnote) (v : tree) :
  takes lvl n = false -> hasOwn lvl n = false ->
  assign lvl n v = Ok lvl' -> hasOwn lvl' n = false.
Proof.
  destruct lvl as [s|props|items], n as [k|i|];
    cbn [takes assign hasOwn propKey]; try discriminate; try reflexivity;
    try (now intros _ _ [= <-]).
  intros K O [= <-]. cbn [hasOwn]. unfold writeKey.
  destruct (lookup k props) eqn:L; [discriminate|].
  apply orb_false_iff in K as [K _]. apply negb_false_iff in K.
  rewrite K. cbn [andb]. now rewrite L.
Qed.

(** A write in overwrite mode and a notation that parts from the written
    one: what the notation led to, it leads to; where it led nowhere, it
    still does, or it has come to lead to the undefined of a hole, when
    the write has grown a list past its index. *)
Lemma setLoop_frame (c : list string) :
  forall (a b : string) (pa qb : list string) (na nb : nnote)
         (lvl lvl' v : tree),
    normalizeNote a = Ok na ->
    normalizeNote b = Ok nb ->
    propKey na <> propKey nb ->
    setLoop (c ++ a :: pa) lvl v Overwrite = Ok lvl' ->
    match walk (c ++ b :: qb) lvl with
    | Some x => walk (c ++ b :: qb) lvl' = Some x
    | None => walk (c ++ b :: qb) lvl' = None
              \/ walk (c ++ b :: qb) lvl' = Some undefined
    end.
Proof.
  induction c as [|k c IH]; intros a b pa qb na nb lvl lvl' v Na Nb D S;
    cbn [app] in *.
  - destruct (setLoop_first a pa na lvl lvl' v Na S) as (X & A & _).
    cbn [walk]. rewrite Nb.
    destruct (assign_other _ _ _ _ _ A D) as (G & Up & Down). rewrite G.
    destruct (hasOwn lvl nb) eqn:O.
    + rewrite (Up eq_refl). destruct (walk qb (getProp lvl nb)); auto.
    + destruct (hasOwn lvl' nb) eqn:O'; [|now left].
      destruct (Down eq_refl eq_refl) as (_ & _ & U).
      rewrite <- G, U. apply walk_undefined.
  - destruct (normalizeNote k) as [nk|] eqn:Nk.
    2:{ cbn [setLoop] in S. rewrite Nk in S. discriminate. }
    destruct (setLoop_first k (c ++ a :: pa) nk lvl lvl' v Nk S)
      as (X & A & R).
    destruct R as (from & SX & F); [now destruct c|].
    cbn [walk]. rewrite Nk.
    pose proof (IH a b pa qb na nb from X v Na Nb D SX) as H.
    destruct (hasOwn lvl nk) eqn:O.
    + destruct (assign_member _ _ _ _ (hasOwn_takes _ _ O) A) as [-> ->].
      now subst from.
    + destruct (takes lvl nk) eqn:K.
      * destruct (assign_member _ _ _ _ K A) as [-> ->].
        rewrite (walk_fresh (c ++ b :: qb) from) in H; [exact H | | exact F].
        now destruct c.
      * rewrite (assign_untaken _ _ _ _ K O A). now left.
Qed.

(** The same, where the level at which the notations part is there and
    the write does not grow it: the notation leads to what it led to. *)
Lemma setLoop_frame_eq (c : list string) :
  forall (a b : string) (pa qb : list string) (na nb : nnote)
         (lvl lvl' lv v : tree),
    normalizeNote a = Ok na ->
    normalizeNote b = Ok nb ->
    propKey na <> propKey nb ->
    walk c lvl = Some lv ->
    (isArray lv = true -> hasOwn lv na = true \/ hasOwn lv nb = true) ->
    setLoop (c ++ a :: pa) lvl v Overwrite = Ok lvl' ->
    walk (c ++ b :: qb) lvl' = walk (c ++ b :: qb) lvl.
Proof.
  induction c as [|k c IH]; intros a b pa qb na nb lvl lvl' lv v Na Nb D W R S;
    cbn [app] in *.
  - injection W as <-.
    destruct (setLoop_first a pa na lvl lvl' v Na S) as (X & A & _).
    cbn [walk]. rewrite Nb.
    now destruct (assign_other_eq _ _ _ _ _ A D R) as [-> ->].
  - cbn [walk] in W.
    destruct (normalizeNote k) as [nk|] eqn:Nk; [|discriminate].
    destruct (hasOwn lvl nk) eqn:O; [|discriminate].
    destruct (setLoop_first k (c ++ a :: pa) nk lvl lvl' v Nk S)
      as (X & A & F).
    destruct F as (from & SX & F); [now destruct c|].
    rewrite O in F. subst from.
    cbn [walk]. rewrite Nk, O.
    destruct (assign_member _ _ _ _ (hasOwn_takes _ _ O) A) as [-> ->].
    exact (IH a b pa qb na nb _ X lv v Na Nb D W R SX).
Qed.

(** X11: set in overwrite mode leaves every other branch as it was.
    When the notations p and q part at some note (after a common
    beginning, p goes on with a note and q with a note of another key
    or index), then after set(p, v) inspectGet(q) finds the same value
    as before, and the same has, with one exception: an index that the
    write has put below the length of a list, by writing past it, has
    become a member, a hole that holds undefined.  When the level at
    which the notations part is there and is no list, nothing at all
    changes for q. *)
Theorem set_leaves_other_paths (T T' : tree) (c pa qb : list string)
  (a b : string) (na nb : nnote) (v : tree) (r r' : InspectResult) :
  normalizeNote a = Ok na ->
  normalizeNote b = Ok nb ->
  propKey na <> propKey nb ->
  set T (c ++ a :: pa) v Overwrite = Ok T' ->
  inspectGet T (c ++ b :: qb) = Ok r ->
  inspectGet T' (c ++ b :: qb) = Ok r' ->
  value r' = value r
  /\ (has r' = has r
      \/ (has r = false /\ has r' = true /\ value r' = undefined))
  /\ (forall lv, walk c T = Some lv -> isArray lv = false -> has r' = has r).
Proof.
  intros Na Nb D S G G'.
  revert S. unfold set, split.
  destruct (isValid (c ++ a :: pa)); [|discriminate]. cbn [bind]. intros S.
  pose proof (setLoop_frame c a b pa qb na nb T T' v Na Nb D S) as W.
  apply inspectGet_walk in G, G'.
  split; [|split].
  - destruct (walk (c ++ b :: qb) T).
    + rewrite W in G'. destruct G as [_ ->], G' as [_ ->]. reflexivity.
    + destruct G as [_ ->]. destruct W as [W | W]; rewrite W in G';
        now destruct G' as [_ ->].
  - destruct (walk (c ++ b :: qb) T).
    + rewrite W in G'. destruct G as [-> _], G' as [-> _]. now left.
    + destruct G as [-> _]. destruct W as [W | W]; rewrite W in G';
        destruct G' as [-> ->]; auto.
  - intros lv Wc A.
    assert (E : walk (c ++ b :: qb) T' = walk (c ++ b :: qb) T).
    { apply (setLoop_frame_eq c a b pa qb na nb T T' lv v Na Nb D Wc);
        [congruence | exact S]. }
    rewrite E in G'.
    destruct (walk (c ++ b :: qb) T); destruct G as [-> _], G' as [-> _];
      reflexivity.
Qed.

Lemma set_leaves_other_paths_witness :
  exists r r',
    inspectGet (Obj [("car", Obj [("year", Leaf (Num 1970))])])
      ["car"; "year"] = Ok r
    /\ inspectGet (Obj [("car", Obj [("year", Leaf (Num 1970));
                                    ("color", Leaf (Str "red"))])])
         ["car"; "year"] = Ok r'
    /\ value r' = value r /\ has r' = has r.
Proof.
  eexists _, _. split; [reflexivity|]. split; [reflexivity|].
  destruct (set_leaves_other_paths
              (Obj [("car", Obj [("year", Leaf (Num 1970))])])
              (Obj [("car", Obj [("year", Leaf (Num 1970));
                                 ("color", Leaf (Str "red"))])])
              ["car"] [] [] "color" "year" (NKey "color") (NKey "year")
              (Leaf (Str "red")) _ _ eq_refl eq_refl
              ltac:(discriminate) eq_refl eq_refl eq_refl)
    as (V & _ & H).
  split; [exact V|]. exact (H _ eq_refl eq_refl).
Defined.

(** The exception of X11: writing index 2 of a list of one item makes
    index 1 a member. *)
Remark set_grows_list :
  exists T' r r',
    set (Arr [Some (Leaf (Num 1))]) ["[2]"] (Leaf (Num 3)) Overwrite = Ok T'
    /\ inspectGet (Arr [Some (Leaf (Num 1))]) ["[1]"] = Ok r
    /\ inspectGet T' ["[1]"] = Ok r'
    /\ has r = false /\ has r' = true /\ value r' = undefined.
Proof.
  eexists _, _, _. split; [reflexivity|]. split; [reflexivity|].
  split; [reflexivity|]. repeat split.
Qed.

(** *** Insert mode *)

(** A walk of set goes down the part of the path that is there and
    writes the level it reaches back into place. *)
Lemma setLoop_along (pn : list string) :
  forall (k : string) (rest : list string) (lvl par v : tree) (mode : setMode),
    walk pn lvl = Some par ->
    setLoop (pn ++ k :: rest) lvl v mode
    = (par' <- setLoop (k :: rest) par v mode ;;
       modifyAt pn (fun _ => par') lvl).
Proof.
  induction pn as [|m pn IH]; intros k rest lvl par v mode W.
  - injection W as <-. cbn [app modifyAt].
    now destruct (setLoop (k :: rest) lvl v mode).
  - cbn [walk] in W.
    destruct (normalizeNote m) as [nm|] eqn:N; [|discriminate].
    destruct (hasOwn lvl nm) eqn:O; [|discriminate].
    cbn [app].
    assert (NE : pn ++ k :: rest <> []) by now destruct pn.
    rewrite (setLoop_present m (pn ++ k :: rest) nm lvl v mode NE N O
               (hasOwn_kind _ _ O)).
    rewrite (IH k rest (getProp lvl nm) par v mode W).
    destruct (setLoop (k :: rest) par v mode) as [par'|e]; cbn [bind].
    + cbn [modifyAt]. rewrite N. cbn [bind]. now rewrite O.
    + reflexivity.
Qed.

Lemma isValid_last_note (pn : list string) (k : string) :
  isValid (pn ++ [k]) = true -> exists n, normalizeNote k = Ok n.
Proof.
  unfold isValid. destruct (pn ++ [k]) eqn:E; [discriminate|].
  rewrite <- E, forallb_app. cbn [forallb]. rewrite andb_true_r.
  intros H. apply andb_prop in H as [_ H]. now apply validNote_normalize.
Qed.

Lemma nth_insertAt_before (i : nat) (v : tree) :
  forall (items : list (option tree)) (j : nat),
    j < i -> i < length items ->
    nth_error (insertAt i v items) j = nth_error items j.
Proof.
  induction i as [|i IH]; intros items j J L; [lia|].
  destruct items as [|x items]; [cbn in L; lia|]. cbn [insertAt].
  destruct j as [|j]; [reflexivity|]. cbn [nth_error].
  apply IH; cbn in L; lia.
Qed.

Lemma nth_insertAt_at (i : nat) (v : tree) :
  forall (items : list (option tree)),
    i < length items -> nth_error (insertAt i v items) i = Some (Some v).
Proof.
  induction i as [|i IH]; intros items L; [reflexivity|].
  destruct items as [|x items]; [cbn in L; lia|]. cbn [insertAt nth_error].
  apply IH. cbn in L. lia.
Qed.

Lemma nth_insertAt_after (i : nat) (v : tree) :
  forall (items : list (option tree)) (j : nat),
    i <= j -> i < length items ->
    nth_error (insertAt i v items) (S j) = nth_error items j.
Proof.
  induction i as [|i IH]; intros items j J L; [reflexivity|].
  destruct items as [|x items]; [cbn in L; lia|]. cbn [insertAt].
  destruct j as [|j]; [lia|]. cbn [nth_error].
  apply (IH items j); cbn in L; lia.
Qed.

Lemma hasOwn_in_range (items : list (option tree)) (i : nat) :
  hasOwn (Arr items) (NIdx i) = true -> i < length items.
Proof. cbn [hasOwn]. apply Nat.ltb_lt. Qed.

Lemma walk_item (pn : list string) (j : nat) (lvl : tree)
  (items : list (option tree)) :
  walk pn lvl = Some (Arr items) ->
  walk (pn ++ [indexNote j]) lvl
  = match nth_error items j with
    | Some (Some x) => Some x
    | Some None => Some undefined
    | None => None
    end.
Proof.
  intros W. rewrite walk_snoc, W, normalizeNote_index.
  symmetry. exact (member_spec (Arr items) (NIdx j)).
Qed.

(** X12: set in insert mode needs a list to insert into. When the parent
    of the notation is there and is not a list, set throws "Cannot set
    value by inserting at index, on an object", whether or not the last
    note is there. *)
Theorem set_insert_needs_list (T par v : tree) (pn : list string) (k : string) :
  isValid (pn ++ [k]) = true ->
  walk pn T = Some par ->
  isArray par = false ->
  set T (pn ++ [k]) v Insert = Err InsertOnNonList.
Proof.
  intros V W A. unfold set, split. rewrite V. cbn [bind].
  destruct (isValid_last_note pn k V) as [n N].
  rewrite (setLoop_along pn k [] T par v Insert W).
  cbn [setLoop]. rewrite N. cbn [bind]. rewrite A. cbn [andb negb].
  destruct (hasOwn par n); [|reflexivity].
  destruct par as [s|props|items]; [reflexivity|reflexivity|discriminate].
Qed.

Lemma set_insert_needs_list_witness :
  set (Obj [("car", Obj [("year", Leaf (Num 1970))])])
    ["car"; "year"] (Leaf (Num 2000)) Insert = Err InsertOnNonList.
Proof.
  apply (set_insert_needs_list _ (Obj [("year", Leaf (Num 1970))]) _
           ["car"] "year"); reflexivity.
Defined.

(** X13: set in insert mode on an item that is there splices the value in.
    Afterwards the notation leads to the new value, the item that was at
    an index j at or after it is found at j + 1, and the items before it
    have not moved. *)
Theorem set_insert_shifts (T v : tree) (pn : list string) (k : string)
  (i : nat) (items : list (option tree)) :
  isValid (pn ++ [k]) = true ->
  normalizeNote k = Ok (NIdx i) ->
  walk pn T = Some (Arr items) ->
  hasOwn (Arr items) (NIdx i) = true ->
  exists T',
    set T (pn ++ [k]) v Insert = Ok T'
    /\ walk (pn ++ [k]) T' = Some v
    /\ (forall j, i <= j ->
          walk (pn ++ [indexNote (S j)]) T' = walk (pn ++ [indexNote j]) T)
    /\ (forall j, j < i ->
          walk (pn ++ [indexNote j]) T' = walk (pn ++ [indexNote j]) T).
Proof.
  intros V N W O. unfold set, split. rewrite V. cbn [bind].
  rewrite (setLoop_along pn k [] T (Arr items) v Insert W).
  cbn [setLoop]. rewrite N. cbn [bind isArray isNumber negb andb].
  rewrite O. cbn [bind].
  destruct (modifyAt_walk pn (fun _ => Arr (insertAt i v items)) T _ W)
    as (T' & M & W').
  pose proof (hasOwn_in_range items i O) as L.
  exists T'. split; [exact M|]. split; [|split].
  - rewrite walk_snoc, W', N, <- member_spec. cbn [member].
    now rewrite (nth_insertAt_at i v items L).
  - intros j J. rewrite (walk_item pn (S j) T' _ W'), (walk_item pn j T _ W).
    now rewrite (nth_insertAt_after i v items j J L).
  - intros j J. rewrite (walk_item pn j T' _ W'), (walk_item pn j T _ W).
    now rewrite (nth_insertAt_before i v items j J L).
Qed.

Lemma set_insert_shifts_witness :
  exists T',
    set (Obj [("a", Arr [Some (Leaf (Num 1)); Some (Leaf (Num 2))])])
      ["a"; "[0]"] (Leaf (Num 9)) Insert = Ok T'
    /\ walk ["a"; "[0]"] T' = Some (Leaf (Num 9))
    /\ walk ["a"; "[1]"] T' = Some (Leaf (Num 1))
    /\ walk ["a"; "[2]"] T' = Some (Leaf (Num 2)).
Proof.
  destruct (set_insert_shifts
              (Obj [("a", Arr [Some (Leaf (Num 1)); Some (Leaf (Num 2))])])
              (Leaf (Num 9)) ["a"] "[0]" 0
              [Some (Leaf (Num 1)); Some (Leaf (Num 2))]
              eq_refl eq_refl eq_refl eq_refl)
    as (T' & S & W0 & Wafter & _).
  exists T'. split; [exact S|]. split; [exact W0|]. split.
  - exact (Wafter 0 (le_n 0)).
  - exact (Wafter 1 (le_S 0 0 (le_n 0))).
Defined.

(** X14: set in insert mode at an index past the end of the list writes
    as the overwrite mode does: the value lands at the index, with holes
    before it, and nothing is spliced. *)
Theorem set_insert_absent_item (T v : tree) (pn : list string) (k : string)
  (i : nat) (items : list (option tree)) :
  normalizeNote k = Ok (NIdx i) ->
  walk pn T = Some (Arr items) ->
  hasOwn (Arr items) (NIdx i) = false ->
  set T (pn ++ [k]) v Insert = set T (pn ++ [k]) v Overwrite.
Proof.
  intros N W O. unfold set, split.
  destruct (isValid (pn ++ [k])); [|reflexivity]. cbn [bind].
  rewrite !(setLoop_along pn k [] T (Arr items) v _ W).
  cbn [setLoop]. rewrite N. cbn [bind isArray isNumber negb andb].
  now rewrite O.
Qed.

Lemma set_insert_absent_item_witness :
  set (Obj [("a", Arr [Some (Leaf (Num 1))])]) ["a"; "[2]"] (Leaf (Num 9))
    Insert
  = set (Obj [("a", Arr [Some (Leaf (Num 1))])]) ["a"; "[2]"] (Leaf (Num 9))
      Overwrite.
Proof.
  apply (set_insert_absent_item _ _ ["a"] "[2]" 2 [Some (Leaf (Num 1))]);
    reflexivity.
Defined.

(** *** merge without overwrite *)

Lemma VAR_index (i : nat) :
  VAR (NilEmpty.string_of_uint (Nat.to_uint i)) = false.
Proof. now destruct (Nat.to_uint i). Qed.

Lemma nameNote_normalize (m : string) (nm : nnote) :
  nameNote m = true -> normalizeNote m = Ok nm ->
  forall k, nm = NKey k -> VAR k = true /\ k <> "undefined".
Proof.
  unfold nameNote, normalizeNote. destruct (VAR m) eqn:Vm.
  - cbn [andb orb]. intros H [= <-] k [= <-]. split; [exact Vm|].
    intros ->. cbn in H. discriminate H.
  - cbn [andb orb]. destruct (ARRAY_NOTE m); [|discriminate].
    intros _ [= <-] k. discriminate.
Qed.

(** Two notes that name the one slot of a level are the one note, when
    the second is a member and, if a key, a variable name other than
    undefined: the write of an index or of the undefined note on a map
    goes to a key that is no such name. *)
Lemma same_slot (lvl lvl' : tree) (n m : nnote) (X : tree) :
  assign lvl n X = Ok lvl' ->
  hasOwn lvl m = true ->
  propKey n = propKey m ->
  (forall k, m = NKey k -> VAR k = true /\ k <> "undefined") ->
  n = m.
Proof.
  intros A O E H. destruct lvl as [s|props|items]; [discriminate| |].
  - destruct m as [k|j|]; try discriminate O.
    destruct (H k eq_refl) as [Vk Uk]. cbn [propKey] in E.
    destruct n as [k'|i|]; cbn [propKey] in E.
    + now subst.
    + subst k. now rewrite VAR_index in Vk.
    + now subst k.
  - destruct n as [k|i|]; try discriminate A.
    destruct m as [k|j|]; try discriminate O.
    now rewrite (propKey_index_inj _ _ E).
Qed.

(** A write along a path that is absent leaves every leaf where it is. *)
Lemma setLoop_absent_keeps_leaf (p : list string) :
  forall (lvl lvl' v : tree) (q : list string) (x : scalar),
    forallb nameNote q = true ->
    walk p lvl = None ->
    setLoop p lvl v Overwrite = Ok lvl' ->
    walk q lvl = Some (Leaf x) ->
    walk q lvl' = Some (Leaf x).
Proof.
  induction p as [|k rest IH]; intros lvl lvl' v q x Q Wp S Wq; [discriminate|].
  destruct (normalizeNote k) as [n|] eqn:N.
  2:{ cbn [setLoop] in S. rewrite N in S. discriminate. }
  destruct (setLoop_first k rest n lvl lvl' v N S) as (X & A & R).
  destruct q as [|m q'].
  - injection Wq as ->. discriminate.
  - cbn [forallb] in Q. apply andb_true_iff in Q as [Qm Q].
    cbn [walk] in Wq |- *.
    destruct (normalizeNote m) as [nm|] eqn:Nm; [|discriminate].
    destruct (hasOwn lvl nm) eqn:Om; [|discriminate].
    destruct (string_dec (propKey n) (propKey nm)) as [E|D].
    + pose proof (same_slot _ _ _ _ _ A Om E (nameNote_normalize _ _ Qm Nm)).
      subst nm.
      destruct (assign_member _ _ _ _ (hasOwn_takes _ _ Om) A) as [-> ->].
      cbn [walk] in Wp. rewrite N, Om in Wp.
      assert (NE : rest <> []) by (intros ->; discriminate).
      destruct (R NE) as (from & SX & F). rewrite Om in F. subst from.
      exact (IH _ _ _ _ _ Q Wp SX Wq).
    + destruct (assign_other _ _ _ _ _ A D) as (-> & Up & _).
      now rewrite (Up Om).
Qed.

Lemma set_no_overwrite_keeps_leaf (T T' v : tree) (p : notation)
  (q : list string) (x : scalar) :
  forallb nameNote q = true ->
  set T p v NoOverwrite = Ok T' ->
  walk q T = Some (Leaf x) ->
  walk q T' = Some (Leaf x).
Proof.
  intros Q. unfold set, split. destruct (isValid p) eqn:V; [|discriminate].
  cbn [bind]. intros S Wq.
  destruct (walk p T) as [old|] eqn:Wp.
  - assert (NE : p <> []) by (intros ->; discriminate).
    rewrite (setLoop_keeps_present p T old v NE Wp) in S.
    injection S as <-. exact Wq.
  - rewrite (setLoop_absent_modes p T v Wp) in S.
    exact (setLoop_absent_keeps_leaf p T T' v q x Q Wp S Wq).
Qed.

(** X15: merge with overwrite off never touches a value of the source
    that a notation of names leads to.  A scalar the source holds at a
    notation whose notes are variable names other than undefined, or
    indices, is held there unchanged by the merged tree, whatever the
    notations object brings. *)
Theorem merge_no_overwrite_keeps_values (notationsObject : flat) :
  forall (T T' : tree) (q : list string) (x : scalar),
    forallb nameNote q = true ->
    merge T notationsObject false = Ok T' ->
    walk q T = Some (Leaf x) ->
    walk q T' = Some (Leaf x).
Proof.
  induction notationsObject as [|[n v] rest IH]; intros T T' q x Q M W.
  - injection M as <-. exact W.
  - cbn [merge] in M. destruct (reserved n); [exact (IH _ _ _ _ Q M W)|].
    destruct (set T n v NoOverwrite) as [T1|] eqn:S; [|discriminate].
    cbn [bind] in M.
    exact (IH _ _ _ _ Q M (set_no_overwrite_keeps_leaf _ _ _ _ _ _ Q S W)).
Qed.

Lemma merge_no_overwrite_keeps_values_witness :
  walk ["car"; "year"]
    (Obj [("car", Obj [("year", Leaf (Num 1970));
                       ("color", Leaf (Str "red"))])])
  = Some (Leaf (Num 1970)).
Proof.
  apply (merge_no_overwrite_keeps_values
           [(["car"; "year"], Leaf (Num 1965));
            (["car"; "color"], Leaf (Str "red"))]
           (Obj [("car", Obj [("year", Leaf (Num 1970))])]));
    reflexivity.
Defined.

(** Where X15 stops: a quoted key that is the text of a number is the
    key an index note writes on a map, and the index is no member of
    the map, so merge with overwrite off writes over it. *)
Remark merge_no_overwrite_index_on_map :
  merge (Obj [("0", Leaf (Num 1))]) [(["[0]"], Leaf (Num 2))] false
  = Ok (Obj [("0", Leaf (Num 2))]).
Proof. reflexivity. Qed.

End Writing.

Section Moving.

Import Utils Notation.

Lemma walk_last (notes : list string) (T : tree) :
  notes <> [] ->
  walk notes T
  = match walk (removelast notes) T with
    | Some par =>
        match normalizeNote (last notes "") with
        | Ok n => if hasOwn par n then Some (getProp par n) else None
        | Err _ => None
        end
    | None => None
    end.
Proof.
  intros NE. rewrite (app_removelast_last "" NE) at 1. apply walk_snoc.
Qed.

Lemma walk_app (p q : list string) :
  forall lvl,
    walk (p ++ q) lvl
    = match walk p lvl with Some l => walk q l | None => None end.
Proof.
  induction p as [|note rest IH]; intros lvl; cbn [app walk]; [reflexivity|].
  destruct (normalizeNote note) as [n|]; [|reflexivity].
  destruct (hasOwn lvl n); [apply IH | reflexivity].
Qed.

(** What inspectRemove reports and leaves, by what the notation leads to
    on the tree it is given.  After the removal of a member of a map the
    notation leads nowhere; after the removal of an item of a list with
    preserveIndices on, it leads to the undefined of the hole. *)
Lemma inspectRemove_walk (opts : options) (T T1 : tree) (notes : notation)
  (r : InspectResult) :
  inspectRemove opts T notes = Ok (r, T1) ->
  match walk notes T with
  | Some x =>
      has r = true /\ value r = x
      /\ (forall par, walk (removelast notes) T = Some par ->
            walk (removelast notes) T1
            = Some (if negb (preserveIndices opts) && isArray par
                    then spliceOut par
                           (match normalizeNote (last notes "") with
                            | Ok n => n
                            | Err _ => NNone
                            end)
                    else deleteProp par
                           (match normalizeNote (last notes "") with
                            | Ok n => n
                            | Err _ => NNone
                            end))
            /\ (isArray par = false -> walk notes T1 = None)
            /\ (isArray par = true -> preserveIndices opts = true ->
                walk notes T1 = Some undefined))
  | None => has r = false /\ value r = undefined /\ T1 = T
  end.
Proof.
  intros H.
  assert (V : isValid notes = true).
  { revert H. unfold inspectRemove, parent, split.
    destruct (isValid notes); [reflexivity | discriminate]. }
  assert (NE : notes <> []) by (destruct notes; [discriminate | congruence]).
  rewrite (walk_last notes T NE), (walk_last notes T1 NE).
  assert (Cut : forall par n,
            hasOwn par n = true ->
            walk (removelast notes) T1
            = Some (if negb (preserveIndices opts) && isArray par
                    then spliceOut par n else deleteProp par n) ->
            normalizeNote (last notes "") = Ok n ->
            (isArray par = false ->
             match walk (removelast notes) T1 with
             | Some par0 =>
                 match normalizeNote (last notes "") with
                 | Ok n0 => if hasOwn par0 n0 then Some (getProp par0 n0) else None
                 | Err _ => None
                 end
             | None => None
             end = None)
            /\ (isArray par = true -> preserveIndices opts = true ->
                match walk (removelast notes) T1 with
                | Some par0 =>
                    match normalizeNote (last notes "") with
                    | Ok n0 => if hasOwn par0 n0 then Some (getProp par0 n0) else None
                    | Err _ => None
                    end
                | None => None
                end = Some undefined)).
  { intros par n O W1 N. rewrite W1, N. split.
    - intros A. rewrite A, andb_false_r, hasOwn_deleteProp, A. reflexivity.
    - intros A P. rewrite P. cbn [negb andb].
      rewrite hasOwn_deleteProp, A, O. cbn [andb].
      now rewrite (getProp_deleteProp _ _ A). }
  revert H. unfold inspectRemove, parent, split. rewrite V. cbn [bind].
  destruct (removelast notes) as [|p0 pr] eqn:RL; cbn [bind].
  - cbn [walk] in *.
    destruct (normalizeNote (last notes "")) as [n|] eqn:N; [|discriminate].
    cbn [bind]. destruct (hasOwn T n) eqn:O.
    + intros [= <- <-]. cbn [has value parentIsArray].
      split; [reflexivity|]. split; [reflexivity|].
      intros par [= <-]. split; [reflexivity|].
      exact (Cut T n O eq_refl eq_refl).
    + intros [= <- <-]. now cbn [has value].
  - set (pn := p0 :: pr) in *.
    assert (NEp : pn <> []) by discriminate.
    destruct (get opts T pn (Some (Leaf Null))) as [par|] eqn:G;
      [|discriminate].
    cbn [bind].
    destruct (normalizeNote (last notes "")) as [n|] eqn:N; [|discriminate].
    cbn [bind].
    pose proof (get_default _ _ _ _ _ NEp G) as P.
    destruct (walk pn T) as [v|] eqn:W; subst par.
    + destruct (hasOwn v n) eqn:O.
      * set (cut := fun p : tree =>
               if negb (preserveIndices opts) && isArray v
               then spliceOut p n else deleteProp p n).
        destruct (modifyAt_walk pn cut _ _ W) as (T1' & M & W1).
        rewrite M. cbn [bind]. intros [= <- <-].
        cbn [has value parentIsArray].
        split; [reflexivity|]. split; [reflexivity|].
        intros par [= <-]. split; [exact W1|].
        exact (Cut v n O W1 eq_refl).
      * intros [= <- <-]. now cbn [has value].
    + cbn [hasOwn]. intros [= <- <-]. now cbn [has value].
Qed.

(** After a write in overwrite mode the notation leads to the value,
    for a notation that set can be read back on. *)
Lemma setLoop_walk (notes : list string) (lvl lvl' v : tree) :
  notes <> [] ->
  forallb plainNote notes = true ->
  indexed notes lvl = true ->
  setLoop notes lvl v Overwrite = Ok lvl' ->
  walk notes lvl' = Some v.
Proof.
  intros NE P I S.
  destruct (setLoop_read notes NE lvl lvl' v P I S 0 None
              (mkResult false undefined TUndefined 0 None None false))
    as (res' & par' & L & Hh & Hv).
  pose proof (inspectGetLoop_walk notes NE _ _ _ _ _ _ L) as W.
  destruct (walk notes lvl') as [x|].
  - destruct W as [_ W]. congruence.
  - congruence.
Qed.

(** A write into an empty collection of the kind its first note asks for
    goes through. *)
Lemma setLoop_fresh_total (p : list string) :
  forall (fresh v : tree) (k : string) (rest : list string) (n : nnote),
    p = k :: rest ->
    forallb validNote p = true ->
    normalizeNote k = Ok n ->
    fresh = (if isNumber n then Arr [] else Obj []) \/ fresh = Obj [] ->
    exists o, setLoop p fresh v Overwrite = Ok o.
Proof.
  induction p as [|k0 p IH]; intros fresh v k rest n E V N F; [discriminate|].
  injection E as -> ->. cbn [forallb] in V. apply andb_prop in V as [_ V].
  assert (O : hasOwn fresh n = false).
  { destruct F as [-> | ->]; [destruct (isNumber n)|]; destruct n;
      reflexivity. }
  assert (A : isArray fresh && negb (isNumber n) = false).
  { destruct F as [-> | ->]; [destruct (isNumber n) eqn:I|]; reflexivity. }
  assert (Asg : forall x, exists l, assign fresh n x = Ok l).
  { intros x. destruct F as [-> | ->]; destruct n; cbn; eauto. }
  destruct rest as [|next rest'].
  - rewrite (setLoop_last k n fresh v N O A). apply Asg.
  - assert (Vn : validNote next = true).
    { cbn [forallb] in V. now apply andb_prop in V as [V _]. }
    destruct (validNote_normalize next Vn) as [n' N'].
    rewrite (setLoop_absent k next rest' n n' fresh v N N' O A). cbv zeta.
    set (fresh' := if isNumber n' then Arr [] else Obj []).
    destruct (Asg fresh') as [lvl1 A1]. rewrite A1. cbn [bind].
    destruct (IH fresh' v next rest' n' eq_refl V N' (or_introl eq_refl))
      as [child S].
    rewrite S. cbn [bind]. rewrite (assign_assign _ _ _ _ child A1).
    apply Asg.
Qed.

Lemma set_fresh_total (p : notation) (v : tree) :
  isValid p = true -> exists o, set (Obj []) p v Overwrite = Ok o.
Proof.
  intros V. unfold set, split. rewrite V. cbn [bind].
  destruct p as [|k rest]; [discriminate|]. cbn [isValid] in V.
  assert (Vk : validNote k = true).
  { cbn [forallb] in V. now apply andb_prop in V as [V _]. }
  destruct (validNote_normalize k Vk) as [n N].
  exact (setLoop_fresh_total (k :: rest) (Obj []) v k rest n eq_refl V N
           (or_intror eq_refl)).
Qed.

(** X16: extract never fails on valid notations, and its result is
    either the empty object, when the source lacks the notation, or an
    object made by setting the new notation on an empty map.  That
    object holds under the new notation the very value the source holds
    under the notation, when the new notation can be read back on an
    empty map: its notes are indices below 2^32 - 1 or keys other than
    __proto__ and the empty quoted key, and it does not begin with an
    index. *)
Theorem extract_holds_value (source : tree) (notes : notation)
  (newNotation : option notation) :
  isValid notes = true ->
  isValid (getNewNotation newNotation notes) = true ->
  exists o,
    extract source notes newNotation = Went (Ok o)
    /\ match walk notes source with
       | Some x =>
           set (Obj []) (getNewNotation newNotation notes) x Overwrite = Ok o
           /\ (forallb plainNote (getNewNotation newNotation notes) = true ->
               indexed (getNewNotation newNotation notes) (Obj []) = true ->
               walk (getNewNotation newNotation notes) o = Some x)
       | None => o = Obj []
       end.
Proof.
  intros V Vn. unfold extract, copyTo. cbn [isCollection negb].
  destruct (inspectGet_total source notes V) as [r G]. rewrite G.
  cbn [bind]. pose proof (inspectGet_walk _ _ _ G) as W.
  destruct (walk notes source) as [x|]; destruct W as [Hh Hv]; rewrite Hh.
  - destruct (set_fresh_total (getNewNotation newNotation notes) (value r) Vn)
      as [o S].
    exists o. cbv zeta. rewrite S. split; [reflexivity|]. rewrite <- Hv.
    split; [exact S|]. intros P I.
    revert S. unfold set, split. rewrite Vn. cbn [bind]. intros S.
    apply (setLoop_walk _ (Obj []) o (value r)); try assumption.
    intros E. rewrite E in Vn. discriminate.
  - exists (Obj []). now split.
Qed.

Lemma extract_holds_value_witness :
  exists o,
    extract (Obj [("car", Obj [("brand", Leaf (Str "Ford"));
                               ("model", Leaf (Str "Mustang"))])])
      ["car"; "brand"] (Some ["carBrand"]) = Went (Ok o)
    /\ walk ["carBrand"] o = Some (Leaf (Str "Ford")).
Proof.
  destruct (extract_holds_value
              (Obj [("car", Obj [("brand", Leaf (Str "Ford"));
                                 ("model", Leaf (Str "Mustang"))])])
              ["car"; "brand"] (Some ["carBrand"]) eq_refl eq_refl)
    as (o & E & _ & R).
  exists o. split; [exact E|]. exact (R eq_refl eq_refl).
Defined.

(** Where the read-back of X16 stops: a new notation that begins with
    an index, set on the empty map, makes the key of the decimal text,
    which the index note does not read. *)
Remark extract_to_index :
  extract (Obj [("a", Leaf (Num 1))]) ["a"] (Some ["[0]"])
  = Went (Ok (Obj [("0", Leaf (Num 1))]))
  /\ walk ["[0]"] (Obj [("0", Leaf (Num 1))]) = None.
Proof. split; reflexivity. Qed.

Lemma inspectRemove_total (opts : options) (T : tree) (notes : notation) :
  isValid notes = true ->
  exists r T1, inspectRemove opts T notes = Ok (r, T1).
Proof.
  intros V.
  assert (NE : notes <> []) by (intros ->; discriminate).
  assert (Vl : exists n, normalizeNote (last notes "") = Ok n).
  { apply (isValid_last_note (removelast notes)).
    now rewrite <- (app_removelast_last "" NE). }
  destruct Vl as [n N].
  unfold inspectRemove, parent, split. rewrite V. cbn [bind].
  destruct (removelast notes) as [|p0 pr] eqn:RL; cbn [bind].
  - rewrite N. cbn [bind]. destruct (hasOwn T n); eauto.
  - set (pn := p0 :: pr) in *.
    assert (NEp : pn <> []) by discriminate.
    assert (Vp : isValid pn = true).
    { subst pn. rewrite <- RL. apply isValid_removelast; [exact V|].
      rewrite RL. discriminate. }
    destruct (inspectGet_total T pn Vp) as [r0 G0].
    assert (G : exists par, get opts T pn (Some (Leaf Null)) = Ok par).
    { unfold get. rewrite G0. cbn [bind]. rewrite andb_false_r.
      cbn [andb]. eauto. }
    destruct G as [par G]. rewrite G. cbn [bind]. rewrite N. cbn [bind].
    pose proof (get_default _ _ _ _ _ NEp G) as P.
    destruct (hasOwn par n) eqn:O; [|eauto].
    destruct (walk pn T) as [v|] eqn:W; [|subst par; discriminate O].
    subst par.
    set (cut := fun p : tree =>
           if negb (preserveIndices opts) && isArray v
           then spliceOut p n else deleteProp p n).
    destruct (modifyAt_walk pn cut _ _ W) as (T1' & M & _).
    rewrite M. cbn [bind]. eauto.
Qed.

(** X17: rename moves the value.  When the notation is there and the
    new notation parts from it at some note, rename (with overwrite)
    removes the notation and sets the new one on the tree the removal
    leaves.  The new notation then leads to the value the old one led
    to, when it can be read back on that tree: its notes are indices
    below 2^32 - 1 or keys other than __proto__ and the empty quoted
    key, and its index notes meet lists.  And the old notation leads
    nowhere, when its parent is not a list. *)
Theorem rename_moves (opts : options) (T T1 T' x : tree) (r : InspectResult)
  (c pa qb : list string) (a b : string) (na nb : nnote) :
  normalizeNote a = Ok na ->
  normalizeNote b = Ok nb ->
  propKey na <> propKey nb ->
  walk (c ++ a :: pa) T = Some x ->
  inspectRemove opts T (c ++ a :: pa) = Ok (r, T1) ->
  rename opts T (c ++ a :: pa) (Some (c ++ b :: qb)) true = Went (Ok T') ->
  (forallb plainNote (c ++ b :: qb) = true ->
   indexed (c ++ b :: qb) T1 = true ->
   walk (c ++ b :: qb) T' = Some x)
  /\ (forall par, walk (removelast (c ++ a :: pa)) T = Some par ->
                  isArray par = false ->
                  walk (c ++ a :: pa) T' = None).
Proof.
  intros Na Nb D W IR. unfold rename.
  destruct (negb (isCollection T)); [discriminate|].
  intros [= R]. revert R. rewrite IR. cbn [bind].
  pose proof (inspectRemove_walk _ _ _ _ _ IR) as H.
  rewrite W in H. destruct H as (Hh & Hv & Gone). rewrite Hh.
  cbn [getNewNotation]. cbv zeta. rewrite Hv.
  unfold set, split.
  destruct (isValid (c ++ b :: qb)); [|discriminate]. cbn [bind]. intros S.
  split.
  - intros P I. apply (setLoop_walk _ T1 T' x); try assumption.
    now destruct c.
  - intros par Wp A. destruct (Gone par Wp) as (W1 & G1 & _).
    rewrite <- (G1 A). rewrite A, andb_false_r in W1.
    assert (L : exists lv, walk c T1 = Some lv
                           /\ (isArray lv = true -> hasOwn lv na = true)).
    { destruct pa as [|a' pa'].
      - rewrite removelast_last in W1. eexists. split; [exact W1|].
        rewrite isArray_deleteProp, A. discriminate.
      - rewrite removelast_app in W1 by discriminate.
        change (removelast (a :: a' :: pa'))
          with (a :: removelast (a' :: pa')) in W1.
        rewrite walk_app in W1.
        destruct (walk c T1) as [lv|]; [|discriminate].
        exists lv. split; [reflexivity|]. intros _.
        cbn [walk] in W1. rewrite Na in W1.
        now destruct (hasOwn lv na). }
    destruct L as (lv & Wc & Hl).
    apply (setLoop_frame_eq c b a qb pa nb na T1 T' lv x Nb Na
             (fun E => D (eq_sym E)) Wc); [|exact S].
    intros Al. right. now apply Hl.
Qed.

Lemma rename_moves_witness :
  walk ["carBrand"]
    (Obj [("car", Obj [("model", Leaf (Str "Mustang"))]);
          ("carBrand", Leaf (Str "Ford"))])
  = Some (Leaf (Str "Ford"))
  /\ walk ["car"; "brand"]
       (Obj [("car", Obj [("model", Leaf (Str "Mustang"))]);
             ("carBrand", Leaf (Str "Ford"))])
     = None.
Proof.
  destruct (rename_moves DEFAULT_OPTS
              (Obj [("car", Obj [("brand", Leaf (Str "Ford"));
                                 ("model", Leaf (Str "Mustang"))])])
              (Obj [("car", Obj [("model", Leaf (Str "Mustang"))])])
              (Obj [("car", Obj [("model", Leaf (Str "Mustang"))]);
                    ("carBrand", Leaf (Str "Ford"))])
              (Leaf (Str "Ford"))
              (mkResult true (Leaf (Str "Ford")) TString 2 (Some "brand")
                 (Some (NKey "brand")) false)
              [] ["brand"] [] "car" "carBrand" (NKey "car") (NKey "carBrand")
              eq_refl eq_refl ltac:(discriminate) eq_refl eq_refl eq_refl)
    as [New Old].
  split; [exact (New eq_refl eq_refl)|].
  exact (Old (Obj [("brand", Leaf (Str "Ford"));
                   ("model", Leaf (Str "Mustang"))]) eq_refl eq_refl).
Defined.

(** X18: moving a notation the source does not have is no failure and
    no change, with strict on as with strict off: moveTo leaves the
    source and the destination as they were. *)
Theorem moveTo_absent (opts : options) (T destination : tree)
  (notes : notation) (newNotation : option notation) (overwrite : bool) :
  isValid notes = true ->
  isCollection destination = true ->
  walk notes T = None ->
  moveTo opts T destination notes newNotation overwrite
  = Went (Ok (T, destination)).
Proof.
  intros V Cd W. unfold moveTo. rewrite Cd. cbn [negb].
  destruct (inspectRemove_total opts T notes V) as (r & T1 & IR).
  rewrite IR. cbn [bind].
  pose proof (inspectRemove_walk _ _ _ _ _ IR) as H. rewrite W in H.
  destruct H as (Hh & _ & ->). now rewrite Hh.
Qed.

Lemma moveTo_absent_witness :
  moveTo (mkOptions true false)
    (Obj [("car", Obj [("brand", Leaf (Str "Ford"))])])
    (Obj [("dodge", Leaf (Str "Charger"))])
    ["car"; "model"] (Some ["ford"]) true
  = Went (Ok (Obj [("car", Obj [("brand", Leaf (Str "Ford"))])],
              Obj [("dodge", Leaf (Str "Charger"))])).
Proof.
  apply (moveTo_absent (mkOptions true false)); reflexivity.
Defined.

Lemma separateLoop_app (opts : options) (ns : list notation) :
  forall (T o : tree) (rest : list notation),
    separateLoop opts T o (ns ++ rest)
    = (r <- separateLoop opts T o ns ;;
       separateLoop opts (fst r) (snd r) rest).
Proof.
  induction ns as [|n ns IH]; intros T o rest; [reflexivity|].
  cbn [app separateLoop].
  destruct (inspectRemove opts T n) as [[r T1]|]; [|reflexivity].
  cbn [bind]. destruct (set o n (value r) Overwrite); [|reflexivity].
  cbn [bind]. apply IH.
Qed.

(** X19: separate sets every notation of its list on the new source,
    found or not.  For the last notation of the list, with the old and
    the new source as the notations before it have left them: when the
    notation can be read back on the new source (its notes are indices
    below 2^32 - 1 or keys other than __proto__ and the empty quoted
    key, and its index notes meet lists of the new source), the new
    source holds under it the value the old source held, and holds
    undefined under it when the old source had nothing there, in which
    case the old source is left as it was. *)
Theorem separate_last (opts : options) (T T0 T1 o0 o : tree)
  (ns : list notation) (p : notation) :
  separate opts T ns = Ok (T0, o0) ->
  separate opts T (ns ++ [p]) = Ok (T1, o) ->
  forallb plainNote p = true ->
  indexed p o0 = true ->
  match walk p T0 with
  | Some x => walk p o = Some x
  | None => walk p o = Some undefined /\ T1 = T0
  end.
Proof.
  unfold separate. rewrite separateLoop_app. intros ->.
  cbn [bind fst snd separateLoop]. intros H P I. revert H.
  destruct (inspectRemove opts T0 p) as [[r T0']|] eqn:IR; [|discriminate].
  cbn [bind].
  destruct (set o0 p (value r) Overwrite) as [o'|] eqn:S; [|discriminate].
  cbn [bind]. intros [= <- <-].
  assert (Wo : walk p o' = Some (value r)).
  { revert S. unfold set, split. destruct (isValid p) eqn:V; [|discriminate].
    cbn [bind]. apply setLoop_walk; try assumption. intros ->. discriminate. }
  pose proof (inspectRemove_walk _ _ _ _ _ IR) as H.
  destruct (walk p T0) as [x|].
  - destruct H as (_ & Hv & _). now rewrite <- Hv.
  - destruct H as (_ & Hv & E). rewrite <- Hv. now split.
Qed.

Lemma separate_last_witness :
  walk ["boat"]
    (Obj [("car", Obj [("brand", Leaf (Str "Dodge"))]); ("boat", undefined)])
  = Some undefined.
Proof.
  exact (proj1 (separate_last DEFAULT_OPTS
                  (Obj [("car", Obj [("brand", Leaf (Str "Dodge"));
                                     ("year", Leaf (Num 1970))]);
                        ("notebook", Leaf (Str "Mac"))])
                  (Obj [("car", Obj [("year", Leaf (Num 1970))]);
                        ("notebook", Leaf (Str "Mac"))])
                  (Obj [("car", Obj [("year", Leaf (Num 1970))]);
                        ("notebook", Leaf (Str "Mac"))])
                  (Obj [("car", Obj [("brand", Leaf (Str "Dodge"))])])
                  (Obj [("car", Obj [("brand", Leaf (Str "Dodge"))]);
                        ("boat", undefined)])
                  [["car"; "brand"]] ["boat"]
                  eq_refl eq_refl eq_refl eq_refl)).
Defined.

(** X25: extrude moves the value to a new object.  For valid notations
    and a notation that is there, extrude does not fail: it removes the
    notation and sets the new notation (the notation itself when none
    is given) on an empty map.  The new object holds the value under
    the new notation, when that can be read back on an empty map: its
    notes are indices below 2^32 - 1 or keys other than __proto__ and
    the empty quoted key, and it does not begin with an index.  The
    source no longer has the notation when its parent is not a list;
    when the parent is a list and preserveIndices is on, the notation
    leads to the undefined of the hole the removal leaves. *)
Theorem extrude_moves (opts : options) (T x : tree) (notes : notation)
  (newNotation : option notation) :
  isValid notes = true ->
  isValid (getNewNotation newNotation notes) = true ->
  walk notes T = Some x ->
  exists T1 o,
    extrude opts T notes newNotation = Went (Ok (T1, o))
    /\ (forallb plainNote (getNewNotation newNotation notes) = true ->
        indexed (getNewNotation newNotation notes) (Obj []) = true ->
        walk (getNewNotation newNotation notes) o = Some x)
    /\ (forall par, walk (removelast notes) T = Some par ->
          (isArray par = false -> walk notes T1 = None)
          /\ (isArray par = true -> preserveIndices opts = true ->
              walk notes T1 = Some undefined)).
Proof.
  intros V Vn W. unfold extrude, moveTo. cbn [isCollection negb].
  destruct (inspectRemove_total opts T notes V) as (r & T1 & IR).
  rewrite IR. cbn [bind].
  pose proof (inspectRemove_walk _ _ _ _ _ IR) as H. rewrite W in H.
  destruct H as (Hh & Hv & Gone). rewrite Hh. cbv zeta. rewrite Hv.
  destruct (set_fresh_total (getNewNotation newNotation notes) x Vn) as [o S].
  rewrite S. cbn [bind]. exists T1, o. split; [reflexivity|].
  split; [|intros par Wp; exact (proj2 (Gone par Wp))].
  intros P I. revert S. unfold set, split. rewrite Vn. cbn [bind].
  apply setLoop_walk; try assumption. intros E. rewrite E in Vn. discriminate.
Qed.

Lemma extrude_moves_witness :
  exists T1 o,
    extrude DEFAULT_OPTS
      (Obj [("car", Obj [("brand", Leaf (Str "Ford"));
                         ("model", Leaf (Str "Mustang"))])])
      ["car"; "brand"] (Some ["carBrand"]) = Went (Ok (T1, o))
    /\ walk ["carBrand"] o = Some (Leaf (Str "Ford"))
    /\ walk ["car"; "brand"] T1 = None.
Proof.
  destruct (extrude_moves DEFAULT_OPTS
              (Obj [("car", Obj [("brand", Leaf (Str "Ford"));
                                 ("model", Leaf (Str "Mustang"))])])
              (Leaf (Str "Ford")) ["car"; "brand"] (Some ["carBrand"])
              eq_refl eq_refl eq_refl) as (T1 & o & E & Wn & Gone).
  exists T1, o. split; [exact E|]. split; [exact (Wn eq_refl eq_refl)|].
  exact (proj1 (Gone (Obj [("brand", Leaf (Str "Ford"));
                           ("model", Leaf (Str "Mustang"))]) eq_refl)
           eq_refl).
Defined.

(** *** Removing *)

(** The parent inspectRemove works on, what it reports of it, and what
    it leaves. *)
Lemma inspectRemove_result (opts : options) (T T1 : tree) (notes : notation)
  (r : InspectResult) :
  inspectRemove opts T notes = Ok (r, T1) ->
  exists n par,
    normalizeNote (last notes "") = Ok n
    /\ par = match walk (removelast notes) T with
             | Some v => v
             | None => Leaf Null
             end
    /\ parentIsArray r = isArray par
    /\ has r = hasOwn par n
    /\ if hasOwn par n
       then modifyAt (removelast notes)
              (fun p => if negb (preserveIndices opts) && isArray par
                        then spliceOut p n else deleteProp p n) T = Ok T1
       else T1 = T.
Proof.
  unfold inspectRemove, parent, split.
  destruct (isValid notes) eqn:V; [|discriminate]. cbn [bind].
  destruct (removelast notes) as [|p0 pr] eqn:RL; cbn [bind].
  - destruct (normalizeNote (last notes "")) as [n|]; [|discriminate].
    cbn [bind]. intros H. exists n, T. split; [reflexivity|].
    split; [reflexivity|]. revert H.
    destruct (hasOwn T n); intros [= <- <-]; cbn [parentIsArray has];
      repeat split; reflexivity.
  - set (pn := p0 :: pr) in *.
    assert (NEp : pn <> []) by discriminate.
    destruct (get opts T pn (Some (Leaf Null))) as [par|] eqn:G;
      [|discriminate].
    cbn [bind].
    destruct (normalizeNote (last notes "")) as [n|]; [|discriminate].
    cbn [bind]. intros H. exists n, par. split; [reflexivity|].
    split; [exact (get_default _ _ _ _ _ NEp G)|]. revert H.
    destruct (hasOwn par n).
    + destruct (modifyAt pn _ T) as [T1'|] eqn:M; [|discriminate].
      cbn [bind]. intros [= <- <-]. cbn [parentIsArray has].
      repeat split; reflexivity.
    + intros [= <- <-]. cbn [parentIsArray has]. repeat split; reflexivity.
Qed.

Lemma lookup_dropProp_other (k k' : string) (props : list (string * tree)) :
  k <> k' -> lookup k' (dropProp k props) = lookup k' props.
Proof.
  intros NE. induction props as [|[k0 v0] rest IH]; [reflexivity|].
  cbn [dropProp]. destruct (String.eqb k k0) eqn:E.
  - apply String.eqb_eq in E. subst k0. cbn [lookup].
    apply not_eq_sym, String.eqb_neq in NE. now rewrite NE.
  - cbn [lookup]. now rewrite IH.
Qed.

Lemma nth_holeAt_other (i j : nat) (items : list (option tree)) :
  i <> j -> nth_error (holeAt i items) j = nth_error items j.
Proof.
  revert j items. induction i as [|i IH]; intros [|j] [|x rest] NE;
    cbn [holeAt nth_error]; try congruence.
  apply IH. congruence.
Qed.

Lemma deleteProp_other (par : tree) (n m : nnote) :
  propKey n <> propKey m ->
  hasOwn (deleteProp par n) m = hasOwn par m
  /\ getProp (deleteProp par n) m = getProp par m.
Proof.
  intros NE. destruct par as [s|props|items]; [now split| |].
  - cbn [deleteProp getProp].
    rewrite (lookup_dropProp_other _ _ props NE). split; [|reflexivity].
    destruct m as [k|j|]; cbn [hasOwn]; try reflexivity.
    cbn [propKey] in NE. now rewrite (lookup_dropProp_other _ _ props NE).
  - destruct n as [k|i|]; try now split.
    destruct m as [k|j|]; try now split. cbn [deleteProp hasOwn getProp].
    assert (D : i <> j) by (intros ->; now apply NE).
    now rewrite holeAt_length, (nth_holeAt_other i j items D).
Qed.

Lemma modifyAt_frame (f : tree -> tree) (rest q : list string)
  (c : list string) :
  (forall lvl lvl1, modifyAt rest f lvl = Ok lvl1 -> walk q lvl1 = walk q lvl) ->
  forall T T1,
    modifyAt (c ++ rest) f T = Ok T1 ->
    walk (c ++ q) T1 = walk (c ++ q) T.
Proof.
  intros Hr. induction c as [|k c IH]; intros T T1 M; [now apply Hr|].
  cbn [app modifyAt walk] in *.
  destruct (normalizeNote k) as [nk|]; [|discriminate]. cbn [bind] in M.
  destruct (hasOwn T nk) eqn:O; [|now injection M as <-; rewrite O].
  destruct (modifyAt (c ++ rest) f (getProp T nk)) as [child|] eqn:Mc;
    [|discriminate].
  cbn [bind] in M.
  destruct (assign_member _ _ _ _ (hasOwn_takes _ _ O) M) as [-> ->].
  exact (IH _ _ Mc).
Qed.

(** X21: remove leaves the other branches alone.  For a notation q that
    parts from the removed notation at some note, q leads after the
    removal to what it led to before; at the last note of the removed
    notation this asks that the removal does not splice (parent not a
    list, or preserveIndices on). *)
Theorem remove_leaves_other_paths (opts : options) (T T' : tree)
  (c pa qb : list string) (a b : string) (na nb : nnote) :
  normalizeNote a = Ok na ->
  normalizeNote b = Ok nb ->
  propKey na <> propKey nb ->
  pa <> [] \/ preserveIndices opts = true
  \/ (forall par, walk c T = Some par -> isArray par = false) ->
  remove opts T (c ++ a :: pa) = Ok T' ->
  walk (c ++ b :: qb) T' = walk (c ++ b :: qb) T.
Proof.
  intros Na Nb D C. unfold remove.
  destruct (inspectRemove opts T (c ++ a :: pa)) as [[r T1]|] eqn:IR;
    [|discriminate].
  cbn [bind]. intros H.
  assert (E : T1 = T') by (destruct (strict opts && negb (has r));
                           [discriminate | now injection H]).
  subst T1. clear H.
  destruct (inspectRemove_result _ _ _ _ _ IR) as (n & par & N & P & _ & _ & M).
  destruct (hasOwn par n); [|now subst T'].
  destruct pa as [|a' pa'].
  - (* the notations part at the removed note itself *)
    rewrite removelast_last in M, P. rewrite last_last in N.
    rewrite Na in N. injection N as <-.
    rewrite <- (app_nil_r c) in M at 1.
    apply (modifyAt_frame _ [] (b :: qb) c) in M; [exact M|].
    intros lvl lvl1 [= <-]. cbn [walk]. rewrite Nb.
    assert (Cut : negb (preserveIndices opts) && isArray par = false).
    { destruct C as [C | [-> | C]]; [congruence | reflexivity |].
      destruct (walk c T) as [v|] eqn:W; subst par.
      - rewrite (C v eq_refl). apply andb_false_r.
      - apply andb_false_r. }
    rewrite Cut. now destruct (deleteProp_other lvl na nb D) as [-> ->].
  - (* the notations part before the removed note *)
    rewrite removelast_app in M by discriminate.
    change (removelast (a :: a' :: pa')) with (a :: removelast (a' :: pa')) in M.
    apply (modifyAt_frame _ _ (b :: qb) c) in M; [exact M|].
    intros lvl lvl1. cbn [modifyAt]. rewrite Na. cbn [bind walk]. rewrite Nb.
    destruct (hasOwn lvl na) eqn:Oa; [|now intros [= <-]].
    destruct (modifyAt _ _ (getProp lvl na)) as [child|]; [|discriminate].
    cbn [bind]. intros A.
    now destruct (assign_other_eq _ _ _ _ _ A D (fun _ => or_introl Oa))
      as [-> ->].
Qed.

Lemma remove_leaves_other_paths_witness :
  walk ["car"; "year"] (Obj [("car", Obj [("year", Leaf (Num 1970))])])
  = walk ["car"; "year"]
      (Obj [("car", Obj [("model", Leaf (Str "Charger"));
                         ("year", Leaf (Num 1970))])]).
Proof.
  apply (remove_leaves_other_paths DEFAULT_OPTS
           (Obj [("car", Obj [("model", Leaf (Str "Charger"));
                              ("year", Leaf (Num 1970))])])
           (Obj [("car", Obj [("year", Leaf (Num 1970))])])
           ["car"] [] [] "model" "year" (NKey "model") (NKey "year"));
    try reflexivity.
  - discriminate.
  - right. right. intros par [= <-]. reflexivity.
Defined.

(** X22: remove with strict on throws exactly when the notation is not
    there: the index error when the parent is a list, the property error
    otherwise, which includes a parent that is itself absent. *)
Theorem remove_strict (opts : options) (T : tree) (notes : notation) :
  strict opts = true ->
  isValid notes = true ->
  match walk notes T with
  | Some _ => exists T', remove opts T notes = Ok T'
  | None =>
      remove opts T notes
      = Err (if match walk (removelast notes) T with
                | Some par => isArray par
                | None => false
                end
             then MissingIndex else MissingProperty)
  end.
Proof.
  intros S V. unfold remove.
  destruct (inspectRemove_total opts T notes V) as (r & T1 & IR).
  rewrite IR. cbn [bind]. rewrite S. cbn [andb].
  pose proof (inspectRemove_walk _ _ _ _ _ IR) as W.
  destruct (inspectRemove_result _ _ _ _ _ IR) as (n & par & _ & P & A & _).
  destruct (walk notes T) as [x|].
  - destruct W as (-> & _). cbn [negb]. eauto.
  - destruct W as (-> & _). cbn [negb]. rewrite A, P.
    now destruct (walk (removelast notes) T).
Qed.

Lemma remove_strict_witness :
  remove (mkOptions true false)
    (Obj [("list", Arr [Some (Leaf (Num 1))])]) ["list"; "[3]"]
  = Err MissingIndex.
Proof.
  exact (remove_strict (mkOptions true false)
           (Obj [("list", Arr [Some (Leaf (Num 1))])]) ["list"; "[3]"]
           eq_refl eq_refl).
Defined.

Lemma nth_removeAt_before (i : nat) :
  forall (items : list (option tree)) (j : nat),
    j < i -> nth_error (removeAt i items) j = nth_error items j.
Proof.
  induction i as [|i IH]; intros items j J; [lia|].
  destruct items as [|x items]; [reflexivity|]. cbn [removeAt].
  destruct j as [|j]; [reflexivity|]. cbn [nth_error]. apply IH. lia.
Qed.

Lemma nth_removeAt_after (i : nat) :
  forall (items : list (option tree)) (j : nat),
    i <= j -> nth_error (removeAt i items) j = nth_error items (S j).
Proof.
  induction i as [|i IH]; intros items j J.
  - destruct items as [|x items]; [now destruct j | reflexivity].
  - destruct items as [|x items]; [now destruct j|]. cbn [removeAt].
    destruct j as [|j]; [lia|]. cbn [nth_error]. apply IH. lia.
Qed.

(** X28: remove of a list item, with preserveIndices off, splices it
    out, also with strict on: the item that was at an index above it is
    found one index lower, and the items before it stay in place. *)
Theorem remove_splices (opts : options) (T : tree) (pn : list string)
  (k : string) (i : nat) (items : list (option tree)) :
  preserveIndices opts = false ->
  isValid (pn ++ [k]) = true ->
  normalizeNote k = Ok (NIdx i) ->
  walk pn T = Some (Arr items) ->
  hasOwn (Arr items) (NIdx i) = true ->
  exists T',
    remove opts T (pn ++ [k]) = Ok T'
    /\ (forall j, i <= j ->
          walk (pn ++ [indexNote j]) T' = walk (pn ++ [indexNote (S j)]) T)
    /\ (forall j, j < i ->
          walk (pn ++ [indexNote j]) T' = walk (pn ++ [indexNote j]) T).
Proof.
  intros P V N W O. unfold remove.
  destruct (inspectRemove_total opts T (pn ++ [k]) V) as (r & T1 & IR).
  rewrite IR. cbn [bind].
  destruct (inspectRemove_result _ _ _ _ _ IR) as (n & par & Nl & Pa & _ & H & M).
  rewrite last_last, N in Nl. injection Nl as <-.
  rewrite removelast_last in Pa, M. rewrite W in Pa. subst par.
  rewrite O in H, M. rewrite H, P in *. cbn [negb andb isArray] in M.
  rewrite andb_false_r.
  destruct (modifyAt_walk pn (fun p => spliceOut p (NIdx i)) T _ W)
    as (T1' & M' & W1).
  rewrite M in M'. injection M' as <-. cbn [spliceOut] in W1.
  exists T1. split; [reflexivity|]. split.
  - intros j J. rewrite (walk_item pn j T1 _ W1), (walk_item pn (S j) T _ W).
    now rewrite (nth_removeAt_after i items j J).
  - intros j J. rewrite (walk_item pn j T1 _ W1), (walk_item pn j T _ W).
    now rewrite (nth_removeAt_before i items j J).
Qed.

Lemma remove_splices_witness :
  exists T',
    remove DEFAULT_OPTS
      (Obj [("a", Arr [Some (Leaf (Num 1)); Some (Leaf (Num 2));
                       Some (Leaf (Num 3))])])
      ["a"; "[0]"] = Ok T'
    /\ walk ["a"; "[0]"] T' = Some (Leaf (Num 2))
    /\ walk ["a"; "[1]"] T' = Some (Leaf (Num 3)).
Proof.
  destruct (remove_splices DEFAULT_OPTS
              (Obj [("a", Arr [Some (Leaf (Num 1)); Some (Leaf (Num 2));
                               Some (Leaf (Num 3))])])
              ["a"] "[0]" 0
              [Some (Leaf (Num 1)); Some (Leaf (Num 2)); Some (Leaf (Num 3))]
              eq_refl eq_refl eq_refl eq_refl eq_refl)
    as (T' & R & After & _).
  exists T'. split; [exact R|]. split.
  - exact (After 0 (le_n 0)).
  - exact (After 1 (le_S 0 0 (le_n 0))).
Defined.

End Moving.

Section Merging.

Import Utils Notation.

(** *** merge with overwrite *)

Lemma merge_app (E : flat) :
  forall (T : tree) (F : flat) (overwrite : bool),
    merge T (E ++ F) overwrite
    = (T1 <- merge T E overwrite ;; merge T1 F overwrite).
Proof.
  induction E as [|[n v] E IH]; intros T F overwrite; [reflexivity|].
  cbn [app merge]. destruct (reserved n); [apply IH|].
  destruct (set T n v _); [|reflexivity]. cbn [bind]. apply IH.
Qed.

(** X30: the last key of the notations object wins, unless it is one of
    the keys merge passes over.  With the tree as the keys before the
    last have left it: a last key that holds __proto__, prototype or
    constructor leaves that tree as the result; any other last key is
    set on it, and then leads to its value when it can be read back on
    that tree (its notes are indices below 2^32 - 1 or keys other than
    the empty quoted key, and its index notes meet lists). *)
Theorem merge_last_key (T T1 T' v : tree) (notationsObject : flat)
  (n : notation) :
  merge T notationsObject true = Ok T1 ->
  merge T (notationsObject ++ [(n, v)]) true = Ok T' ->
  if reserved n then T' = T1
  else set T1 n v Overwrite = Ok T'
       /\ (forallb plainNote n = true -> indexed n T1 = true ->
           walk n T' = Some v).
Proof.
  rewrite merge_app. intros ->.
  cbn [bind merge]. destruct (reserved n); [now intros [= <-]|].
  destruct (set T1 n v Overwrite) as [T2|] eqn:S; [|discriminate].
  cbn [bind]. intros [= <-]. split; [reflexivity|]. intros P I.
  revert S. unfold set, split.
  destruct (isValid n) eqn:V; [|discriminate]. cbn [bind].
  apply setLoop_walk; try assumption. intros ->. discriminate.
Qed.

Lemma merge_last_key_witness :
  walk ["car"; "year"]
    (Obj [("car", Obj [("year", Leaf (Num 1965));
                       ("color", Leaf (Str "red"))])])
  = Some (Leaf (Num 1965)).
Proof.
  exact (proj2 (merge_last_key
                  (Obj [("car", Obj [("year", Leaf (Num 1970))])])
                  (Obj [("car", Obj [("year", Leaf (Num 1970));
                                     ("color", Leaf (Str "red"))])])
                  _ (Leaf (Num 1965))
                  [(["car"; "color"], Leaf (Str "red"))] ["car"; "year"]
                  eq_refl eq_refl)
           eq_refl eq_refl).
Defined.

(** Where the read-back of X30 stops: the key of an index note on a map
    is written as the decimal text, and the index note does not lead to
    it. *)
Remark merge_index_on_map :
  merge (Obj []) [(["[0]"], Leaf (Num 1))] true
  = Ok (Obj [("0", Leaf (Num 1))])
  /\ walk ["[0]"] (Obj [("0", Leaf (Num 1))]) = None.
Proof. split; reflexivity. Qed.

End Merging.

Section Iterating.

Import Utils Notation.

Lemma lookup_distinct (props : list (string * tree)) (k : string) (v : tree) :
  distinct (map fst props) = true -> In (k, v) props ->
  lookup k props = Some v.
Proof.
  induction props as [|[k0 v0] rest IH]; intros D I; [destruct I|].
  cbn [map fst] in D. apply distinct_cons in D as [NI D]. cbn [lookup].
  destruct I as [[= -> ->] | I].
  - now rewrite String.eqb_refl.
  - destruct (String.eqb k k0) eqn:E; [|now apply IH].
    apply String.eqb_eq in E. subst k0. exfalso. apply NI.
    now apply (in_map fst) in I.
Qed.

Lemma In_eachProps (r : bool) (p : notation) (props : list (string * tree))
  (e : notation * string * tree) :
  In e (eachProps r p props) ->
  exists k v, In (k, v) props /\ In e (visit r p k v).
Proof.
  induction props as [|[k v] rest IH]; [intros []|].
  cbn [eachProps]. intros I. apply in_app_or in I as [I | I].
  - exists k, v. split; [now left | exact I].
  - destruct (IH I) as (k' & v' & I' & Iv). exists k', v'.
    split; [now right | exact Iv].
Qed.

Lemma In_eachItems (r : bool) (p : notation) (items : list (option tree))
  (e : notation * string * tree) :
  forall i,
    In e (concat (eachItems r p i items)) ->
    exists j it, nth_error items j = Some it /\ In e (visitItem r p (i + j) it).
Proof.
  induction items as [|it rest IH]; intros i; [intros []|].
  cbn [eachItems concat]. intros I. apply in_app_or in I as [I | I].
  - exists 0, it. split; [reflexivity | now rewrite Nat.add_0_r].
  - destruct (IH (S i) I) as (j & it' & Nj & Iv). exists (S j), it'.
    split; [exact Nj | now rewrite Nat.add_succ_r].
Qed.

Lemma In_visit (r : bool) (k : string) (c : tree)
  (e : notation * string * tree) :
  In e (visit r [] k c) ->
  (isCollection c = false /\ e = ([k], k, c))
  \/ (exists e', In e' (_each r [] c) /\ e = below [k] e').
Proof.
  destruct c as [x|props|items]; cbn [visit].
  - intros [<- | []]. now left.
  - change ([] ++ [k]) with ([k] ++ @nil string). rewrite each_below.
    intros I. apply in_map_iff in I as (e' & <- & I'). right. eauto.
  - change ([] ++ [k]) with ([k] ++ @nil string). rewrite each_below.
    intros I. apply in_map_iff in I as (e' & <- & I'). right. eauto.
Qed.

(** What each hands to its callback, on a keyed tree: a valid notation
    that ends in the note, with a value that is no collection and that
    the notation leads to; for a hole of a list, undefined. *)
Lemma each_reads (t : tree) :
  keyed t = true ->
  forall r n note v,
    In (n, note, v) (_each r [] t) ->
    n <> [] /\ forallb validNote n = true /\ last n "" = note
    /\ isCollection v = false
    /\ walk n t = Some v.
Proof.
  induction t as [x|props IH|items IH] using tree_nested_ind;
    intros K r n note v I.
  - destruct I.
  - rewrite _each_Obj in I. cbn [keyed] in K.
    apply andb_true_iff in K as [D K].
    destruct (In_eachProps _ _ _ _ I) as (k & c & Ic & Iv).
    rewrite forallb_forall in K. specialize (K _ Ic). cbn [fst snd] in K.
    apply andb_true_iff in K as [Vk Kc].
    rewrite Forall_forall in IH. specialize (IH _ Ic). cbn [snd] in IH.
    assert (W : forall q, walk (k :: q) (Obj props) = walk q c).
    { intros q. cbn [walk]. rewrite (normalizeNote_VAR k Vk).
      cbn [hasOwn getProp propKey].
      now rewrite (lookup_distinct props k c D Ic). }
    destruct (In_visit _ _ _ _ Iv) as [[Lc [= -> -> ->]] | (e' & I' & E)].
    + split; [discriminate|]. split.
      { cbn [forallb]. now rewrite (validNote_VAR k Vk). }
      split; [reflexivity|]. split; [exact Lc|]. now rewrite W.
    + destruct e' as [[n' note'] v']. injection E as -> -> ->.
      destruct (IH Kc r n' note' v' I') as (NE & Vn & L & C & R).
      cbn [app]. split; [discriminate|]. split.
      { cbn [forallb]. now rewrite (validNote_VAR k Vk). }
      split; [destruct n'; [congruence | exact L]|].
      split; [exact C|]. now rewrite W.
  - rewrite _each_Arr in I. cbn [keyed] in K.
    assert (I0 : In (n, note, v) (concat (eachItems r [] 0 items))).
    { destruct r; [|exact I]. apply in_concat in I as (g & Ig & Ie).
      apply in_concat. exists g. split; [now apply in_rev in Ig | exact Ie]. }
    destruct (In_eachItems _ _ _ _ 0 I0) as (j & it & Nj & Iv).
    cbn [Nat.add] in Iv. pose proof (nth_error_In _ _ Nj) as Ii.
    rewrite forallb_forall in K. specialize (K _ Ii).
    rewrite Forall_forall in IH. specialize (IH _ Ii).
    destruct it as [c|].
    + assert (W : forall q, walk (indexNote j :: q) (Arr items) = walk q c).
      { intros q. cbn [walk]. rewrite normalizeNote_index.
        pose proof (member_spec (Arr items) (NIdx j)) as E.
        cbn [member] in E. rewrite Nj in E.
        destruct (hasOwn (Arr items) (NIdx j)); [|discriminate].
        injection E as E. now subst c. }
      cbn [visitItem] in Iv.
      destruct (In_visit _ _ _ _ Iv) as [[Lc [= -> -> ->]] | (e' & I' & E)].
      * split; [discriminate|]. split.
        { cbn [forallb]. now rewrite validNote_index. }
        split; [reflexivity|]. split; [exact Lc|]. now rewrite W.
      * destruct e' as [[n' note'] v']. injection E as -> -> ->.
        destruct (IH K r n' note' v' I') as (NE & Vn & L & C & R).
        cbn [app]. split; [discriminate|]. split.
        { cbn [forallb]. now rewrite validNote_index. }
        split; [destruct n'; [congruence | exact L]|].
        split; [exact C|]. now rewrite W.
    + cbn [visitItem] in Iv. destruct Iv as [[= <- <- <-] | []].
      cbn [app]. split; [discriminate|]. split.
      { cbn [forallb]. now rewrite validNote_index. }
      split; [reflexivity|]. split; [reflexivity|].
      cbn [walk]. rewrite normalizeNote_index, <- member_spec.
      cbn [member]. now rewrite Nj.
Qed.

(** X23: what each calls back with can be read back.  On a source whose
    keys are distinct variable names, for every call (notation, note,
    value) of each: the notation is valid and ends in the note, the
    value is no collection, and get(notation) returns the value. *)
Theorem each_reads_back (source : tree) (r : bool) (n : notation)
  (note : string) (v : tree) :
  keyed source = true ->
  In (n, note, v) (_each r [] source) ->
  isValid n = true
  /\ last n "" = note
  /\ isCollection v = false
  /\ get DEFAULT_OPTS source n None = Ok v.
Proof.
  intros K I.
  destruct (each_reads source K r n note v I) as (NE & Vn & L & C & R).
  assert (V : isValid n = true) by (destruct n; [congruence | exact Vn]).
  split; [exact V|]. split; [exact L|]. split; [exact C|].
  destruct (inspectGet_total source n V) as [res G].
  pose proof (inspectGet_walk _ _ _ G) as W.
  unfold get. rewrite G. cbn [bind strict DEFAULT_OPTS andb].
  rewrite R in W. destruct W as [-> W2]. now rewrite W2.
Qed.

Lemma each_reads_back_witness :
  isValid ["car"; "tags"; "[1]"] = true
  /\ last ["car"; "tags"; "[1]"] "" = "[1]"
  /\ isCollection (Leaf (Str "v8")) = false
  /\ get DEFAULT_OPTS
       (Obj [("car", Obj [("brand", Leaf (Str "Dodge"));
                          ("tags", Arr [Some (Leaf (Str "muscle"));
                                        Some (Leaf (Str "v8"))])])])
       ["car"; "tags"; "[1]"] None
     = Ok (Leaf (Str "v8")).
Proof.
  apply (each_reads_back _ false); [reflexivity|].
  vm_compute. right. right. now left.
Defined.

(** *** flatten *)

Lemma notation_eqb_eq (a b : notation) : notation_eqb a b = true <-> a = b.
Proof.
  unfold notation_eqb. destruct (list_eq_dec string_dec a b); split;
    congruence.
Qed.

Lemma In_putFlat (n : notation) (v : tree) (o : flat) (n' : notation)
  (v' : tree) :
  In (n', v') (putFlat n v o) -> (n' = n /\ v' = v) \/ In (n', v') o.
Proof.
  unfold putFlat. destruct (String.eqb (joinNotes n) "__proto__"); [auto|].
  induction o as [|[k x] rest IH]; cbn [putNotation].
  - intros [[= <- <-] | []]. now left.
  - destruct (notation_eqb n k).
    + intros [[= <- <-] | I]; [now left | right; now right].
    + intros [E | I]; [right; now left|].
      destruct (IH I) as [H | H]; [now left | right; now right].
Qed.

Lemma putNotation_keys (n : notation) (v : tree) (o : flat) (n' : notation) :
  In n' (map fst (putNotation n v o)) <-> n' = n \/ In n' (map fst o).
Proof.
  induction o as [|[k x] rest IH]; cbn [putNotation map fst In].
  - split; [intros [<- | []]; now left | intros [-> | []]; now left].
  - destruct (notation_eqb n k) eqn:E; cbn [map fst In].
    + apply notation_eqb_eq in E. subst k. split.
      * intros [<- | I]; [now left | right; now right].
      * intros [-> | [<- | I]]; auto.
    + rewrite IH. split.
      * intros [<- | [-> | I]]; auto.
      * intros [-> | [<- | I]]; auto.
Qed.

Lemma putFlat_keys (n : notation) (v : tree) (o : flat) (n' : notation) :
  In n' (map fst (putFlat n v o))
  <-> (n' = n /\ String.eqb (joinNotes n) "__proto__" = false)
      \/ In n' (map fst o).
Proof.
  unfold putFlat. destruct (String.eqb (joinNotes n) "__proto__").
  - split; [auto | intros [[_ H] | H]; [discriminate | exact H]].
  - rewrite putNotation_keys. split.
    + intros [-> | H]; auto.
    + intros [[-> _] | H]; auto.
Qed.

Lemma flatten_entries (es : list (notation * string * tree)) :
  forall (acc : flat) (n : notation) (v : tree),
    In (n, v)
      (fold_left (fun o e => let '(n0, _, v0) := e in putFlat n0 v0 o) es acc) ->
    In (n, v) acc \/ exists note, In (n, note, v) es.
Proof.
  induction es as [|[[n0 note0] v0] es IH]; intros acc n v I; [now left|].
  cbn [fold_left] in I. destruct (IH _ _ _ I) as [H | [note H]].
  - destruct (In_putFlat _ _ _ _ _ H) as [[-> ->] | H'].
    + right. exists note0. now left.
    + now left.
  - right. exists note. now right.
Qed.

Lemma flatten_keys (es : list (notation * string * tree)) :
  forall (acc : flat) (n : notation),
    In n (map fst
            (fold_left (fun o e => let '(n0, _, v0) := e in putFlat n0 v0 o)
               es acc))
    <-> In n (map fst acc)
        \/ (In n (map (fun e => fst (fst e)) es)
            /\ String.eqb (joinNotes n) "__proto__" = false).
Proof.
  induction es as [|[[n0 note0] v0] es IH]; intros acc n.
  - cbn. tauto.
  - cbn [fold_left map fst In]. rewrite IH, putFlat_keys.
    split.
    + intros [[[-> H] | H] | [H1 H2]]; auto.
    + intros [H | [[<- | H] H2]]; auto.
Qed.

(** X24: flatten and getNotations agree but for one key, and flatten
    can be read back.  The keys of the flattened object are the
    notations getNotations lists, other than the notation __proto__,
    the write of which on the object flatten fills makes no key; and on
    a source whose keys are distinct variable names, the value flatten
    holds under a notation is the value get returns for it. *)
Theorem flatten_reads_back (source : tree) :
  (forall n, In n (map fst (flatten source))
             <-> In n (getNotations source)
                 /\ String.eqb (joinNotes n) "__proto__" = false)
  /\ (keyed source = true ->
      forall n v, In (n, v) (flatten source) ->
                  get DEFAULT_OPTS source n None = Ok v).
Proof.
  split.
  - intros n. unfold flatten, getNotations. rewrite flatten_keys. cbn [map In].
    tauto.
  - intros K n v I. unfold flatten in I.
    destruct (flatten_entries _ _ _ _ I) as [[] | [note E]].
    destruct (each_reads source K false n note v E) as (NE & Vn & _ & _ & R).
    assert (V : isValid n = true) by (destruct n; [congruence | exact Vn]).
    destruct (inspectGet_total source n V) as [res G].
    pose proof (inspectGet_walk _ _ _ G) as W.
    unfold get. rewrite G. cbn [bind strict DEFAULT_OPTS andb].
    rewrite R in W. destruct W as [-> W2]. now rewrite W2.
Qed.

Lemma flatten_reads_back_witness :
  get DEFAULT_OPTS
    (Obj [("car", Obj [("brand", Leaf (Str "Dodge"));
                       ("year", Leaf (Num 1970))])])
    ["car"; "year"] None
  = Ok (Leaf (Num 1970)).
Proof.
  apply (proj2 (flatten_reads_back
                  (Obj [("car", Obj [("brand", Leaf (Str "Dodge"));
                                     ("year", Leaf (Num 1970))])]))
           eq_refl).
  vm_compute. right. now left.
Defined.

(** The key flatten leaves out: a source with an own member __proto__
    has the notation, and the flattened object has no key for it. *)
Remark flatten_skips_proto :
  getNotations (Obj [("__proto__", Leaf (Num 1)); ("a", Leaf (Num 2))])
  = [["__proto__"]; ["a"]]
  /\ flatten (Obj [("__proto__", Leaf (Num 1)); ("a", Leaf (Num 2))])
     = [(["a"], Leaf (Num 2))].
Proof. split; reflexivity. Qed.

End Iterating.

Section Filtering.

Import Utils NotationGlob Notation.



End Filtering.
